(** * bets4sats: the ticket / competition store of [crud.py]

    A shallow embedding of the storage layer of the bets4sats extension.
    The two SQL tables of [migrations.py] are finite maps keyed by their
    PRIMARY KEY column [id]; every [await db.execute(...)] is one atomic,
    immediately durable statement on the store; Python exceptions are
    explicit results that keep the store reached when they were raised
    (no statement of [crud.py] runs inside a transaction). The database
    layer of LNbits, which runs the statements, rewrites their string
    parameters (tags and character entities are removed); this is modelled
    where a result is read against the text that was given, in
    [create_competition].

    Integers are Python integers ([Z]; the range of the INTEGER columns is
    not modelled); timestamps are integer ticks of the store clock, which is
    an explicit argument [now] of the operations that read it; the JSON text
    of the [choices] column is kept in parsed form. The [while True] retry
    loops take a bound on their iterations, [fuel]; every result below is
    stated for all bounds that allow one iteration. *)

From stdpp Require Import gmap strings list fin_maps.
From Stdlib Require Import Ascii.

Local Open Scope Z_scope.

(** ** Rows of the two tables ([migrations.py], [m001_initial])

    The row classes [Ticket] and [Competition] of [models.py] are not among
    the sources; the records follow the columns of the CREATE TABLE
    statements. *)

(** One element of the JSON list stored in [competitions.choices]. *)
Record Choice := mkChoice {
  title : string;
  total : Z
}.

(** A row of [bets4sats.tickets]; the [id] column is the key of the map. *)
Record Ticket := mkTicket {
  t_wallet : string;
  t_competition : string;
  t_amount : Z;
  t_reward_target : string;
  t_choice : Z;
  t_state : string;
  t_reward_msat : Z;
  t_reward_failure : string;
  t_reward_payment_hash : string;
  t_time : Z
}.

(** A row of [bets4sats.competitions]; the [id] column is the key. *)
Record Competition := mkCompetition {
  c_wallet : string;
  c_register_id : string;
  c_name : string;
  c_info : string;
  c_banner : string;
  c_closing_datetime : string;
  c_amount_tickets : Z;
  c_min_bet : Z;
  c_max_bet : Z;
  c_sold : Z;
  c_choices : list Choice;
  c_winning_choice : Z;
  c_state : string;
  c_time : Z
}.

(** Modelled from the spec: the class [CreateCompetition] of [models.py],
    which is not among the sources. It has the fields [create_competition]
    reads; [cc_choices] is [json.loads(data.choices)], a list of choices
    given by their title (["title"] is the only key of an element that is
    read). *)
Record CreateCompetition := mkCreateCompetition {
  cc_wallet : string;
  cc_name : string;
  cc_info : string;
  cc_banner : string;
  cc_closing_datetime : string;
  cc_amount_tickets : Z;
  cc_min_bet : Z;
  cc_max_bet : Z;
  cc_choices : list string
}.

(** Modelled from the spec: the class [UpdateCompetition] of [models.py],
    which is not among the sources. It has the two optional fields
    [update_competition] reads. *)
Record UpdateCompetition := mkUpdateCompetition {
  uc_amount_tickets : option Z;
  uc_closing_datetime : option string
}.

Record Store := mkStore {
  tickets : gmap string Ticket;
  competitions : gmap string Competition
}.

#[global] Instance Choice_eq_dec : EqDecision Choice.
Proof. solve_decision. Defined.
#[global] Instance Ticket_eq_dec : EqDecision Ticket.
Proof. solve_decision. Defined.
#[global] Instance Competition_eq_dec : EqDecision Competition.
Proof. solve_decision. Defined.

(** ** Constants *)

Definition INVOICE_EXPIRY : Z := 15 * 60.
Definition TICKET_PURGE_TIME : Z := INVOICE_EXPIRY + 10.

(** The nine values of the ticket [state] column. *)
Definition INITIAL : string := "INITIAL".
Definition FUNDED : string := "FUNDED".
Definition WON_UNPAID : string := "WON_UNPAID".
Definition WON_PAID : string := "WON_PAID".
Definition WON_PAYMENT_FAILED : string := "WON_PAYMENT_FAILED".
Definition LOST : string := "LOST".
Definition CANCELLED_UNPAID : string := "CANCELLED_UNPAID".
Definition CANCELLED_PAID : string := "CANCELLED_PAID".
Definition CANCELLED_PAYMENT_FAILED : string := "CANCELLED_PAYMENT_FAILED".

Definition machine_states : list string :=
  [INITIAL; FUNDED; WON_UNPAID; WON_PAID; WON_PAYMENT_FAILED; LOST;
   CANCELLED_UNPAID; CANCELLED_PAID; CANCELLED_PAYMENT_FAILED].

(** ** Field updates (the [SET] clauses) *)

Definition set_t_state (v : string) (t : Ticket) : Ticket :=
  mkTicket (t_wallet t) (t_competition t) (t_amount t) (t_reward_target t)
    (t_choice t) v (t_reward_msat t) (t_reward_failure t)
    (t_reward_payment_hash t) (t_time t).

Definition set_c_amount_tickets (v : Z) (c : Competition) : Competition :=
  mkCompetition (c_wallet c) (c_register_id c) (c_name c) (c_info c)
    (c_banner c) (c_closing_datetime c) v (c_min_bet c) (c_max_bet c)
    (c_sold c) (c_choices c) (c_winning_choice c) (c_state c) (c_time c).

Definition set_c_closing_datetime (v : string) (c : Competition) : Competition :=
  mkCompetition (c_wallet c) (c_register_id c) (c_name c) (c_info c)
    (c_banner c) v (c_amount_tickets c) (c_min_bet c) (c_max_bet c)
    (c_sold c) (c_choices c) (c_winning_choice c) (c_state c) (c_time c).

Definition set_c_sold (v : Z) (c : Competition) : Competition :=
  mkCompetition (c_wallet c) (c_register_id c) (c_name c) (c_info c)
    (c_banner c) (c_closing_datetime c) (c_amount_tickets c) (c_min_bet c)
    (c_max_bet c) v (c_choices c) (c_winning_choice c) (c_state c) (c_time c).

Definition set_c_choices (v : list Choice) (c : Competition) : Competition :=
  mkCompetition (c_wallet c) (c_register_id c) (c_name c) (c_info c)
    (c_banner c) (c_closing_datetime c) (c_amount_tickets c) (c_min_bet c)
    (c_max_bet c) (c_sold c) v (c_winning_choice c) (c_state c) (c_time c).

Definition set_c_winning_choice (v : Z) (c : Competition) : Competition :=
  mkCompetition (c_wallet c) (c_register_id c) (c_name c) (c_info c)
    (c_banner c) (c_closing_datetime c) (c_amount_tickets c) (c_min_bet c)
    (c_max_bet c) (c_sold c) (c_choices c) v (c_state c) (c_time c).

Definition set_c_state (v : string) (c : Competition) : Competition :=
  mkCompetition (c_wallet c) (c_register_id c) (c_name c) (c_info c)
    (c_banner c) (c_closing_datetime c) (c_amount_tickets c) (c_min_bet c)
    (c_max_bet c) (c_sold c) (c_choices c) (c_winning_choice c) v (c_time c).

Definition set_tickets (m : gmap string Ticket) (s : Store) : Store :=
  mkStore m (competitions s).

Definition set_competitions (m : gmap string Competition) (s : Store) : Store :=
  mkStore (tickets s) m.

(** ** Exceptions and the store monad *)

Inductive Error :=
  | AssertionError (msg : string)   (* a failed [assert] *)
  | IntegrityError                  (* INSERT of an existing PRIMARY KEY *)
  | IndexError                      (* list index out of range *)
  | RetryLimit.                     (* the bound put on a [while True] loop *)

(** A computation runs from a store to the store it leaves behind and either
    the exception it raised or its value. *)
Definition M (A : Type) : Type := Store → Store * (Error + A).

Definition ret {A} (a : A) : M A := λ s, (s, inr a).
Definition raise {A} (e : Error) : M A := λ s, (s, inl e).
Definition bind {A B} (k : A → M B) (m : M A) : M B :=
  λ s, match m s with
       | (s', inl e) => (s', inl e)
       | (s', inr a) => k a s'
       end.

(** stdpp's monad notations: [x ← m; k] and [m;; k]. *)
#[global] Instance M_ret : MRet M := @ret.
#[global] Instance M_bind : MBind M := @bind.

(** [assert v, msg] on an optional row. *)
Definition assert_some {A} (o : option A) (msg : string) : M A :=
  match o with
  | Some a => ret a
  | None => raise (AssertionError msg)
  end.

(** [while True: body], where [body] answers [true] when it reaches [break].
    The loop of the source has no bound; [fuel] bounds the iterations and
    running out of it is the result [RetryLimit]. *)
Fixpoint while_true (fuel : nat) (body : M bool) : M unit :=
  match fuel with
  | O => raise RetryLimit
  | S fuel' => b ← body; if (b : bool) then ret tt else while_true fuel' body
  end.

(** ** SQL statements *)

(** [INSERT INTO bets4sats.tickets ...]: the key must be new. *)
Definition sql_insert_ticket (id : string) (t : Ticket) : M unit :=
  λ s, match tickets s !! id with
       | Some _ => (s, inl IntegrityError)
       | None => (set_tickets (<[id := t]> (tickets s)) s, inr tt)
       end.

(** [INSERT INTO bets4sats.competitions ...]. *)
Definition sql_insert_competition (id : string) (c : Competition) : M unit :=
  λ s, match competitions s !! id with
       | Some _ => (s, inl IntegrityError)
       | None => (set_competitions (<[id := c]> (competitions s)) s, inr tt)
       end.

(** [UPDATE bets4sats.competitions SET ... WHERE id = :id AND cond]: at most
    the row of key [id] matches; the value is the statement's [rowcount]. *)
Definition sql_update_competition (id : string) (cond : Competition → bool)
    (upd : Competition → Competition) : M Z :=
  λ s, match competitions s !! id with
       | Some c =>
           if cond c
           then (set_competitions (<[id := upd c]> (competitions s)) s, inr 1)
           else (s, inr 0)
       | None => (s, inr 0)
       end.

(** [UPDATE bets4sats.tickets SET ... WHERE id = :id AND cond]. *)
Definition sql_update_ticket (id : string) (cond : Ticket → bool)
    (upd : Ticket → Ticket) : M Z :=
  λ s, match tickets s !! id with
       | Some t =>
           if cond t
           then (set_tickets (<[id := upd t]> (tickets s)) s, inr 1)
           else (s, inr 0)
       | None => (s, inr 0)
       end.

(** The rows of [bets4sats.tickets] that satisfy a WHERE clause. *)
Definition tickets_where (cond : Ticket → bool) (m : gmap string Ticket)
    : gmap string Ticket :=
  filter (λ kt : string * Ticket, cond kt.2) m.

(** [UPDATE bets4sats.tickets SET ... WHERE cond] over the whole table. *)
Definition sql_update_tickets_where (cond : Ticket → bool)
    (upd : Ticket → Ticket) : M Z :=
  λ s, (set_tickets ((λ t, if cond t then upd t else t) <$> tickets s) s,
        inr (Z.of_nat (size (tickets_where cond (tickets s))))).

(** [DELETE FROM bets4sats.tickets WHERE cond]. *)
Definition sql_delete_tickets_where (cond : Ticket → bool) : M Z :=
  λ s, (set_tickets (tickets_where (λ t, negb (cond t)) (tickets s)) s,
        inr (Z.of_nat (size (tickets_where cond (tickets s))))).

(** [SELECT ... FROM bets4sats.tickets WHERE cond LIMIT 1] read with
    [fetchone]: some matching row, or [None]. *)
Definition sql_fetchone_ticket_where (cond : Ticket → bool)
    : M (option (string * Ticket)) :=
  λ s, (s, inr (head (map_to_list (tickets_where cond (tickets s))))).

(** ** Point reads *)

Definition get_ticket (ticket_id : string) : M (option Ticket) :=
  λ s, (s, inr (tickets s !! ticket_id)).

Definition get_competition (competition_id : string) : M (option Competition) :=
  λ s, (s, inr (competitions s !! competition_id)).

(** ** Python list indexing *)

(** [l[i]] for a Python integer [i]: a negative index counts from the end,
    an index outside [-len(l) .. len(l)-1] raises IndexError. *)
Definition py_index {A} (l : list A) (i : Z) : option nat :=
  let n := Z.of_nat (length l) in
  if bool_decide (0 ≤ i < n) then Some (Z.to_nat i)
  else if bool_decide (- n ≤ i < 0) then Some (Z.to_nat (n + i))
  else None.

Definition add_total (amount : Z) (ch : Choice) : Choice :=
  mkChoice (title ch) (total ch + amount).

(** [choices[choice]["total"] += amount]. *)
Definition add_to_choice (choices : list Choice) (choice amount : Z)
    : M (list Choice) :=
  match py_index choices choice with
  | Some k => ret (alter (add_total amount) k choices)
  | None => raise IndexError
  end.

(** ** Ticket helpers *)

Definition create_ticket (fuel : nat) (now : Z)
    (ticket_id wallet competition : string) (amount : Z)
    (reward_target : string) (choice : Z) : M Ticket :=
  sql_insert_ticket ticket_id
    (mkTicket wallet competition amount reward_target choice INITIAL 0 "" "" now);;
  while_true fuel (
    competitiondata ← get_competition competition;
    competitiondata ← assert_some competitiondata
      "Couldn't get competition from ticket being created";
    if bool_decide (c_state competitiondata ≠ INITIAL) then ret true
    else
      let amount_tickets := c_amount_tickets competitiondata - 1 in
      rowcount ← sql_update_competition competition
        (λ c, bool_decide (c_amount_tickets c = c_amount_tickets competitiondata)
              && bool_decide (c_state c = INITIAL))
        (set_c_amount_tickets amount_tickets);
      ret (bool_decide (rowcount ≠ 0)));;
  ticket ← get_ticket ticket_id;
  assert_some ticket "Newly created ticket couldn't be retrieved".

(** The WHERE clause of the purge's DELETE. *)
Definition expired (competition_id : string) (purge_time : Z) (t : Ticket)
    : bool :=
  bool_decide (t_competition t = competition_id)
  && bool_decide (t_state t = INITIAL)
  && bool_decide (t_time t < purge_time).

Definition purge_expired_tickets (fuel : nat) (now : Z)
    (competition_id : string) : M unit :=
  let purge_time := now - TICKET_PURGE_TIME in
  deleted ← sql_delete_tickets_where (expired competition_id purge_time);
  if bool_decide (deleted = 0) then ret tt
  else
    while_true fuel (
      competitiondata ← get_competition competition_id;
      competitiondata ← assert_some competitiondata
        "Couldn't get competition data for tickets being purged";
      let amount_tickets := c_amount_tickets competitiondata + deleted in
      rowcount ← sql_update_competition competition_id
        (λ c, bool_decide (c_amount_tickets c = c_amount_tickets competitiondata))
        (set_c_amount_tickets amount_tickets);
      ret (bool_decide (rowcount ≠ 0))).

Definition cas_ticket_state (ticket_id old_state new_state : string) : M bool :=
  rowcount ← sql_update_ticket ticket_id
    (λ t, bool_decide (t_state t = old_state)) (set_t_state new_state);
  ret (bool_decide (rowcount ≠ 0)).

Definition set_ticket_funded (fuel : nat) (ticket_id : string) : M unit :=
  cas_success ← cas_ticket_state ticket_id INITIAL FUNDED;
  if negb cas_success then ret tt
  else
    ticket ← get_ticket ticket_id;
    ticket ← assert_some ticket "Ticket not found after funding";
    while_true fuel (
      competitiondata ← get_competition (t_competition ticket);
      competitiondata ← assert_some competitiondata
        "Couldn't get competition from ticket being paid";
      if bool_decide (c_state competitiondata ≠ INITIAL) then ret true
      else
        let sold := c_sold competitiondata + 1 in
        choices ← add_to_choice (c_choices competitiondata)
                    (t_choice ticket) (t_amount ticket);
        rowcount ← sql_update_competition (t_competition ticket)
          (λ c, bool_decide (c_sold c = c_sold competitiondata)
                && bool_decide (c_state c = INITIAL))
          (λ c, set_c_choices choices (set_c_sold sold c));
        ret (bool_decide (rowcount ≠ 0))).

(** ** The rewriting of string parameters

    [db.execute] belongs to the database layer of LNbits ([lnbits.db]),
    which is not among the sources. Before it runs a statement it rewrites
    every string parameter with [re.sub]: every match of the pattern
    [<.*?>|&([a-z0-9]+|#[0-9]{1,6}|#x[0-9a-f]{1,6});] is replaced by the
    empty string, so that tags and character entities are removed.
    [create_competition] is the
    operation whose result is read against the text it was given, and the
    rewriting is applied there; in the other operations a string argument
    stands for the value the statement runs with.

    The text of a parameter is a list of symbols. In a plain string every
    symbol is a character. In the JSON text of the choices,
    [json.dumps([{"title": t, "total": 0}, ...])], a character of a title
    stands as it is or, where [json.dumps] escapes it, as an escape
    sequence (a backslash and letters or digits); the text between two
    titles, and before the first and after the last, holds none of the
    characters [<], [>], [&], [;] and no line break. *)
Inductive Sym :=
  | Chr (a : ascii)     (* a character standing as it is *)
  | Esc (a : ascii)     (* a character standing as an escape sequence *)
  | Between.            (* the text between two titles *)

Definition is_chr (a : ascii) (x : Sym) : bool :=
  match x with
  | Chr b => bool_decide (b = a)
  | _ => false
  end.

Definition in_range (lo hi : nat) (x : Sym) : bool :=
  match x with
  | Chr b => (lo <=? nat_of_ascii b)%nat && (nat_of_ascii b <=? hi)%nat
  | _ => false
  end.

(** The classes [0-9], [a-z0-9] and [0-9a-f]. *)
Definition digit (x : Sym) : bool := in_range 48 57 x.
Definition lower_alnum (x : Sym) : bool := in_range 97 122 x || digit x.
Definition lower_hex (x : Sym) : bool := digit x || in_range 97 102 x.

(** [.*?>] matches at the head of [l]: a [>] comes before any line break
    ([.] matches every character but the line break). *)
Fixpoint closes (l : list Sym) : bool :=
  match l with
  | [] => false
  | x :: rest =>
      if is_chr ">" x then true
      else if is_chr "010" x then false
      else closes rest
  end.

(** The length of the longest head of [l] in the class [p]. *)
Fixpoint run (p : Sym → bool) (l : list Sym) : nat :=
  match l with
  | x :: rest => if p x then S (run p rest) else O
  | [] => O
  end.

Definition ends (n : nat) (l : list Sym) : bool :=
  match l !! n with
  | Some x => is_chr ";" x
  | None => false
  end.

(** [([a-z0-9]+|#[0-9]{1,6}|#x[0-9a-f]{1,6});] matches at the head of [l]:
    the number of symbols matched. A repetition takes the longest run, and a
    shorter one would not be followed by [;] either. *)
Definition entity (l : list Sym) : option nat :=
  let n := run lower_alnum l in
  if (1 <=? n)%nat && ends n l then Some (S n)
  else
    match l with
    | x :: rest =>
        if is_chr "#" x then
          let d := run digit rest in
          if (1 <=? d)%nat && (d <=? 6)%nat && ends d rest then Some (d + 2)%nat
          else
            match rest with
            | y :: rest' =>
                if is_chr "x" y then
                  let h := run lower_hex rest' in
                  if (1 <=? h)%nat && (h <=? 6)%nat && ends h rest'
                  then Some (h + 3)%nat else None
                else None
            | [] => None
            end
        else None
    | [] => None
    end.

(** [re.sub] of the pattern, from left to right: [Drop n] removes the
    next [n] symbols (the rest of an entity) and then looks for the next
    match, [InTag] removes up to the closing [>]. *)
Inductive Scan := Drop (n : nat) | InTag.

Fixpoint scan (st : Scan) (l : list Sym) : list Sym :=
  match l with
  | [] => []
  | x :: rest =>
      match st with
      | InTag => if is_chr ">" x then scan (Drop 0) rest else scan InTag rest
      | Drop (S n) => scan (Drop n) rest
      | Drop O =>
          if is_chr "<" x && closes rest then scan InTag rest
          else if is_chr "&" x then
            match entity rest with
            | Some n => scan (Drop n) rest
            | None => x :: scan (Drop 0) rest
            end
          else x :: scan (Drop 0) rest
      end
  end.

Definition sym_char (x : Sym) : option ascii :=
  match x with
  | Chr a | Esc a => Some a
  | Between => None
  end.

Definition string_of_syms (l : list Sym) : string :=
  String.string_of_list_ascii (omap sym_char l).

(** The rewriting of a plain string parameter. *)
Definition cleanhtml (raw_html : string) : string :=
  string_of_syms (scan (Drop 0) (Chr <$> String.list_ascii_of_string raw_html)).

(** The characters [json.dumps] writes as an escape sequence: the double
    quote, the backslash and every character outside the range from the
    space to the tilde. *)
Definition json_escaped (a : ascii) : bool :=
  (nat_of_ascii a =? 34)%nat || (nat_of_ascii a =? 92)%nat
  || (nat_of_ascii a <? 32)%nat || (126 <? nat_of_ascii a)%nat.

Definition title_syms (t : string) : list Sym :=
  (λ a, if json_escaped a then Esc a else Chr a)
    <$> String.list_ascii_of_string t.

(** The titles in the JSON text, one after the other. *)
Fixpoint between (titles : list (list Sym)) : list Sym :=
  match titles with
  | [] => []
  | [t] => t
  | t :: rest => t ++ Between :: between rest
  end.

(** The titles [json.loads] reads back from a text. *)
Fixpoint split_between (l : list Sym) : list (list Sym) :=
  match l with
  | [] => [[]]
  | Between :: rest => [] :: split_between rest
  | x :: rest =>
      match split_between rest with
      | t :: ts => (x :: t) :: ts
      | [] => [[x]]
      end
  end.

(** The titles of the choices that are stored, and later read, when the
    JSON text of choices with the titles [titles] is the parameter: a tag
    that opens in one title and closes in a later one takes the choices in
    between with it. *)
Definition stored_titles (titles : list string) : list string :=
  match titles with
  | [] => []
  | _ => string_of_syms
           <$> split_between (scan (Drop 0) (between (title_syms <$> titles)))
  end.

(** A title holds a [<] or a [&], the characters a match starts with. *)
Definition has_markup (t : string) : bool :=
  existsb (λ a, bool_decide (a = "<"%char) || bool_decide (a = "&"%char))
    (String.list_ascii_of_string t).

(** ** Competition helpers *)

(** [competition_id] and [register_id] are the values drawn by
    [urlsafe_short_hash()] and [shortuuid.random()], which hold no markup;
    the id, which is the key of the row and not one of its fields, is
    returned with the row. The string parameters of the INSERT are
    rewritten before the row is written: the plain ones by [cleanhtml],
    and of [choices_json], the JSON text that pairs each title with total
    0, the choices with the titles [stored_titles] are what the row
    holds. *)
Definition create_competition (competition_id register_id : string) (now : Z)
    (data : CreateCompetition) : M (string * Competition) :=
  let choices_json :=
    (λ choice_title, mkChoice choice_title 0)
      <$> stored_titles (cc_choices data) in
  sql_insert_competition competition_id
    (mkCompetition (cleanhtml (cc_wallet data)) register_id
       (cleanhtml (cc_name data)) (cleanhtml (cc_info data))
       (cleanhtml (cc_banner data)) (cleanhtml (cc_closing_datetime data))
       (cc_amount_tickets data)
       (cc_min_bet data) (cc_max_bet data) 0 choices_json (-1) INITIAL now);;
  competition ← get_competition competition_id;
  competition ← assert_some competition
    "Newly created competition couldn't be retrieved";
  ret (competition_id, competition).

(** The setters collected by [update_competition], in the source's order. *)
Definition update_setters (data : UpdateCompetition)
    : list (Competition → Competition) :=
  match uc_amount_tickets data with
  | Some v => [set_c_amount_tickets v]
  | None => []
  end ++
  match uc_closing_datetime data with
  | Some v => [set_c_closing_datetime v]
  | None => []
  end.

Definition apply_setters (setters : list (Competition → Competition))
    (c : Competition) : Competition :=
  foldl (λ acc f, f acc) c setters.

Definition update_competition (competition_id : string)
    (data : UpdateCompetition) : M (option Competition) :=
  let setters := update_setters data in
  if bool_decide (setters = []) then get_competition competition_id
  else
    rowcount ← sql_update_competition competition_id
      (λ c, bool_decide (c_state c = INITIAL)) (apply_setters setters);
    if bool_decide (rowcount = 0) then ret None
    else get_competition competition_id.

Definition cas_competition_state (competition_id old_state new_state : string)
    : M bool :=
  rowcount ← sql_update_competition competition_id
    (λ c, bool_decide (c_state c = old_state)) (set_c_state new_state);
  ret (bool_decide (rowcount ≠ 0)).

Definition set_winning_choice (competition_id : string) (winning_choice : Z)
    : M unit :=
  sql_update_competition competition_id (λ _, true)
    (set_c_winning_choice winning_choice);;
  ret tt.

(** The WHERE clauses of the settlement's ticket updates. *)
Definition funded_in (competition_id : string) (t : Ticket) : bool :=
  bool_decide (t_competition t = competition_id)
  && bool_decide (t_state t = FUNDED).

Definition update_competition_winners (competition_id : string)
    (choices : list Choice) (winning_choice : Z) : M unit :=
  sql_update_competition competition_id (λ _, true)
    (λ c, set_c_winning_choice winning_choice (set_c_choices choices c));;
  if bool_decide (winning_choice < 0) then
    sql_update_tickets_where (funded_in competition_id)
      (set_t_state CANCELLED_UNPAID);;
    ret tt
  else
    sql_update_tickets_where
      (λ t, funded_in competition_id t
            && bool_decide (t_choice t = winning_choice))
      (set_t_state WON_UNPAID);;
    sql_update_tickets_where
      (λ t, funded_in competition_id t
            && bool_decide (t_choice t ≠ winning_choice))
      (set_t_state LOST);;
    ret tt.

(** ** Helper queries for background tasks *)

Definition payment_final_states : list string :=
  [CANCELLED_PAID; CANCELLED_PAYMENT_FAILED; WON_PAID; WON_PAYMENT_FAILED; LOST].

(** The WHERE clause of [is_competition_payment_complete]. *)
Definition payment_pending (competition_id : string) (t : Ticket) : bool :=
  bool_decide (t_competition t = competition_id)
  && bool_decide (t_state t ∉ payment_final_states).

Definition is_competition_payment_complete (competition_id : string) : M bool :=
  row ← sql_fetchone_ticket_where (payment_pending competition_id);
  ret (negb (bool_decide (is_Some row))).

(** ** Sequential runs *)

(** Sequential repetition of one call. *)
Fixpoint repeat_call (n : nat) (m : M unit) : M unit :=
  match n with
  | O => ret tt
  | S n' => m;; repeat_call n' m
  end.

(** ** State classes used in the statements *)

(** The states from which a ticket still has a transition to make. *)
Definition non_terminal_states : list string :=
  [INITIAL; FUNDED; WON_UNPAID; CANCELLED_UNPAID].

(** The tickets of a competition that are in a given state, and their
    number. *)
Definition in_state (competition_id st : string) (t : Ticket) : bool :=
  bool_decide (t_competition t = competition_id)
  && bool_decide (t_state t = st).

Definition count_in_state (competition_id st : string)
    (m : gmap string Ticket) : nat :=
  size (tickets_where (in_state competition_id st) m).

(** The number of tickets that are in state [st] in the table [after] and
    were FUNDED tickets of the competition in the table [before]. *)
Definition count_resolved (competition_id st : string)
    (before after : gmap string Ticket) : nat :=
  size (filter (λ kt : string * Ticket,
                  t_state kt.2 = st
                  ∧ funded_in competition_id <$> before !! kt.1 = Some true)
          after).

(** ** The settlement, statement by statement *)

(** What the ticket updates of [update_competition_winners] do to one row. *)
Definition settle (competition_id : string) (winning_choice : Z) (t : Ticket)
    : Ticket :=
  if funded_in competition_id t then
    set_t_state
      (if bool_decide (winning_choice < 0) then CANCELLED_UNPAID
       else if bool_decide (t_choice t = winning_choice) then WON_UNPAID
       else LOST) t
  else t.

(** The statements [update_competition_winners] executes, in order. *)
Definition update_competition_winners_statements (competition_id : string)
    (choices : list Choice) (winning_choice : Z) : list (M Z) :=
  sql_update_competition competition_id (λ _, true)
    (λ c, set_c_winning_choice winning_choice (set_c_choices choices c))
  :: if bool_decide (winning_choice < 0) then
       [sql_update_tickets_where (funded_in competition_id)
          (set_t_state CANCELLED_UNPAID)]
     else
       [sql_update_tickets_where
          (λ t, funded_in competition_id t
                && bool_decide (t_choice t = winning_choice))
          (set_t_state WON_UNPAID);
        sql_update_tickets_where
          (λ t, funded_in competition_id t
                && bool_decide (t_choice t ≠ winning_choice))
          (set_t_state LOST)].

Definition run_statements (l : list (M Z)) : M unit :=
  foldr (λ statement rest, statement;; rest) (ret tt) l.

(** The store left by a run that stopped after its first [n] statements. *)
Definition stopped_after (n : nat) (l : list (M Z)) (s : Store) : Store :=
  fst (run_statements (take n l) s).

(** ** The operations of the core, as data *)

Inductive Op :=
  | OpCreateTicket (fuel : nat) (now : Z) (ticket_id wallet competition : string)
      (amount : Z) (reward_target : string) (choice : Z)
  | OpSetTicketFunded (fuel : nat) (ticket_id : string)
  | OpPurgeExpiredTickets (fuel : nat) (now : Z) (competition_id : string)
  | OpUpdateCompetition (competition_id : string) (data : UpdateCompetition)
  | OpUpdateCompetitionWinners (competition_id : string) (choices : list Choice)
      (winning_choice : Z)
  | OpSetWinningChoice (competition_id : string) (winning_choice : Z).

(** The store an operation leaves, whether it returned or raised. *)
Definition run_op (o : Op) (s : Store) : Store :=
  match o with
  | OpCreateTicket fuel now ticket_id wallet competition amount reward_target
      choice =>
      fst (create_ticket fuel now ticket_id wallet competition amount
             reward_target choice s)
  | OpSetTicketFunded fuel ticket_id => fst (set_ticket_funded fuel ticket_id s)
  | OpPurgeExpiredTickets fuel now competition_id =>
      fst (purge_expired_tickets fuel now competition_id s)
  | OpUpdateCompetition competition_id data =>
      fst (update_competition competition_id data s)
  | OpUpdateCompetitionWinners competition_id choices winning_choice =>
      fst (update_competition_winners competition_id choices winning_choice s)
  | OpSetWinningChoice competition_id winning_choice =>
      fst (set_winning_choice competition_id winning_choice s)
  end.

(** A computation keeps a property of the store, on every path. *)
Definition preserves {A} (I : Store → Prop) (m : M A) : Prop :=
  ∀ s, I s → I (fst (m s)).

(** ** Runs of create_ticket calls *)

(** The arguments of one [create_ticket] call. *)
Record TicketRequest := mkTicketRequest {
  tr_ticket_id : string;
  tr_wallet : string;
  tr_competition : string;
  tr_amount : Z;
  tr_reward_target : string;
  tr_choice : Z
}.

Definition create_ticket_for (fuel : nat) (now : Z) (r : TicketRequest)
    : M Ticket :=
  create_ticket fuel now (tr_ticket_id r) (tr_wallet r) (tr_competition r)
    (tr_amount r) (tr_reward_target r) (tr_choice r).

(** The calls one after the other, each awaited before the next starts. *)
Definition create_tickets (fuel : nat) (now : Z) (requests : list TicketRequest)
    : M unit :=
  foldr (λ r rest, create_ticket_for fuel now r;; rest) (ret tt) requests.

(** The row a call inserts. *)
Definition new_ticket (now : Z) (r : TicketRequest) : Ticket :=
  mkTicket (tr_wallet r) (tr_competition r) (tr_amount r) (tr_reward_target r)
    (tr_choice r) INITIAL 0 "" "" now.

(** *** Interleaved calls

    A coroutine gives up control only at an [await]; every [await] of
    [create_ticket] is one statement on the store. A call is therefore a
    small machine whose steps are these statements, and concurrent calls
    are an interleaving of such steps. *)

(** Where a [create_ticket] call stands. *)
Inductive CallPoint :=
  | AtInsert                               (* before the INSERT *)
  | AtRead                                 (* before [get_competition] *)
  | AtUpdate (competitiondata : Competition) (* before the UPDATE *)
  | AtFetch                                (* loop left, before [get_ticket] *)
  | Finished (result : Error + Ticket).

Record Call := mkCall {
  k_now : Z;
  k_request : TicketRequest;
  k_point : CallPoint;
  (* how many of this call's UPDATEs matched a row *)
  k_applied : nat
}.

Definition start_call (now : Z) (r : TicketRequest) : Call :=
  mkCall now r AtInsert 0.

Definition at_point (p : CallPoint) (k : Call) : Call :=
  mkCall (k_now k) (k_request k) p (k_applied k).

Definition applied_once (k : Call) : Call :=
  mkCall (k_now k) (k_request k) AtFetch (S (k_applied k)).

(** One statement of the call [k], from the control point it stands at. *)
Definition step_call (k : Call) (s : Store) : Store * Call :=
  let r := k_request k in
  match k_point k with
  | AtInsert =>
      match sql_insert_ticket (tr_ticket_id r)
              (mkTicket (tr_wallet r) (tr_competition r) (tr_amount r)
                 (tr_reward_target r) (tr_choice r) INITIAL 0 "" "" (k_now k)) s
      with
      | (s', inl e) => (s', at_point (Finished (inl e)) k)
      | (s', inr _) => (s', at_point AtRead k)
      end
  | AtRead =>
      match (competitiondata ← get_competition (tr_competition r);
             assert_some competitiondata
               "Couldn't get competition from ticket being created") s
      with
      | (s', inl e) => (s', at_point (Finished (inl e)) k)
      | (s', inr competitiondata) =>
          if bool_decide (c_state competitiondata ≠ INITIAL)
          then (s', at_point AtFetch k)
          else (s', at_point (AtUpdate competitiondata) k)
      end
  | AtUpdate competitiondata =>
      let amount_tickets := c_amount_tickets competitiondata - 1 in
      match sql_update_competition (tr_competition r)
              (λ c, bool_decide (c_amount_tickets c
                                 = c_amount_tickets competitiondata)
                    && bool_decide (c_state c = INITIAL))
              (set_c_amount_tickets amount_tickets) s
      with
      | (s', inl e) => (s', at_point (Finished (inl e)) k)
      | (s', inr rowcount) =>
          if bool_decide (rowcount ≠ 0)
          then (s', applied_once k)
          else (s', at_point AtRead k)
      end
  | AtFetch =>
      match (ticket ← get_ticket (tr_ticket_id r);
             assert_some ticket
               "Newly created ticket couldn't be retrieved") s
      with
      | (s', inl e) => (s', at_point (Finished (inl e)) k)
      | (s', inr ticket) => (s', at_point (Finished (inr ticket)) k)
      end
  | Finished _ => (s, k)
  end.

(** The call alone on the store, for [n] statements. *)
Fixpoint steps_alone (n : nat) (k : Call) (s : Store) : Store * Call :=
  match n with
  | O => (s, k)
  | S n' => let '(s', k') := step_call k s in steps_alone n' k' s'
  end.

(** Concurrent calls: the scheduler picks the call that runs its next
    statement; a schedule is the list of its picks. *)
Definition step_at (i : nat) (σ : Store * list Call) : Store * list Call :=
  match σ.2 !! i with
  | Some k => let '(s', k') := step_call k σ.1 in (s', <[i := k']> σ.2)
  | None => σ
  end.

Definition run_schedule (schedule : list nat) (σ : Store * list Call)
    : Store * list Call :=
  foldl (λ σ i, step_at i σ) σ schedule.

(** The decrements of [amount_tickets] of a competition applied so far. *)
Definition decrements_applied (competition_id : string) (ks : list Call) : nat :=
  sum_list ((λ k, if bool_decide (tr_competition (k_request k) = competition_id)
                  then k_applied k else 0%nat) <$> ks).

(** The share of one call in [decrements_applied]. *)
Definition decrement_of (competition_id : string) (k : Call) : nat :=
  if bool_decide (tr_competition (k_request k) = competition_id)
  then k_applied k else 0%nat.

(** What a call on the competition has applied, by control point: nothing
    before its UPDATE matched, one decrement after. *)
Definition call_consistent (competition_id : string) (k : Call) : Prop :=
  tr_competition (k_request k) = competition_id →
  match k_point k with
  | AtInsert | AtRead | AtUpdate _ => k_applied k = 0%nat
  | AtFetch | Finished (inr _) => k_applied k = 1%nat
  | Finished (inl _) => (k_applied k ≤ 1)%nat
  end.

(** The competition row of capacity [c] after the decrements applied by
    the calls, and every call consistent. *)
Definition inventory_invariant (competition_id : string) (c : Competition)
    (σ : Store * list Call) : Prop :=
  competitions σ.1 !! competition_id
  = Some (set_c_amount_tickets
            (c_amount_tickets c
             - Z.of_nat (decrements_applied competition_id σ.2)) c)
  ∧ Forall (call_consistent competition_id) σ.2.

(** ** The other helpers of [crud.py] *)

(** [DELETE FROM bets4sats.tickets WHERE id = :id]. *)
Definition sql_delete_ticket (id : string) : M Z :=
  λ s, (set_tickets (delete id (tickets s)) s,
        inr (if tickets s !! id is Some _ then 1 else 0)).

(** [DELETE FROM bets4sats.competitions WHERE id = :id]. *)
Definition sql_delete_competition (id : string) : M Z :=
  λ s, (set_competitions (delete id (competitions s)) s,
        inr (if competitions s !! id is Some _ then 1 else 0)).

(** [SELECT * FROM bets4sats.tickets WHERE cond] read with [fetchall]: the
    matching rows, each with its id, in the order the store yields them. *)
Definition sql_fetchall_tickets_where (cond : Ticket → bool)
    : M (list (string * Ticket)) :=
  λ s, (s, inr (map_to_list (tickets_where cond (tickets s)))).

Definition delete_ticket (ticket_id : string) : M unit :=
  sql_delete_ticket ticket_id;; ret tt.

Definition delete_competition_tickets (competition_id : string) : M unit :=
  sql_delete_tickets_where (λ t, bool_decide (t_competition t = competition_id));;
  ret tt.

Definition delete_competition (competition_id : string) : M unit :=
  sql_delete_competition competition_id;; ret tt.

Definition get_wallet_competition_tickets (competition_id : string)
    : M (list (string * Ticket)) :=
  sql_fetchall_tickets_where (λ t, bool_decide (t_competition t = competition_id)).

(** [get_state_competition_tickets] writes each state between single quotes
    into the text of its statement. For states that hold no single quote
    the text reads [state IN ('a','b',...)], which is what the model below
    selects by; a state that holds one changes the statement itself, and
    the model says nothing of it. *)
Fixpoint has_quote (st : string) : bool :=
  match st with
  | EmptyString => false
  | String a st' => bool_decide (String a EmptyString = "'") || has_quote st'
  end.

Definition get_state_competition_tickets (competition_id : string)
    (states : list string) : M (list (string * Ticket)) :=
  if bool_decide (states = []) then
    raise (AssertionError "get_state_competition_tickets called with no states")
  else
    sql_fetchall_tickets_where
      (λ t, bool_decide (t_competition t = competition_id)
            && bool_decide (t_state t ∈ states)).

(** A row of [SELECT choice, SUM(amount) AS amount_sum ... GROUP BY choice];
    the class [ChoiceAmountSum] of [models.py] is built from these two
    columns. *)
Record ChoiceAmountSum := mkChoiceAmountSum {
  choice : Z;
  amount_sum : Z
}.

(** [GROUP BY choice] with [SUM(amount)]: one group per value of [choice]
    among the rows. *)
Definition group_amounts (rows : list (string * Ticket)) : gmap Z Z :=
  foldr (λ kt groups,
           <[t_choice kt.2 :=
               t_amount kt.2 + default 0 (groups !! t_choice kt.2)]> groups)
    ∅ rows.

Definition sum_choices_amounts (competition_id : string)
    : M (list ChoiceAmountSum) :=
  rows ← sql_fetchall_tickets_where
           (λ t, bool_decide (t_competition t = competition_id));
  ret ((λ g : Z * Z, mkChoiceAmountSum g.1 g.2)
         <$> map_to_list (group_amounts rows)).

(** ** Notions used in the further properties *)

(** The transitions of a ticket's state that the operations make. *)
Definition state_edge (a b : string) : Prop :=
  a = INITIAL ∧ b = FUNDED
  ∨ a = FUNDED ∧ (b = WON_UNPAID ∨ b = LOST ∨ b = CANCELLED_UNPAID).

(** The tickets of a competition, whatever their state, and their number. *)
Definition of_competition (competition_id : string) (t : Ticket) : bool :=
  bool_decide (t_competition t = competition_id).

Definition count_tickets (competition_id : string) (m : gmap string Ticket)
    : nat :=
  size (tickets_where (of_competition competition_id) m).

(** The tickets of a competition that have been funded (that have left
    INITIAL), and their number. *)
Definition funded_once (competition_id : string) (t : Ticket) : bool :=
  bool_decide (t_competition t = competition_id)
  && bool_decide (t_state t ≠ INITIAL).

Definition count_funded_once (competition_id : string)
    (m : gmap string Ticket) : nat :=
  size (tickets_where (funded_once competition_id) m).

(** The sum of a list of amounts. *)
Definition sum_amounts (l : list Z) : Z := foldr Z.add 0 l.

(** Sequential execution of operations, each from the store the one before
    left (whether it returned or raised). *)
Definition run_ops (ops : list Op) (s : Store) : Store :=
  foldl (λ s o, run_op o s) s ops.

(** The operations under which the inventory of a competition is accounted
    for: a purchase or a purge whose retry loop may run, and no direct
    assignment of amount_tickets. *)
Definition keeps_inventory (o : Op) : Prop :=
  match o with
  | OpCreateTicket fuel _ _ _ _ _ _ _ => (0 < fuel)%nat
  | OpPurgeExpiredTickets fuel _ _ => (0 < fuel)%nat
  | OpUpdateCompetition _ data => uc_amount_tickets data = None
  | _ => True
  end.

(** The inventory of an INITIAL competition: what is left to buy plus the
    tickets that exist is [K]. *)
Definition inventory_balanced (competition_id : string) (K : Z) (s : Store)
    : Prop :=
  ∃ c, competitions s !! competition_id = Some c
       ∧ c_state c = INITIAL
       ∧ c_amount_tickets c
         + Z.of_nat (count_tickets competition_id (tickets s)) = K.

(** The stakes of the tickets of a competition that have been funded. *)
Definition staked (competition_id : string) (m : gmap string Ticket) : Z :=
  sum_amounts ((λ kt : string * Ticket, t_amount kt.2)
                 <$> map_to_list (tickets_where (funded_once competition_id) m)).

(** The pool of a competition: the sum of the totals of its choices. *)
Definition pool (c : Competition) : Z := sum_amounts (total <$> c_choices c).



(** The tickets of a competition placed on one choice, in any state, and
    the sum of their stakes. *)
Definition with_choice (competition_id : string) (ch : Z) (t : Ticket) : bool :=
  bool_decide (t_competition t = competition_id)
  && bool_decide (t_choice t = ch).

Definition stakes_on (competition_id : string) (ch : Z)
    (m : gmap string Ticket) : Z :=
  sum_amounts ((λ kt : string * Ticket, t_amount kt.2)
                 <$> map_to_list (tickets_where (with_choice competition_id ch) m)).

(** *** Interleaved funding calls

    [set_ticket_funded] as a machine whose steps are its awaited
    statements, as for [create_ticket]. *)

(** Where a [set_ticket_funded] call stands. *)
Inductive FundPoint :=
  | AtCas                                  (* before [cas_ticket_state] *)
  | AtTicket                               (* CAS matched, before [get_ticket] *)
  | AtCompetition (ticket : Ticket)        (* before [get_competition] *)
  | AtFold (ticket : Ticket) (competitiondata : Competition)
      (choices : list Choice)              (* before the UPDATE *)
  | Funded (result : Error + unit).

Record FundCall := mkFundCall {
  f_ticket_id : string;
  f_point : FundPoint;
  (* how many times this call's CAS on the ticket matched *)
  f_won : nat;
  (* how many of this call's UPDATEs of the competition matched a row *)
  f_folded : nat
}.

Definition start_fund (ticket_id : string) : FundCall :=
  mkFundCall ticket_id AtCas 0 0.

Definition fund_at (p : FundPoint) (k : FundCall) : FundCall :=
  mkFundCall (f_ticket_id k) p (f_won k) (f_folded k).

Definition fund_won (k : FundCall) : FundCall :=
  mkFundCall (f_ticket_id k) AtTicket (S (f_won k)) (f_folded k).

Definition fund_folded (k : FundCall) : FundCall :=
  mkFundCall (f_ticket_id k) (Funded (inr tt)) (f_won k) (S (f_folded k)).

(** One statement of the funding call [k]. *)
Definition step_fund (k : FundCall) (s : Store) : Store * FundCall :=
  match f_point k with
  | AtCas =>
      match cas_ticket_state (f_ticket_id k) INITIAL FUNDED s with
      | (s', inl e) => (s', fund_at (Funded (inl e)) k)
      | (s', inr cas_success) =>
          if negb cas_success then (s', fund_at (Funded (inr tt)) k)
          else (s', fund_won k)
      end
  | AtTicket =>
      match (ticket ← get_ticket (f_ticket_id k);
             assert_some ticket "Ticket not found after funding") s
      with
      | (s', inl e) => (s', fund_at (Funded (inl e)) k)
      | (s', inr ticket) => (s', fund_at (AtCompetition ticket) k)
      end
  | AtCompetition ticket =>
      match (competitiondata ← get_competition (t_competition ticket);
             competitiondata ← assert_some competitiondata
               "Couldn't get competition from ticket being paid";
             if bool_decide (c_state competitiondata ≠ INITIAL)
             then ret None
             else
               choices ← add_to_choice (c_choices competitiondata)
                           (t_choice ticket) (t_amount ticket);
               ret (Some (competitiondata, choices))) s
      with
      | (s', inl e) => (s', fund_at (Funded (inl e)) k)
      | (s', inr None) => (s', fund_at (Funded (inr tt)) k)
      | (s', inr (Some (competitiondata, choices))) =>
          (s', fund_at (AtFold ticket competitiondata choices) k)
      end
  | AtFold ticket competitiondata choices =>
      let sold := c_sold competitiondata + 1 in
      match sql_update_competition (t_competition ticket)
              (λ c, bool_decide (c_sold c = c_sold competitiondata)
                    && bool_decide (c_state c = INITIAL))
              (λ c, set_c_choices choices (set_c_sold sold c)) s
      with
      | (s', inl e) => (s', fund_at (Funded (inl e)) k)
      | (s', inr rowcount) =>
          if bool_decide (rowcount ≠ 0)
          then (s', fund_folded k)
          else (s', fund_at (AtCompetition ticket) k)
      end
  | Funded _ => (s, k)
  end.

(** The funding call alone on the store, for [n] statements. *)
Fixpoint fund_steps_alone (n : nat) (k : FundCall) (s : Store)
    : Store * FundCall :=
  match n with
  | O => (s, k)
  | S n' => let '(s', k') := step_fund k s in fund_steps_alone n' k' s'
  end.

Definition fund_step_at (i : nat) (σ : Store * list FundCall)
    : Store * list FundCall :=
  match σ.2 !! i with
  | Some k => let '(s', k') := step_fund k σ.1 in (s', <[i := k']> σ.2)
  | None => σ
  end.

Definition run_fund_schedule (schedule : list nat) (σ : Store * list FundCall)
    : Store * list FundCall :=
  foldl (λ σ i, fund_step_at i σ) σ schedule.

(** Over the calls for the ticket [x]: the CASes that matched, and the
    folds that were applied. *)
Definition wins_on (x : string) (ks : list FundCall) : nat :=
  sum_list ((λ k, if bool_decide (f_ticket_id k = x) then f_won k else 0%nat)
              <$> ks).

Definition folds_on (x : string) (ks : list FundCall) : nat :=
  sum_list ((λ k, if bool_decide (f_ticket_id k = x) then f_folded k else 0%nat)
              <$> ks).

(** The stake a call is about, when its ticket is a ticket of the
    competition in the ticket table [T0] the calls started from. *)
Definition call_stake (competition_id : string) (T0 : gmap string Ticket)
    (k : FundCall) : option Z :=
  match T0 !! f_ticket_id k with
  | Some t =>
      if bool_decide (t_competition t = competition_id)
      then Some (t_amount t) else None
  | None => None
  end.

(** Over the calls for tickets of the competition: the CASes that matched
    and the folds that were applied, counted and weighted by the stake. *)
Definition wins_for (competition_id : string) (T0 : gmap string Ticket)
    (ks : list FundCall) : nat :=
  sum_list ((λ k, match call_stake competition_id T0 k with
                  | Some _ => f_won k
                  | None => 0%nat
                  end) <$> ks).

Definition folds_for (competition_id : string) (T0 : gmap string Ticket)
    (ks : list FundCall) : nat :=
  sum_list ((λ k, match call_stake competition_id T0 k with
                  | Some _ => f_folded k
                  | None => 0%nat
                  end) <$> ks).

Definition won_stakes (competition_id : string) (T0 : gmap string Ticket)
    (ks : list FundCall) : Z :=
  sum_amounts ((λ k, match call_stake competition_id T0 k with
                     | Some a => Z.of_nat (f_won k) * a
                     | None => 0
                     end) <$> ks).

Definition folded_stakes (competition_id : string) (T0 : gmap string Ticket)
    (ks : list FundCall) : Z :=
  sum_amounts ((λ k, match call_stake competition_id T0 k with
                     | Some a => Z.of_nat (f_folded k) * a
                     | None => 0
                     end) <$> ks).

(** What a funding call has done, by control point, for the ticket table
    [T0] the calls started from. A call that is over for a ticket of the
    competition has folded the ticket if its CAS matched. *)
Definition fund_consistent (competition_id : string)
    (T0 : gmap string Ticket) (k : FundCall) : Prop :=
  match f_point k with
  | AtCas => f_won k = 0%nat ∧ f_folded k = 0%nat
  | AtTicket => f_won k = 1%nat ∧ f_folded k = 0%nat
  | AtCompetition t =>
      f_won k = 1%nat ∧ f_folded k = 0%nat
      ∧ ∃ t0, T0 !! f_ticket_id k = Some t0 ∧ t_state t0 = INITIAL
              ∧ t = set_t_state FUNDED t0
  | AtFold t competitiondata choices =>
      f_won k = 1%nat ∧ f_folded k = 0%nat
      ∧ (∃ t0, T0 !! f_ticket_id k = Some t0 ∧ t_state t0 = INITIAL
               ∧ t = set_t_state FUNDED t0)
      ∧ ∃ j, py_index (c_choices competitiondata) (t_choice t) = Some j
             ∧ choices = alter (add_total (t_amount t)) j
                           (c_choices competitiondata)
  | Funded _ =>
      (f_won k ≤ 1)%nat ∧ (f_folded k ≤ f_won k)%nat
      ∧ (is_Some (call_stake competition_id T0 k) → f_folded k = f_won k)
  end.

(** The row a call read before its UPDATE, against the row [c] that is in
    the store now: sold only grows, and while it is what the call read the
    choices are what the call read. *)
Definition fold_fresh (competition_id : string) (c : Competition)
    (k : FundCall) : Prop :=
  match f_point k with
  | AtFold t competitiondata _ =>
      t_competition t = competition_id →
      c_sold competitiondata ≤ c_sold c
      ∧ (c_sold competitiondata = c_sold c →
         c_choices competitiondata = c_choices c)
  | _ => True
  end.

(** The ticket [x] after the calls so far: FUNDED if it was INITIAL and a
    CAS on it matched, as in [T0] otherwise. *)
Definition ticket_after (T0 : gmap string Ticket) (ks : list FundCall)
    (x : string) : option Ticket :=
  (λ t, if bool_decide (t_state t = INITIAL) && bool_decide (wins_on x ks ≠ 0%nat)
        then set_t_state FUNDED t else t) <$> T0 !! x.

(** The store and the calls, against the competition row [c0] and the
    ticket table [T0] the calls started from. *)
Definition fund_invariant (competition_id : string) (c0 : Competition)
    (T0 : gmap string Ticket) (σ : Store * list FundCall) : Prop :=
  (∃ c, competitions σ.1 !! competition_id = Some c
        ∧ c_state c = INITIAL
        ∧ length (c_choices c) = length (c_choices c0)
        ∧ c_sold c = c_sold c0 + Z.of_nat (folds_for competition_id T0 σ.2)
        ∧ pool c = pool c0 + folded_stakes competition_id T0 σ.2
        ∧ Forall (fold_fresh competition_id c) σ.2)
  ∧ (∀ x, tickets σ.1 !! x = ticket_after T0 σ.2 x)
  ∧ (∀ x, (wins_on x σ.2 ≤ 1)%nat
          ∧ (wins_on x σ.2 ≠ 0%nat →
             ∃ t, T0 !! x = Some t ∧ t_state t = INITIAL))
  ∧ count_funded_once competition_id (tickets σ.1)
    = (count_funded_once competition_id T0 + wins_for competition_id T0 σ.2)%nat
  ∧ staked competition_id (tickets σ.1)
    = staked competition_id T0 + won_stakes competition_id T0 σ.2
  ∧ Forall (fund_consistent competition_id T0) σ.2.




(** The number of places between two titles in a text. *)
Fixpoint betweens (l : list Sym) : nat :=
  match l with
  | [] => O
  | Between :: rest => S (betweens rest)
  | _ :: rest => betweens rest
  end.

Definition is_between (x : Sym) : bool :=
  match x with
  | Between => true
  | _ => false
  end.

(** * Properties *)

(** ** Running computations *)

Lemma run_bind {A B} (m : M A) (k : A → M B) (s : Store) :
  (m ≫= k) s = match m s with
                | (s', inl e) => (s', inl e)
                | (s', inr a) => k a s'
                end.
Proof. reflexivity. Qed.

Lemma run_bind_ok {A B} (m : M A) (k : A → M B) (s s' : Store) (a : A) :
  m s = (s', inr a) → (m ≫= k) s = k a s'.
Proof. intros H. rewrite run_bind, H. reflexivity. Qed.

Lemma run_bind_raise {A B} (m : M A) (k : A → M B) (s s' : Store) (e : Error) :
  m s = (s', inl e) → (m ≫= k) s = (s', inl e).
Proof. intros H. rewrite run_bind, H. reflexivity. Qed.

Lemma while_true_break (fuel : nat) (body : M bool) (s s' : Store) :
  body s = (s', inr true) → while_true (S fuel) body s = (s', inr tt).
Proof. intros H. simpl. erewrite run_bind_ok by exact H. reflexivity. Qed.

Lemma while_true_raise (fuel : nat) (body : M bool) (s s' : Store) (e : Error) :
  body s = (s', inl e) → while_true (S fuel) body s = (s', inl e).
Proof. intros H. simpl. erewrite run_bind_raise by exact H. reflexivity. Qed.

Lemma repeat_call_noop (n : nat) (m : M unit) (s : Store) :
  m s = (s, inr tt) → repeat_call n m s = (s, inr tt).
Proof.
  intros H. induction n as [|n IH]; [reflexivity|].
  simpl. erewrite run_bind_ok by exact H. exact IH.
Qed.

Lemma store_eta (s : Store) : mkStore (tickets s) (competitions s) = s.
Proof. destruct s; reflexivity. Qed.

(** ** The statements *)

Lemma sql_update_ticket_missing id cond upd s :
  tickets s !! id = None → sql_update_ticket id cond upd s = (s, inr 0).
Proof. intros H. unfold sql_update_ticket. rewrite H. reflexivity. Qed.

Lemma sql_update_competition_hit id cond upd s c :
  competitions s !! id = Some c → cond c = true →
  sql_update_competition id cond upd s
  = (set_competitions (<[id := upd c]> (competitions s)) s, inr 1).
Proof. intros H Hc. unfold sql_update_competition. rewrite H, Hc. reflexivity. Qed.

(** ** set_ticket_funded on a missing ticket *)

(** C10: [set_ticket_funded] with an id that names no ticket returns
    normally and leaves the whole store (tickets and competitions) as it
    was: the state CAS matches no row. *)
Theorem set_ticket_funded_missing_ticket_noop
    (fuel : nat) (ticket_id : string) (s : Store) :
  tickets s !! ticket_id = None →
  cas_ticket_state ticket_id INITIAL FUNDED s = (s, inr false)
  ∧ set_ticket_funded fuel ticket_id s = (s, inr tt).
Proof.
  intros Hnone.
  assert (Hcas : cas_ticket_state ticket_id INITIAL FUNDED s = (s, inr false)).
  { unfold cas_ticket_state.
    erewrite run_bind_ok by (apply sql_update_ticket_missing; exact Hnone).
    reflexivity. }
  split; [exact Hcas|].
  unfold set_ticket_funded. erewrite run_bind_ok by exact Hcas. reflexivity.
Qed.

Lemma set_ticket_funded_missing_ticket_noop_witness :
  let s := mkStore ∅ {["c1" := mkCompetition "w" "r" "n" "i" "b" "d" 5 1 9 0
                                  [mkChoice "A" 0] (-1) INITIAL 0]} in
  set_ticket_funded 1 "t1" s = (s, inr tt).
Proof.
  intros s.
  apply (set_ticket_funded_missing_ticket_noop 1 "t1" s).
  reflexivity.
Defined.

Lemma sql_insert_ticket_fresh id t s :
  tickets s !! id = None →
  sql_insert_ticket id t s = (set_tickets (<[id := t]> (tickets s)) s, inr tt).
Proof. intros H. unfold sql_insert_ticket. rewrite H. reflexivity. Qed.

Lemma sql_insert_ticket_taken id t t0 s :
  tickets s !! id = Some t0 → sql_insert_ticket id t s = (s, inl IntegrityError).
Proof. intros H. unfold sql_insert_ticket. rewrite H. reflexivity. Qed.

Lemma sql_insert_competition_fresh id c s :
  competitions s !! id = None →
  sql_insert_competition id c s
  = (set_competitions (<[id := c]> (competitions s)) s, inr tt).
Proof. intros H. unfold sql_insert_competition. rewrite H. reflexivity. Qed.

(** ** create_ticket for a competition that does not exist *)

(** C4 (as stated, refuted): on the empty store, [create_ticket] for the
    unknown competition ["c1"] does not end in an exception with the store
    as it was. *)
Lemma create_ticket_missing_competition_persists :
  let s := mkStore ∅ ∅ in
  ¬ (competitions s !! "c1" = None →
     ∃ e, create_ticket 1 7 "t1" "w" "c1" 10 "lnurl" 0 s = (s, inl e)).
Proof.
  intros s H. destruct (H eq_refl) as [e He].
  apply (f_equal (λ r, tickets (fst r) !! "t1")) in He.
  vm_compute in He. discriminate He.
Qed.

(** C4 (amended): for a competition id that names no competition,
    [create_ticket] fails. With a new ticket id, the INSERT has already
    run when the assertion on the competition fails: the call raises and
    the store it leaves holds the new ticket in state INITIAL, the
    competitions being as before. With a ticket id already in use, the
    INSERT itself raises and the store is unchanged. *)
Theorem create_ticket_missing_competition
    (fuel : nat) (now : Z) (ticket_id wallet competition : string)
    (amount : Z) (reward_target : string) (choice : Z) (s : Store) :
  competitions s !! competition = None →
  (tickets s !! ticket_id = None →
   create_ticket (S fuel) now ticket_id wallet competition amount
     reward_target choice s
   = (set_tickets
        (<[ticket_id := mkTicket wallet competition amount reward_target
                          choice INITIAL 0 "" "" now]> (tickets s)) s,
      inl (AssertionError "Couldn't get competition from ticket being created")))
  ∧ (is_Some (tickets s !! ticket_id) →
     create_ticket (S fuel) now ticket_id wallet competition amount
       reward_target choice s
     = (s, inl IntegrityError)).
Proof.
  intros Hc. split.
  - intros Ht. unfold create_ticket.
    erewrite run_bind_ok by (apply sql_insert_ticket_fresh; exact Ht).
    erewrite run_bind_raise; [reflexivity|].
    apply while_true_raise.
    unfold get_competition. rewrite run_bind. simpl. rewrite Hc. reflexivity.
  - intros [t0 Ht]. unfold create_ticket.
    erewrite run_bind_raise; [reflexivity|].
    eapply sql_insert_ticket_taken; exact Ht.
Qed.

Lemma create_ticket_missing_competition_witness :
  let s := mkStore ∅ ∅ in
  create_ticket 1 7 "t1" "w" "c1" 10 "lnurl" 0 s
  = (set_tickets
       (<["t1" := mkTicket "w" "c1" 10 "lnurl" 0 INITIAL 0 "" "" 7]> (tickets s)) s,
     inl (AssertionError "Couldn't get competition from ticket being created")).
Proof.
  intros s.
  apply (create_ticket_missing_competition 0 7 "t1" "w" "c1" 10 "lnurl" 0 s);
    reflexivity.
Defined.

(** ** The rewriting of string parameters *)

Lemma scan_no_markup (l : list Sym) :
  Forall (λ x, is_chr "<" x = false ∧ is_chr "&" x = false) l →
  scan (Drop 0) l = l.
Proof.
  induction 1 as [|x l [Hlt Hamp] _ IH]; [reflexivity|].
  simpl. rewrite Hlt, Hamp. simpl. rewrite IH. reflexivity.
Qed.

Lemma split_between_cons (l : list Sym) :
  ∃ t ts, split_between l = t :: ts.
Proof.
  induction l as [|x l (t & ts & IH)]; [eexists _, _; reflexivity|].
  destruct x; simpl; rewrite ?IH; eexists _, _; reflexivity.
Qed.

Lemma split_between_app (t : list Sym) (l : list Sym) :
  Forall (λ x, is_between x = false) t →
  split_between (t ++ l)
  = match split_between l with
    | u :: ts => (t ++ u) :: ts
    | [] => [t]
    end.
Proof.
  induction 1 as [|x t Hx _ IH]; simpl.
  - destruct (split_between_cons l) as (u & ts & ->). reflexivity.
  - destruct (split_between_cons l) as (u & ts & Hl). rewrite Hl in IH.
    destruct x; [| |discriminate Hx]; rewrite IH, Hl; reflexivity.
Qed.

Lemma split_between_titles (titles : list (list Sym)) :
  titles ≠ [] →
  Forall (Forall (λ x, is_between x = false)) titles →
  split_between (between titles) = titles.
Proof.
  intros Hne Hall. induction Hall as [|t titles Ht Hall IH]; [contradiction|].
  destruct titles as [|u titles].
  - simpl. rewrite <- (app_nil_r t) at 1.
    rewrite (split_between_app t [] Ht). simpl. rewrite app_nil_r. reflexivity.
  - change (between (t :: u :: titles))
      with (t ++ Between :: between (u :: titles)).
    rewrite (split_between_app t _ Ht).
    change (split_between (Between :: between (u :: titles)))
      with ([] :: split_between (between (u :: titles))).
    rewrite IH by discriminate. rewrite app_nil_r. reflexivity.
Qed.

Lemma title_syms_chars (t : string) :
  Forall (λ x, is_between x = false) (title_syms t)
  ∧ string_of_syms (title_syms t) = t.
Proof.
  unfold title_syms, string_of_syms. split.
  - apply Forall_fmap, Forall_forall. intros a _. simpl.
    destruct (json_escaped a); reflexivity.
  - rewrite <- (String.string_of_list_ascii_of_string t) at 2. f_equal.
    induction (String.list_ascii_of_string t) as [|a l IH]; [reflexivity|].
    cbn in *. destruct (json_escaped a); cbn; f_equal; exact IH.
Qed.

Lemma title_syms_no_markup (t : string) :
  has_markup t = false →
  Forall (λ x, is_chr "<" x = false ∧ is_chr "&" x = false) (title_syms t).
Proof.
  unfold has_markup, title_syms. intros H.
  induction (String.list_ascii_of_string t) as [|a l IH]; [constructor|].
  simpl in H. apply orb_false_iff in H as [Ha Hl].
  apply orb_false_iff in Ha as [Hlt Hamp].
  rewrite fmap_cons. constructor; [|exact (IH Hl)].
  destruct (json_escaped a); simpl; [split; reflexivity|].
  split; assumption.
Qed.

Lemma between_no_markup (titles : list (list Sym)) :
  Forall (Forall (λ x, is_chr "<" x = false ∧ is_chr "&" x = false)) titles →
  Forall (λ x, is_chr "<" x = false ∧ is_chr "&" x = false) (between titles).
Proof.
  induction 1 as [|t titles Ht Hall IH]; [constructor|].
  destruct titles as [|u titles]; [exact Ht|].
  change (between (t :: u :: titles))
    with (t ++ Between :: between (u :: titles)).
  apply Forall_app. split; [exact Ht|].
  constructor; [split; reflexivity|exact IH].
Qed.

(** Titles without [<] and [&] are stored as they are. *)
Lemma stored_titles_plain (titles : list string) :
  Forall (λ t, has_markup t = false) titles → stored_titles titles = titles.
Proof.
  intros Hplain. destruct titles as [|t titles]; [reflexivity|].
  unfold stored_titles. rewrite scan_no_markup.
  - rewrite split_between_titles.
    + rewrite <- list_fmap_compose. rewrite <- (list_fmap_id (t :: titles)) at 2.
      apply list_fmap_ext. intros i u _. simpl. apply title_syms_chars.
    + discriminate.
    + apply Forall_fmap, Forall_forall. intros u _. apply title_syms_chars.
  - apply between_no_markup, Forall_fmap.
    eapply Forall_impl; [exact Hplain|]. intros u Hu. simpl.
    apply title_syms_no_markup. exact Hu.
Qed.

Lemma length_split_between (l : list Sym) :
  length (split_between l) = S (betweens l).
Proof.
  induction l as [|x l IH]; [reflexivity|].
  destruct (split_between_cons l) as (t & ts & Hl). rewrite Hl in IH.
  destruct x; simpl; rewrite ?Hl; simpl in *; lia.
Qed.

Lemma betweens_scan (l : list Sym) : ∀ st,
  (betweens (scan st l) ≤ betweens l)%nat.
Proof.
  induction l as [|x l IH]; intros st; [reflexivity|].
  assert (Hx : (betweens l ≤ betweens (x :: l))%nat)
    by (destruct x; simpl; lia).
  assert (Hkeep : ∀ st', (betweens (x :: scan st' l) ≤ betweens (x :: l))%nat)
    by (intros st'; specialize (IH st'); destruct x; simpl; lia).
  destruct st as [[|n]|]; simpl scan.
  - destruct (is_chr "<" x && closes l); [etrans; [apply IH|exact Hx]|].
    destruct (is_chr "&" x); [|apply Hkeep].
    destruct (entity l); [etrans; [apply IH|exact Hx]|apply Hkeep].
  - etrans; [apply IH|exact Hx].
  - destruct (is_chr ">" x); (etrans; [apply IH|exact Hx]).
Qed.

Lemma betweens_between (titles : list (list Sym)) :
  Forall (Forall (λ x, is_between x = false)) titles →
  (betweens (between titles) = length titles - 1)%nat.
Proof.
  assert (Happ : ∀ t l, Forall (λ x, is_between x = false) t →
                        betweens (t ++ l) = betweens l).
  { intros t l Ht. induction Ht as [|x t Hx _ IH]; [reflexivity|].
    destruct x; [exact IH|exact IH|discriminate Hx]. }
  induction 1 as [|t titles Ht Hall IH]; [reflexivity|].
  destruct titles as [|u titles].
  - simpl. rewrite <- (app_nil_r t). apply (Happ t [] Ht).
  - change (between (t :: u :: titles))
      with (t ++ Between :: between (u :: titles)).
    rewrite (Happ t _ Ht).
    change (betweens (Between :: between (u :: titles)))
      with (S (betweens (between (u :: titles)))).
    rewrite IH. simpl. lia.
Qed.

(** No more choices are stored than titles were given. *)
Lemma length_stored_titles (titles : list string) :
  (length (stored_titles titles) ≤ length titles)%nat.
Proof.
  destruct titles as [|t titles]; [reflexivity|].
  unfold stored_titles. rewrite length_fmap, length_split_between.
  pose proof (betweens_scan (between (title_syms <$> t :: titles)) (Drop 0)).
  rewrite betweens_between in H.
  - rewrite length_fmap in H. simpl in *. lia.
  - apply Forall_fmap, Forall_forall. intros u _. apply title_syms_chars.
Qed.

(** ** create_competition, then get_competition *)

(** C9 (as stated, refuted): for the titles [<b>A</b>] and [B &amp;C] the
    competition that [get_competition] yields after [create_competition]
    does not pair the titles given with total 0: its titles are [A] and
    [B C]. *)
Lemma create_competition_strips_markup :
  let data := mkCreateCompetition "w" "n" "i" "b" "d" 5 1 9
                ["<b>A</b>"; "B &amp;C"] in
  let r := create_competition "c1" "reg" 3 data (mkStore ∅ ∅) in
  ¬ (∀ c, get_competition "c1" (fst r) = (fst r, inr (Some c)) →
          c_choices c = (λ t, mkChoice t 0) <$> cc_choices data).
Proof.
  intros data r H.
  assert (Hget : get_competition "c1" (fst r)
                 = (fst r,
                    inr (Some (mkCompetition "w" "reg" "n" "i" "b" "d" 5 1 9 0
                                 [mkChoice "A" 0; mkChoice "B C" 0] (-1)
                                 INITIAL 3))))
    by (vm_compute; reflexivity).
  specialize (H _ Hget). vm_compute in H. discriminate H.
Qed.

(** C9: [create_competition] (with an id that is not in use) returns the
    new id and row, and [get_competition] of that id in the resulting store
    gives that row: its winning_choice is -1, its sold is 0, its state is
    INITIAL, and its choices all have total 0 and carry, in order, the
    titles that are left of the titles given once tags and character
    entities are removed from the text; they are never more than the
    titles given, and when no title holds a [<] or a [&] they pair every
    input title with total 0. *)
Theorem create_competition_roundtrip
    (competition_id register_id : string) (now : Z)
    (data : CreateCompetition) (s : Store) :
  competitions s !! competition_id = None →
  ∃ s' c,
    create_competition competition_id register_id now data s
    = (s', inr (competition_id, c))
    ∧ get_competition competition_id s' = (s', inr (Some c))
    ∧ title <$> c_choices c = stored_titles (cc_choices data)
    ∧ Forall (λ ch, total ch = 0) (c_choices c)
    ∧ (length (c_choices c) ≤ length (cc_choices data))%nat
    ∧ (Forall (λ t, has_markup t = false) (cc_choices data) →
       c_choices c = (λ t, mkChoice t 0) <$> cc_choices data)
    ∧ c_winning_choice c = -1
    ∧ c_sold c = 0
    ∧ c_state c = INITIAL
    ∧ c_amount_tickets c = cc_amount_tickets data.
Proof.
  intros Hfresh. eexists _, _. split.
  - unfold create_competition.
    erewrite run_bind_ok by (apply sql_insert_competition_fresh; exact Hfresh).
    unfold get_competition. rewrite run_bind. simpl.
    rewrite lookup_insert_eq. reflexivity.
  - split; [unfold get_competition; simpl; rewrite lookup_insert_eq;
            reflexivity|].
    simpl. split; [|split; [|split; [|split]]].
    + rewrite <- list_fmap_compose. apply list_fmap_id.
    + apply Forall_fmap, Forall_forall. intros t _. reflexivity.
    + rewrite length_fmap. apply length_stored_titles.
    + intros Hplain. rewrite (stored_titles_plain _ Hplain). reflexivity.
    + repeat split.
Qed.

Lemma create_competition_roundtrip_witness :
  ∃ s' c,
    create_competition "c1" "reg" 3
      (mkCreateCompetition "w" "n" "i" "b" "d" 5 1 9 ["A"; "B"]) (mkStore ∅ ∅)
    = (s', inr ("c1", c))
    ∧ get_competition "c1" s' = (s', inr (Some c))
    ∧ c_choices c = [mkChoice "A" 0; mkChoice "B" 0]
    ∧ c_winning_choice c = -1
    ∧ c_sold c = 0
    ∧ c_state c = INITIAL
    ∧ c_amount_tickets c = 5.
Proof.
  assert (Hfresh : competitions (mkStore ∅ ∅) !! "c1" = None) by reflexivity.
  destruct (create_competition_roundtrip "c1" "reg" 3
              (mkCreateCompetition "w" "n" "i" "b" "d" 5 1 9 ["A"; "B"])
              (mkStore ∅ ∅) Hfresh)
    as (s' & c & Hrun & Hget & _ & _ & _ & Hplain & Hw & Hsold & Hst & Ham).
  exists s', c. split; [exact Hrun|]. split; [exact Hget|].
  split; [apply Hplain; repeat constructor|].
  split; [exact Hw|]. split; [exact Hsold|]. split; [exact Hst|exact Ham].
Defined.

(** ** WHERE clauses over the ticket table *)

Lemma lookup_tickets_where cond (m : gmap string Ticket) id t :
  tickets_where cond m !! id = Some t ↔ m !! id = Some t ∧ cond t = true.
Proof.
  unfold tickets_where. rewrite map_lookup_filter_Some. simpl.
  rewrite Is_true_true. reflexivity.
Qed.

Lemma tickets_where_empty_iff cond (m : gmap string Ticket) :
  tickets_where cond m = ∅ ↔ ∀ id t, m !! id = Some t → cond t = false.
Proof.
  rewrite map_empty. split.
  - intros H id t Hid. destruct (cond t) eqn:Hc; [|reflexivity].
    assert (Hs : tickets_where cond m !! id = Some t)
      by (apply lookup_tickets_where; auto).
    rewrite H in Hs. discriminate Hs.
  - intros H id. destruct (tickets_where cond m !! id) as [t|] eqn:Hs; [|reflexivity].
    apply lookup_tickets_where in Hs as [Hid Hc].
    rewrite (H id t Hid) in Hc. discriminate Hc.
Qed.

Lemma fetchone_none_iff cond (m : gmap string Ticket) :
  head (map_to_list (tickets_where cond m)) = None
  ↔ ∀ id t, m !! id = Some t → cond t = false.
Proof.
  rewrite <- tickets_where_empty_iff, <- map_to_list_empty_iff.
  destruct (map_to_list (tickets_where cond m)); simpl; split; congruence.
Qed.

(** ** is_competition_payment_complete *)

Lemma machine_state_cases st :
  st ∈ machine_states →
  (st ∈ payment_final_states ↔ st ∉ non_terminal_states).
Proof.
  unfold machine_states, payment_final_states, non_terminal_states.
  rewrite !elem_of_cons, !elem_of_nil.
  intros H. split.
  - intros Hf Hn.
    repeat match goal with H : _ ∨ _ |- _ => destruct H | H : False |- _ => destruct H end;
      subst; try discriminate; congruence.
  - intros Hn.
    repeat match goal with H : _ ∨ _ |- _ => destruct H | H : False |- _ => destruct H end;
      subst; tauto.
Qed.

(** C8: [is_competition_payment_complete] reads the store without changing
    it and answers [true] exactly when every ticket of the competition is in
    one of CANCELLED_PAID, CANCELLED_PAYMENT_FAILED, WON_PAID,
    WON_PAYMENT_FAILED, LOST; when the states of the competition's tickets
    are among the nine machine states this is: exactly when none of them is
    INITIAL, FUNDED, WON_UNPAID or CANCELLED_UNPAID. It answers [true] for a
    competition without tickets and [false] as soon as one of its tickets is
    FUNDED. *)
Theorem is_competition_payment_complete_iff (competition_id : string) (s : Store) :
  ∃ b : bool,
    is_competition_payment_complete competition_id s = (s, inr b)
    ∧ (b = true ↔
       ∀ id t, tickets s !! id = Some t → t_competition t = competition_id →
               t_state t ∈ payment_final_states)
    ∧ ((∀ id t, tickets s !! id = Some t → t_competition t = competition_id →
                t_state t ∈ machine_states) →
       (b = true ↔
        ∀ id t, tickets s !! id = Some t → t_competition t = competition_id →
                t_state t ∉ non_terminal_states))
    ∧ ((∀ id t, tickets s !! id = Some t → t_competition t ≠ competition_id) →
       b = true)
    ∧ ((∃ id t, tickets s !! id = Some t ∧ t_competition t = competition_id
                ∧ t_state t = FUNDED) →
       b = false).
Proof.
  set (row := head (map_to_list
                (tickets_where (payment_pending competition_id) (tickets s)))).
  exists (negb (bool_decide (is_Some row))).
  assert (Hb : negb (bool_decide (is_Some row)) = true ↔
               ∀ id t, tickets s !! id = Some t →
                       t_competition t = competition_id →
                       t_state t ∈ payment_final_states).
  { rewrite negb_true_iff, bool_decide_eq_false, <- eq_None_not_Some.
    unfold row. rewrite fetchone_none_iff.
    unfold payment_pending. split.
    - intros H id t Hid Hc. specialize (H id t Hid).
      rewrite andb_false_iff, !bool_decide_eq_false in H.
      destruct H as [H|H]; [contradiction|].
      destruct (decide (t_state t ∈ payment_final_states)); tauto.
    - intros H id t Hid.
      rewrite andb_false_iff, !bool_decide_eq_false.
      destruct (decide (t_competition t = competition_id)) as [Hc|Hc]; [|tauto].
      right. intros Hn. apply Hn. eauto. }
  split; [reflexivity|]. split; [exact Hb|]. split; [|split].
  - intros Hm. rewrite Hb. split; intros H id t Hid Hc.
    + apply machine_state_cases; eauto.
    + apply machine_state_cases; eauto.
  - intros Hnone. apply Hb. intros id t Hid Hc. destruct (Hnone id t Hid Hc).
  - intros (id & t & Hid & Hc & Hst).
    apply not_true_is_false. rewrite Hb. intros H.
    specialize (H id t Hid Hc). rewrite Hst in H.
    unfold payment_final_states in H.
    rewrite !elem_of_cons, elem_of_nil in H.
    repeat destruct H as [H|H]; try discriminate H. destruct H.
Qed.

Lemma is_competition_payment_complete_iff_witness :
  let t st := mkTicket "w" "c1" 10 "lnurl" 0 st 0 "" "" 7 in
  let s := mkStore {["t1" := t WON_PAID; "t2" := t LOST; "t3" := t CANCELLED_PAID]} ∅ in
  ∃ b : bool,
    is_competition_payment_complete "c1" s = (s, inr b)
    ∧ (b = true ↔
       ∀ id t, tickets s !! id = Some t → t_competition t = "c1" →
               t_state t ∉ non_terminal_states).
Proof.
  intros t s.
  destruct (is_competition_payment_complete_iff "c1" s)
    as (b & Hrun & _ & Hnine & _).
  exists b. split; [exact Hrun|]. apply Hnine.
  intros id t0 Hid _. subst s. simpl in Hid.
  repeat (apply lookup_insert_Some in Hid as [[_ <-]|[_ Hid]];
          [apply (bool_decide_unpack _); vm_compute; exact I|]).
  apply lookup_singleton_Some in Hid as [_ <-].
  apply (bool_decide_unpack _); vm_compute; exact I.
Defined.

(** ** update_competition_winners *)

Lemma update_competition_winners_as_statements cid choices w s :
  update_competition_winners cid choices w s
  = run_statements (update_competition_winners_statements cid choices w) s.
Proof.
  unfold update_competition_winners, update_competition_winners_statements.
  destruct (bool_decide (w < 0)); reflexivity.
Qed.

(** What the competition UPDATE of the settlement does to the table. *)
Lemma sql_update_competition_always id upd s :
  sql_update_competition id (λ _, true) upd s
  = (set_competitions (alter upd id (competitions s)) s,
     inr (if competitions s !! id is Some _ then 1 else 0)).
Proof.
  unfold sql_update_competition.
  destruct (competitions s !! id) as [c|] eqn:Hc.
  - f_equal. f_equal. apply map_eq. intros j.
    destruct (decide (id = j)) as [<-|Hne].
    + rewrite lookup_insert_eq, lookup_alter_eq, Hc. reflexivity.
    + rewrite lookup_insert_ne, lookup_alter_ne by exact Hne. reflexivity.
  - f_equal. unfold set_competitions. rewrite <- (store_eta s) at 1. f_equal.
    apply map_eq. intros j.
    destruct (decide (id = j)) as [<-|Hne].
    + rewrite lookup_alter_eq, Hc. reflexivity.
    + rewrite lookup_alter_ne by exact Hne. reflexivity.
Qed.

Lemma funded_in_true cid t :
  funded_in cid t = true ↔ t_competition t = cid ∧ t_state t = FUNDED.
Proof.
  unfold funded_in. rewrite andb_true_iff, !bool_decide_eq_true. reflexivity.
Qed.

Lemma funded_in_set_state cid st t :
  st ≠ FUNDED → funded_in cid (set_t_state st t) = false.
Proof.
  intros H. unfold funded_in. simpl.
  rewrite (bool_decide_eq_false_2 (st = FUNDED)) by exact H.
  apply andb_false_r.
Qed.

(** The two ticket updates of a decided outcome, one after the other, are
    [settle] on every row. *)
Lemma settle_decided cid w t :
  ¬ w < 0 →
  (let t1 := if funded_in cid t && bool_decide (t_choice t = w)
             then set_t_state WON_UNPAID t else t in
   if funded_in cid t1 && bool_decide (t_choice t1 ≠ w)
   then set_t_state LOST t1 else t1)
  = settle cid w t.
Proof.
  intros Hw. unfold settle. simpl.
  rewrite (bool_decide_eq_false_2 (w < 0)) by exact Hw.
  destruct (funded_in cid t) eqn:Hf; simpl.
  - destruct (decide (t_choice t = w)) as [Hc|Hc].
    + rewrite (bool_decide_eq_true_2 _ Hc).
      rewrite funded_in_set_state by discriminate. reflexivity.
    + rewrite (bool_decide_eq_false_2 _ Hc). rewrite Hf. simpl.
      rewrite (bool_decide_eq_true_2 (t_choice t ≠ w)) by exact Hc.
      reflexivity.
  - rewrite Hf. reflexivity.
Qed.

Lemma settle_void cid w t :
  w < 0 →
  (if funded_in cid t then set_t_state CANCELLED_UNPAID t else t)
  = settle cid w t.
Proof.
  intros Hw. unfold settle.
  rewrite (bool_decide_eq_true_2 (w < 0)) by exact Hw. reflexivity.
Qed.

(** The store [update_competition_winners] leaves: it never raises. *)
Lemma update_competition_winners_run cid choices w s :
  update_competition_winners cid choices w s
  = (mkStore (settle cid w <$> tickets s)
       (alter (λ c, set_c_winning_choice w (set_c_choices choices c)) cid
          (competitions s)),
     inr tt).
Proof.
  unfold update_competition_winners.
  erewrite run_bind_ok by apply sql_update_competition_always.
  case_bool_decide as Hw.
  - unfold sql_update_tickets_where. rewrite run_bind. simpl.
    unfold mret, M_ret, ret, set_tickets. simpl. f_equal. f_equal.
    apply map_fmap_ext. intros id t _. apply settle_void. exact Hw.
  - unfold sql_update_tickets_where. rewrite !run_bind. simpl.
    unfold mret, M_ret, ret, set_tickets. simpl. f_equal. f_equal.
    rewrite <- map_fmap_compose.
    apply map_fmap_ext. intros id t _. simpl. apply (settle_decided cid w t Hw).
Qed.

Lemma settle_cases cid w t :
  settle cid w t = t ∧ funded_in cid t = false
  ∨ funded_in cid t = true ∧ w < 0
    ∧ settle cid w t = set_t_state CANCELLED_UNPAID t
  ∨ funded_in cid t = true ∧ 0 ≤ w ∧ t_choice t = w
    ∧ settle cid w t = set_t_state WON_UNPAID t
  ∨ funded_in cid t = true ∧ 0 ≤ w ∧ t_choice t ≠ w
    ∧ settle cid w t = set_t_state LOST t.
Proof.
  unfold settle. destruct (funded_in cid t); [|left; auto].
  right. repeat case_bool_decide; [left|right; left|right; right]; auto with lia.
Qed.

Lemma settle_idempotent cid w t : settle cid w (settle cid w t) = settle cid w t.
Proof.
  destruct (settle_cases cid w t)
    as [[He _]|[(_ & _ & He)|[(_ & _ & _ & He)|(_ & _ & _ & He)]]];
    rewrite !He; [reflexivity|..]; unfold settle;
    rewrite funded_in_set_state by discriminate; reflexivity.
Qed.

(** ** Counting rows *)

Lemma tickets_where_ext p q (m : gmap string Ticket) :
  (∀ id t, m !! id = Some t → p t = q t) →
  tickets_where p m = tickets_where q m.
Proof.
  intros H. unfold tickets_where. apply map_filter_ext.
  intros id t Hid. simpl. rewrite (H id t Hid). reflexivity.
Qed.

Lemma size_tickets_where_fmap cond (f : Ticket → Ticket) (m : gmap string Ticket) :
  size (tickets_where cond (f <$> m)) = size (tickets_where (λ t, cond (f t)) m).
Proof.
  unfold tickets_where. rewrite map_filter_fmap, map_size_fmap.
  reflexivity.
Qed.

Lemma size_tickets_where_insert cond (m : gmap string Ticket) id t :
  m !! id = None →
  size (tickets_where cond (<[id := t]> m))
  = ((if cond t then 1 else 0) + size (tickets_where cond m))%nat.
Proof.
  intros Hid. unfold tickets_where. rewrite map_filter_insert. simpl.
  destruct (cond t) eqn:Hc.
  - rewrite decide_True by done.
    rewrite map_size_insert_None; [reflexivity|].
    apply map_lookup_filter_None. left. exact Hid.
  - destruct (decide (Is_true false)) as [[]|_].
    rewrite delete_id by exact Hid. reflexivity.
Qed.

Lemma size_tickets_where_or p q (m : gmap string Ticket) :
  (∀ t, p t && q t = false) →
  size (tickets_where (λ t, p t || q t) m)
  = (size (tickets_where p m) + size (tickets_where q m))%nat.
Proof.
  intros Hpq. induction m as [|id t m Hid IH] using map_ind.
  - unfold tickets_where. rewrite !map_filter_empty, map_size_empty. reflexivity.
  - rewrite !size_tickets_where_insert by exact Hid. rewrite IH.
    specialize (Hpq t). destruct (p t), (q t); simpl in *; try discriminate; lia.
Qed.

Lemma in_state_true cid st t :
  in_state cid st t = true ↔ t_competition t = cid ∧ t_state t = st.
Proof.
  unfold in_state. rewrite andb_true_iff, !bool_decide_eq_true. reflexivity.
Qed.

Lemma settle_competition cid w t : t_competition (settle cid w t) = t_competition t.
Proof. unfold settle. destruct (funded_in cid t); reflexivity. Qed.

(** The state of a settled row, by cases on the row before. *)
Lemma settle_state cid w t :
  t_state (settle cid w t)
  = if funded_in cid t then
      if bool_decide (w < 0) then CANCELLED_UNPAID
      else if bool_decide (t_choice t = w) then WON_UNPAID else LOST
    else t_state t.
Proof. unfold settle. destruct (funded_in cid t); reflexivity. Qed.

Lemma settle_not_funded cid w t : funded_in cid (settle cid w t) = false.
Proof.
  unfold settle. destruct (funded_in cid t) eqn:Hf; [|exact Hf].
  apply funded_in_set_state.
  repeat case_bool_decide; discriminate.
Qed.

(** After the settlement, the rows in a state other than FUNDED are those
    that were in it before and those the settlement moved into it. *)
Lemma in_state_settle cid w st t :
  st ≠ FUNDED →
  in_state cid st (settle cid w t)
  = in_state cid st t
    || (funded_in cid t && bool_decide (t_state (settle cid w t) = st)).
Proof.
  intros Hst. unfold in_state at 1. rewrite settle_competition.
  destruct (funded_in cid t) eqn:Hf.
  - apply funded_in_true in Hf as Hf'. destruct Hf' as [Hc Hs].
    unfold in_state. rewrite Hs, (bool_decide_eq_true_2 _ Hc).
    rewrite (bool_decide_eq_false_2 (FUNDED = st)) by congruence.
    reflexivity.
  - rewrite settle_state, Hf. unfold in_state.
    rewrite andb_false_l, orb_false_r. reflexivity.
Qed.

Lemma count_in_state_settle cid w st (m : gmap string Ticket) :
  st ≠ FUNDED →
  count_in_state cid st (settle cid w <$> m)
  = (count_in_state cid st m
     + size (tickets_where
               (λ t, funded_in cid t
                     && bool_decide (t_state (settle cid w t) = st)) m))%nat.
Proof.
  intros Hst. unfold count_in_state.
  rewrite size_tickets_where_fmap.
  rewrite <- size_tickets_where_or.
  - f_equal. apply tickets_where_ext. intros id t _.
    apply in_state_settle. exact Hst.
  - intros t. destruct (in_state cid st t) eqn:Hi; [|reflexivity].
    apply in_state_true in Hi as [Hc Hs].
    unfold funded_in.
    rewrite (bool_decide_eq_false_2 (t_state t = FUNDED)) by congruence.
    rewrite andb_false_r. reflexivity.
Qed.

Lemma count_resolved_settle cid w st (m : gmap string Ticket) :
  count_resolved cid st m (settle cid w <$> m)
  = size (tickets_where
            (λ t, funded_in cid t
                  && bool_decide (t_state (settle cid w t) = st)) m).
Proof.
  unfold count_resolved, tickets_where.
  rewrite map_filter_fmap, map_size_fmap. f_equal.
  apply map_filter_ext. intros id t Hid. simpl. rewrite Hid. simpl.
  rewrite andb_True, bool_decide_spec, Is_true_true.
  split; intros [H1 H2]; split; congruence.
Qed.

Lemma count_funded_settle cid w (m : gmap string Ticket) :
  count_in_state cid FUNDED (settle cid w <$> m) = 0%nat.
Proof.
  unfold count_in_state. apply map_size_empty_iff, tickets_where_empty_iff.
  intros id t' Hid. apply lookup_fmap_Some in Hid as (t & <- & _).
  apply (settle_not_funded cid w t).
Qed.

Lemma count_resolved_void cid w (m : gmap string Ticket) :
  w < 0 →
  count_resolved cid CANCELLED_UNPAID m (settle cid w <$> m)
  = count_in_state cid FUNDED m.
Proof.
  intros Hw. rewrite count_resolved_settle. unfold count_in_state. f_equal.
  apply tickets_where_ext. intros id t _. rewrite settle_state.
  change (in_state cid FUNDED t) with (funded_in cid t).
  destruct (funded_in cid t); [|reflexivity].
  rewrite (bool_decide_eq_true_2 (w < 0)) by exact Hw. reflexivity.
Qed.

Lemma count_resolved_decided cid w (m : gmap string Ticket) :
  0 ≤ w →
  (count_resolved cid WON_UNPAID m (settle cid w <$> m)
   + count_resolved cid LOST m (settle cid w <$> m))%nat
  = count_in_state cid FUNDED m.
Proof.
  intros Hw. rewrite !count_resolved_settle. unfold count_in_state.
  rewrite <- size_tickets_where_or.
  - f_equal. apply tickets_where_ext. intros id t _. rewrite settle_state.
    change (in_state cid FUNDED t) with (funded_in cid t).
    destruct (funded_in cid t); [|reflexivity].
    rewrite (bool_decide_eq_false_2 (w < 0)) by lia.
    destruct (bool_decide (t_choice t = w)); reflexivity.
  - intros t. rewrite settle_state.
    destruct (funded_in cid t); [|reflexivity].
    rewrite (bool_decide_eq_false_2 (w < 0)) by lia.
    destruct (bool_decide (t_choice t = w)); reflexivity.
Qed.

(** C3: [update_competition_winners] returns normally, and every ticket of
    the competition that was FUNDED ends in CANCELLED_UNPAID when
    winning_choice < 0, and otherwise in WON_UNPAID when its choice is the
    winning choice and in LOST when it is not. The tickets it moved into
    WON_UNPAID and LOST (into CANCELLED_UNPAID for a void outcome) are as
    many as the tickets that were FUNDED; no ticket of the competition is
    FUNDED afterwards, and the number of tickets in any other state is the
    number before plus the number moved into that state. *)
Theorem update_competition_winners_resolves
    (competition_id : string) (choices : list Choice) (winning_choice : Z)
    (s : Store) :
  let r := update_competition_winners competition_id choices winning_choice s in
  snd r = inr tt
  ∧ (∀ id t, tickets s !! id = Some t →
             t_competition t = competition_id → t_state t = FUNDED →
       ∃ t', tickets (fst r) !! id = Some t'
             ∧ (winning_choice < 0 → t_state t' = CANCELLED_UNPAID)
             ∧ (0 ≤ winning_choice → t_choice t = winning_choice →
                t_state t' = WON_UNPAID)
             ∧ (0 ≤ winning_choice → t_choice t ≠ winning_choice →
                t_state t' = LOST))
  ∧ (winning_choice < 0 →
       count_resolved competition_id CANCELLED_UNPAID (tickets s) (tickets (fst r))
       = count_in_state competition_id FUNDED (tickets s))
  ∧ (0 ≤ winning_choice →
       (count_resolved competition_id WON_UNPAID (tickets s) (tickets (fst r))
        + count_resolved competition_id LOST (tickets s) (tickets (fst r)))%nat
       = count_in_state competition_id FUNDED (tickets s))
  ∧ count_in_state competition_id FUNDED (tickets (fst r)) = 0%nat
  ∧ (∀ st, st ≠ FUNDED →
       count_in_state competition_id st (tickets (fst r))
       = (count_in_state competition_id st (tickets s)
          + count_resolved competition_id st (tickets s) (tickets (fst r)))%nat).
Proof.
  intros r. subst r. rewrite update_competition_winners_run. simpl.
  split; [reflexivity|]. split; [|split; [|split; [|split]]].
  - intros id t Hid Hc Hs.
    exists (settle competition_id winning_choice t).
    split; [rewrite lookup_fmap, Hid; reflexivity|].
    rewrite settle_state.
    rewrite (proj2 (funded_in_true competition_id t) (conj Hc Hs)).
    repeat split; intros; repeat case_bool_decide; try reflexivity; lia || congruence.
  - apply count_resolved_void.
  - apply count_resolved_decided.
  - apply count_funded_settle.
  - intros st Hst. rewrite count_resolved_settle.
    apply count_in_state_settle. exact Hst.
Qed.

Lemma update_competition_winners_resolves_witness :
  let t ch := mkTicket "w" "c1" 10 "lnurl" ch FUNDED 0 "" "" 7 in
  let s := mkStore {["t1" := t 0; "t2" := t 1; "t3" := t 0; "t4" := t 1]} ∅ in
  let s' := fst (update_competition_winners "c1" [] 1 s) in
  (count_resolved "c1" WON_UNPAID (tickets s) (tickets s')
   + count_resolved "c1" LOST (tickets s) (tickets s'))%nat = 4%nat.
Proof.
  intros t s s'.
  destruct (update_competition_winners_resolves "c1" [] 1 s)
    as (_ & _ & _ & Hdecided & _).
  exact (eq_trans (Hdecided ltac:(lia)) eq_refl).
Defined.

(** ** Restarting the settlement *)

Lemma settlement_row_idempotent choices w c :
  set_c_winning_choice w (set_c_choices choices
    (set_c_winning_choice w (set_c_choices choices c)))
  = set_c_winning_choice w (set_c_choices choices c).
Proof. reflexivity. Qed.

Lemma alter_idempotent {A} (g : A → A) (id : string) (m : gmap string A) :
  (∀ x, g (g x) = g x) → alter g id (alter g id m) = alter g id m.
Proof.
  intros Hg. apply map_eq. intros j. destruct (decide (id = j)) as [<-|Hne].
  - rewrite !lookup_alter_eq. destruct (m !! id); simpl; [rewrite Hg|]; reflexivity.
  - rewrite !lookup_alter_ne by exact Hne. reflexivity.
Qed.

(** A store whose tickets are those of [s] with some FUNDED rows already
    resolved as the outcome demands, and whose competition row may already
    carry the outcome, is settled to the same store as [s]. *)
Lemma update_competition_winners_converges cid choices w s s1
    (h : Ticket → Ticket) :
  tickets s1 = h <$> tickets s →
  (∀ t, settle cid w (h t) = settle cid w t) →
  competitions s1 = competitions s
  ∨ competitions s1
    = alter (λ c, set_c_winning_choice w (set_c_choices choices c)) cid
        (competitions s) →
  update_competition_winners cid choices w s1
  = update_competition_winners cid choices w s.
Proof.
  intros Ht Hh Hc. rewrite !update_competition_winners_run. f_equal. f_equal.
  - rewrite Ht, <- map_fmap_compose. apply map_fmap_ext. intros id t _. apply Hh.
  - destruct Hc as [->| ->]; [reflexivity|].
    apply alter_idempotent. intros c. apply settlement_row_idempotent.
Qed.

Lemma settle_after_winners cid w t :
  ¬ w < 0 →
  settle cid w (if funded_in cid t && bool_decide (t_choice t = w)
                then set_t_state WON_UNPAID t else t)
  = settle cid w t.
Proof.
  intros Hw. destruct (funded_in cid t && bool_decide (t_choice t = w)) eqn:Hb;
    [|reflexivity].
  apply andb_true_iff in Hb as [Hf Hc]. unfold settle.
  rewrite funded_in_set_state by discriminate. rewrite Hf, Hc.
  rewrite (bool_decide_eq_false_2 (w < 0)) by exact Hw. reflexivity.
Qed.

(** Wherever a run stopped, running the settlement again ends where an
    uninterrupted run ends. *)
Lemma update_competition_winners_restart cid choices w n s :
  update_competition_winners cid choices w
    (stopped_after n (update_competition_winners_statements cid choices w) s)
  = update_competition_winners cid choices w s.
Proof.
  unfold stopped_after, update_competition_winners_statements.
  destruct n as [|[|[|n]]]; [reflexivity|..].
  - (* stopped after the competition UPDATE *)
    simpl. unfold run_statements. simpl.
    erewrite run_bind_ok by apply sql_update_competition_always. simpl.
    apply (update_competition_winners_converges _ _ _ s _ (λ t, t)).
    + simpl. rewrite map_fmap_id. reflexivity.
    + reflexivity.
    + right. reflexivity.
  - (* stopped after the first ticket UPDATE *)
    case_bool_decide as Hw; simpl; unfold run_statements; simpl;
      erewrite run_bind_ok by apply sql_update_competition_always;
      unfold sql_update_tickets_where; rewrite run_bind; simpl.
    + eapply (update_competition_winners_converges _ _ _ s); simpl;
        [reflexivity| |right; reflexivity].
      intros t. simpl. rewrite (settle_void cid w t Hw). apply settle_idempotent.
    + eapply (update_competition_winners_converges _ _ _ s); simpl;
        [reflexivity| |right; reflexivity].
      intros t. simpl. apply settle_after_winners. exact Hw.
  - (* every statement was executed *)
    assert (Hall : ∀ l : list (M Z), (length l ≤ 3)%nat → take (S (S (S n))) l = l)
      by (intros l Hl; apply take_ge; lia).
    rewrite Hall by (case_bool_decide; simpl; lia).
    pose proof (update_competition_winners_as_statements cid choices w s) as Hs.
    unfold update_competition_winners_statements in Hs. rewrite <- Hs.
    apply (update_competition_winners_converges _ _ _ s _ (settle cid w)).
    + rewrite update_competition_winners_run. reflexivity.
    + apply settle_idempotent.
    + right. rewrite update_competition_winners_run. reflexivity.
Qed.

(** C7: [update_competition_winners] creates and deletes no ticket, leaves
    every ticket that is not a FUNDED ticket of the competition exactly as
    it was, and changes at most the state field of the others. Running it
    again with the same arguments changes nothing, and running it on the
    store left by a run that stopped after any number of its statements
    ends in the store of an uninterrupted run. *)
Theorem update_competition_winners_frame
    (competition_id : string) (choices : list Choice) (winning_choice : Z)
    (s : Store) :
  let s' := fst (update_competition_winners competition_id choices
                   winning_choice s) in
  (∀ id, tickets s !! id = None → tickets s' !! id = None)
  ∧ (∀ id t, tickets s !! id = Some t →
             ¬ (t_competition t = competition_id ∧ t_state t = FUNDED) →
             tickets s' !! id = Some t)
  ∧ (∀ id t, tickets s !! id = Some t →
             ∃ st, tickets s' !! id = Some (set_t_state st t))
  ∧ update_competition_winners competition_id choices winning_choice s'
    = (s', inr tt)
  ∧ (∀ n,
       update_competition_winners competition_id choices winning_choice
         (stopped_after n
            (update_competition_winners_statements competition_id choices
               winning_choice) s)
       = (s', inr tt)).
Proof.
  intros s'.
  assert (Hrun : update_competition_winners competition_id choices
                   winning_choice s = (s', inr tt)).
  { subst s'. rewrite update_competition_winners_run. reflexivity. }
  assert (Hs' : tickets s' = settle competition_id winning_choice <$> tickets s).
  { subst s'. rewrite update_competition_winners_run. reflexivity. }
  split; [|split; [|split; [|split]]].
  - intros id Hid. rewrite Hs', lookup_fmap, Hid. reflexivity.
  - intros id t Hid Hn. rewrite Hs', lookup_fmap, Hid. simpl. f_equal.
    unfold settle. destruct (funded_in competition_id t) eqn:Hf; [|reflexivity].
    apply funded_in_true in Hf. contradiction.
  - intros id t Hid. rewrite Hs', lookup_fmap, Hid. simpl.
    unfold settle. destruct (funded_in competition_id t).
    + eexists. reflexivity.
    + exists (t_state t). destruct t; reflexivity.
  - transitivity
      (update_competition_winners competition_id choices winning_choice
         (stopped_after 3
            (update_competition_winners_statements competition_id choices
               winning_choice) s)).
    + f_equal. subst s'. rewrite update_competition_winners_as_statements.
      unfold stopped_after. rewrite take_ge; [reflexivity|].
      unfold update_competition_winners_statements.
      case_bool_decide; simpl; lia.
    + rewrite update_competition_winners_restart. exact Hrun.
  - intros n. rewrite update_competition_winners_restart. exact Hrun.
Qed.

Lemma update_competition_winners_frame_witness :
  let t st ch := mkTicket "w" "c1" 10 "lnurl" ch st 0 "" "" 7 in
  let s := mkStore {["t1" := t FUNDED 0; "t2" := t FUNDED 1;
                     "t3" := t INITIAL 1]} ∅ in
  update_competition_winners "c1" [] 1
    (stopped_after 2 (update_competition_winners_statements "c1" [] 1) s)
  = (mkStore {["t1" := t LOST 0; "t2" := t WON_UNPAID 1;
               "t3" := t INITIAL 1]} ∅, inr tt).
Proof.
  intros t s.
  destruct (update_competition_winners_frame "c1" [] 1 s)
    as (_ & _ & _ & _ & Hrestart).
  exact (eq_trans (Hrestart 2%nat) eq_refl).
Defined.

(** ** purge_expired_tickets *)

Lemma expired_true cid purge_time t :
  expired cid purge_time t = true
  ↔ t_competition t = cid ∧ t_state t = INITIAL ∧ t_time t < purge_time.
Proof.
  unfold expired. rewrite !andb_true_iff, !bool_decide_eq_true. tauto.
Qed.

(** The store a purge leaves and its result, by cases on the number of
    deleted rows and on the competition row. *)
Lemma purge_expired_tickets_run fuel now cid s :
  let cond := expired cid (now - TICKET_PURGE_TIME) in
  let kept := tickets_where (λ t, negb (cond t)) (tickets s) in
  let n := size (tickets_where cond (tickets s)) in
  purge_expired_tickets (S fuel) now cid s
  = if decide (n = 0%nat) then (set_tickets kept s, inr tt)
    else match competitions s !! cid with
         | Some c =>
             (mkStore kept
                (<[cid := set_c_amount_tickets
                            (c_amount_tickets c + Z.of_nat n) c]>
                   (competitions s)),
              inr tt)
         | None =>
             (set_tickets kept s,
              inl (AssertionError
                     "Couldn't get competition data for tickets being purged"))
         end.
Proof.
  intros cond kept n. unfold purge_expired_tickets.
  rewrite run_bind. unfold sql_delete_tickets_where. fold cond kept n.
  destruct (decide (n = 0%nat)) as [Hn|Hn].
  - rewrite bool_decide_eq_true_2 by lia. reflexivity.
  - rewrite bool_decide_eq_false_2 by lia.
    destruct (competitions s !! cid) as [c|] eqn:Hc.
    + apply while_true_break.
      unfold get_competition. rewrite run_bind. simpl. rewrite Hc.
      rewrite run_bind. simpl.
      erewrite run_bind_ok.
      2:{ apply (sql_update_competition_hit _ _ _ _ c); [exact Hc|].
          apply bool_decide_eq_true_2. reflexivity. }
      reflexivity.
    + apply while_true_raise.
      unfold get_competition. rewrite run_bind. simpl. rewrite Hc. reflexivity.
Qed.

Lemma purge_nothing_expired fuel now cid s :
  (∀ id t, tickets s !! id = Some t →
           expired cid (now - TICKET_PURGE_TIME) t = false) →
  purge_expired_tickets fuel now cid s = (s, inr tt).
Proof.
  intros Hnone. unfold purge_expired_tickets.
  rewrite run_bind. unfold sql_delete_tickets_where.
  assert (Hz : tickets_where (expired cid (now - TICKET_PURGE_TIME)) (tickets s) = ∅)
    by (apply tickets_where_empty_iff; exact Hnone).
  rewrite Hz, map_size_empty. simpl.
  unfold mret, M_ret, ret, set_tickets. f_equal.
  transitivity (mkStore (tickets s) (competitions s)); [|apply store_eta].
  f_equal. unfold tickets_where. apply map_filter_id. intros id t Hid. simpl.
  rewrite (Hnone id t Hid). exact I.
Qed.

Lemma set_c_amount_tickets_same c :
  set_c_amount_tickets (c_amount_tickets c) c = c.
Proof. destruct c; reflexivity. Qed.

Lemma tickets_where_and p q (m : gmap string Ticket) :
  tickets_where p (tickets_where q m) = tickets_where (λ t, p t && q t) m.
Proof.
  unfold tickets_where. rewrite map_filter_filter.
  apply map_filter_ext. intros id t _. simpl. rewrite andb_True. reflexivity.
Qed.






(** ** set_ticket_funded *)

Lemma py_index_lt {A} (l : list A) (i : Z) (k : nat) :
  py_index l i = Some k → (k < length l)%nat.
Proof.
  unfold py_index. repeat case_bool_decide; intros [= <-]; lia.
Qed.

Lemma py_index_nonneg {A} (l : list A) (i : Z) :
  0 ≤ i < Z.of_nat (length l) → py_index l i = Some (Z.to_nat i).
Proof. intros H. unfold py_index. rewrite bool_decide_eq_true_2; done. Qed.

Lemma cas_ticket_state_hit id old new s t :
  tickets s !! id = Some t → t_state t = old →
  cas_ticket_state id old new s
  = (set_tickets (<[id := set_t_state new t]> (tickets s)) s, inr true).
Proof.
  intros Hid Hst. unfold cas_ticket_state, sql_update_ticket.
  rewrite run_bind, Hid, (bool_decide_eq_true_2 _ Hst). reflexivity.
Qed.

Lemma cas_ticket_state_miss id old new s t :
  tickets s !! id = Some t → t_state t ≠ old →
  cas_ticket_state id old new s = (s, inr false).
Proof.
  intros Hid Hst. unfold cas_ticket_state, sql_update_ticket.
  rewrite run_bind, Hid, (bool_decide_eq_false_2 _ Hst). reflexivity.
Qed.

(** The first funding of an INITIAL ticket whose competition exists. *)
Lemma set_ticket_funded_run fuel id s t c :
  tickets s !! id = Some t → t_state t = INITIAL →
  competitions s !! t_competition t = Some c →
  set_ticket_funded (S fuel) id s
  = let s0 := set_tickets (<[id := set_t_state FUNDED t]> (tickets s)) s in
    if decide (c_state c = INITIAL) then
      match py_index (c_choices c) (t_choice t) with
      | Some k =>
          (set_competitions
             (<[t_competition t :=
                  set_c_choices
                    (alter (add_total (t_amount t)) k (c_choices c))
                    (set_c_sold (c_sold c + 1) c)]> (competitions s)) s0,
           inr tt)
      | None => (s0, inl IndexError)
      end
    else (s0, inr tt).
Proof.
  intros Hid Hst Hc. unfold set_ticket_funded.
  erewrite run_bind_ok by (apply cas_ticket_state_hit; eassumption).
  simpl. unfold get_ticket at 1. rewrite run_bind. simpl.
  rewrite lookup_insert_eq. rewrite run_bind. simpl.
  set (s0 := set_tickets (<[id := set_t_state FUNDED t]> (tickets s)) s).
  assert (Hc0 : competitions s0 !! t_competition t = Some c) by exact Hc.
  destruct (decide (c_state c = INITIAL)) as [Hini|Hini].
  - destruct (py_index (c_choices c) (t_choice t)) as [k|] eqn:Hk.
    + apply while_true_break.
      unfold get_competition. rewrite run_bind. simpl. rewrite Hc.
      rewrite run_bind. simpl.
      rewrite (bool_decide_eq_false_2 (c_state c ≠ INITIAL)) by tauto.
      unfold add_to_choice. rewrite Hk. rewrite run_bind. simpl.
      erewrite run_bind_ok.
      2:{ apply (sql_update_competition_hit _ _ _ _ c); [exact Hc0|].
          rewrite (bool_decide_eq_true_2 _ Hini), andb_true_r.
          apply bool_decide_eq_true_2. reflexivity. }
      reflexivity.
    + apply while_true_raise.
      unfold get_competition. rewrite run_bind. simpl. rewrite Hc.
      rewrite run_bind. simpl.
      rewrite (bool_decide_eq_false_2 (c_state c ≠ INITIAL)) by tauto.
      unfold add_to_choice. rewrite Hk. reflexivity.
  - apply while_true_break.
    unfold get_competition. rewrite run_bind. simpl. rewrite Hc.
    rewrite run_bind. simpl.
    rewrite (bool_decide_eq_true_2 (c_state c ≠ INITIAL)) by exact Hini.
    reflexivity.
Qed.

(** A ticket that is not INITIAL is not funded again. *)
Lemma set_ticket_funded_again fuel id s t :
  tickets s !! id = Some t → t_state t ≠ INITIAL →
  set_ticket_funded fuel id s = (s, inr tt).
Proof.
  intros Hid Hst. unfold set_ticket_funded.
  erewrite run_bind_ok by (eapply cas_ticket_state_miss; eassumption).
  reflexivity.
Qed.

(** C2: for an INITIAL ticket whose competition exists (and, when that
    competition is INITIAL, whose choice indexes its choices list), the
    first [set_ticket_funded] returns normally, moves the ticket to FUNDED
    and changes nothing else of it; while the competition is INITIAL it
    adds 1 to sold and the ticket's amount to the total of choices[choice]
    and changes no other field, choice or competition, and otherwise it
    leaves every competition as it was. Every later call, alone or in a
    sequence of any length, leaves the store of the first call unchanged. *)
Theorem set_ticket_funded_exactly_once
    (fuel : nat) (ticket_id : string) (s : Store) (t : Ticket)
    (c : Competition) :
  tickets s !! ticket_id = Some t →
  t_state t = INITIAL →
  competitions s !! t_competition t = Some c →
  (c_state c = INITIAL → is_Some (py_index (c_choices c) (t_choice t))) →
  ∃ s1 c1,
    set_ticket_funded (S fuel) ticket_id s = (s1, inr tt)
    ∧ tickets s1 = <[ticket_id := set_t_state FUNDED t]> (tickets s)
    ∧ competitions s1 = <[t_competition t := c1]> (competitions s)
    ∧ (c_state c = INITIAL →
         c_sold c1 = c_sold c + 1
         ∧ (∃ k ch,
              py_index (c_choices c) (t_choice t) = Some k
              ∧ c_choices c !! k = Some ch
              ∧ c_choices c1
                = <[k := mkChoice (title ch) (total ch + t_amount t)]>
                    (c_choices c))
         ∧ set_c_choices (c_choices c) (set_c_sold (c_sold c) c1) = c)
    ∧ (c_state c ≠ INITIAL → c1 = c)
    ∧ (∀ fuel', set_ticket_funded fuel' ticket_id s1 = (s1, inr tt))
    ∧ (∀ n, repeat_call (S n) (set_ticket_funded (S fuel) ticket_id) s
            = (s1, inr tt)).
Proof.
  intros Hid Hst Hc Hidx.
  pose proof (set_ticket_funded_run fuel ticket_id s t c Hid Hst Hc) as Hrun.
  cbv zeta in Hrun.
  assert (Hlater : ∀ s1,
            tickets s1 = <[ticket_id := set_t_state FUNDED t]> (tickets s) →
            ∀ fuel', set_ticket_funded fuel' ticket_id s1 = (s1, inr tt)).
  { intros s1 Ht fuel'.
    apply (set_ticket_funded_again _ _ _ (set_t_state FUNDED t)).
    - rewrite Ht. apply lookup_insert_eq.
    - discriminate. }
  assert (Hrepeat : ∀ s1,
            set_ticket_funded (S fuel) ticket_id s = (s1, inr tt) →
            tickets s1 = <[ticket_id := set_t_state FUNDED t]> (tickets s) →
            ∀ n, repeat_call (S n) (set_ticket_funded (S fuel) ticket_id) s
                 = (s1, inr tt)).
  { intros s1 H1 Ht n. simpl. erewrite run_bind_ok by exact H1.
    apply repeat_call_noop. apply Hlater. exact Ht. }
  destruct (decide (c_state c = INITIAL)) as [Hini|Hini].
  - destruct (Hidx Hini) as [k Hk]. rewrite Hk in Hrun.
    destruct (lookup_lt_is_Some_2 (c_choices c) k (py_index_lt _ _ _ Hk))
      as [ch Hch].
    eexists _, _. split; [exact Hrun|].
    split; [reflexivity|]. split; [reflexivity|].
    split; [|split; [|split]].
    + intros _. split; [reflexivity|]. split.
      * exists k, ch. split; [exact Hk|]. split; [exact Hch|]. simpl.
        apply list_eq. intros j. destruct (decide (k = j)) as [<-|Hne].
        -- rewrite list_lookup_alter_eq, Hch.
           rewrite list_lookup_insert_eq by (eapply lookup_lt_Some; exact Hch).
           reflexivity.
        -- rewrite list_lookup_alter_ne, list_lookup_insert_ne by exact Hne.
           reflexivity.
      * destruct c; reflexivity.
    + intros Hn. contradiction.
    + apply Hlater. reflexivity.
    + apply Hrepeat; [exact Hrun|reflexivity].
  - exists (set_tickets (<[ticket_id := set_t_state FUNDED t]> (tickets s)) s), c.
    split; [exact Hrun|]. split; [reflexivity|].
    split; [simpl; symmetry; apply insert_id; exact Hc|].
    split; [intros Hn; contradiction|]. split; [reflexivity|].
    split; [apply Hlater; reflexivity|apply Hrepeat; [exact Hrun|reflexivity]].
Qed.

Lemma set_ticket_funded_exactly_once_witness :
  let t := mkTicket "w" "c1" 10 "lnurl" 1 INITIAL 0 "" "" 7 in
  let c := mkCompetition "w" "r" "n" "i" "b" "d" 3 1 9 0
             [mkChoice "A" 0; mkChoice "B" 5] (-1) INITIAL 0 in
  let s := mkStore {["t1" := t]} {["c1" := c]} in
  ∃ s1 c1,
    repeat_call 3 (set_ticket_funded 1 "t1") s = (s1, inr tt)
    ∧ competitions s1 = <["c1" := c1]> (competitions s)
    ∧ c_sold c1 = 1
    ∧ c_choices c1 = [mkChoice "A" 0; mkChoice "B" 15].
Proof.
  intros t c s.
  destruct (set_ticket_funded_exactly_once 0 "t1" s t c eq_refl eq_refl eq_refl
              (λ _, ex_intro _ 1%nat eq_refl))
    as (s1 & c1 & _ & _ & Hcomp & Hfold & _ & _ & Hrep).
  exists s1, c1. split; [exact (Hrep 2%nat)|]. split; [exact Hcomp|].
  destruct (Hfold eq_refl) as (Hsold & (k & ch & Hk & Hch & Hchoices) & _).
  split; [exact Hsold|].
  injection Hk as <-. injection Hch as <-. exact Hchoices.
Defined.

(** ** What is kept on every path *)

Section Preserves.
Context (I : Store → Prop).

Lemma preserves_ret {A} (a : A) : preserves I (mret a).
Proof. intros s Hs. exact Hs. Qed.

Lemma preserves_raise {A} (e : Error) : preserves I (@raise A e).
Proof. intros s Hs. exact Hs. Qed.

Lemma preserves_bind {A B} (m : M A) (k : A → M B) :
  preserves I m → (∀ a, preserves I (k a)) → preserves I (m ≫= k).
Proof.
  intros Hm Hk s Hs. rewrite run_bind. specialize (Hm s Hs).
  destruct (m s) as [s' [e|a]]; simpl in *; [exact Hm|].
  apply Hk. exact Hm.
Qed.

Lemma preserves_assert_some {A} (o : option A) msg :
  preserves I (assert_some o msg).
Proof. intros s Hs. destruct o; exact Hs. Qed.

Lemma preserves_while_true fuel (body : M bool) :
  preserves I body → preserves I (while_true fuel body).
Proof.
  intros Hb. induction fuel as [|fuel IH]; [apply preserves_raise|].
  simpl. apply preserves_bind; [exact Hb|].
  intros [|]; [apply (preserves_ret tt)|exact IH].
Qed.

Lemma preserves_get_ticket id : preserves I (get_ticket id).
Proof. intros s Hs. exact Hs. Qed.

Lemma preserves_get_competition id : preserves I (get_competition id).
Proof. intros s Hs. exact Hs. Qed.

Lemma preserves_add_to_choice choices choice amount :
  preserves I (add_to_choice choices choice amount).
Proof.
  intros s Hs. unfold add_to_choice.
  destruct (py_index choices choice); exact Hs.
Qed.
End Preserves.

(** Statements on the ticket table keep every property that only reads the
    competition table. *)
Section CompetitionsKept.
Context (I : Store → Prop).
Context (HI : ∀ s s', competitions s' = competitions s → I s → I s').

Lemma kept_sql_insert_ticket id t : preserves I (sql_insert_ticket id t).
Proof.
  intros s Hs. unfold sql_insert_ticket.
  destruct (tickets s !! id); [exact Hs|]. eapply HI; [|exact Hs]. reflexivity.
Qed.

Lemma kept_sql_update_ticket id cond upd :
  preserves I (sql_update_ticket id cond upd).
Proof.
  intros s Hs. unfold sql_update_ticket.
  destruct (tickets s !! id) as [t|]; [destruct (cond t)|]; try exact Hs.
  eapply HI; [|exact Hs]. reflexivity.
Qed.

Lemma kept_sql_delete_tickets_where cond :
  preserves I (sql_delete_tickets_where cond).
Proof. intros s Hs. eapply HI; [|exact Hs]. reflexivity. Qed.

Lemma kept_sql_update_tickets_where cond upd :
  preserves I (sql_update_tickets_where cond upd).
Proof. intros s Hs. eapply HI; [|exact Hs]. reflexivity. Qed.
End CompetitionsKept.

(** A competition UPDATE keeps a row it does not select, and a row it maps
    to an acceptable row. *)
Lemma preserves_sql_update_competition (R : Competition → Prop) cid id cond upd :
  (id = cid → ∀ c, R c → cond c = true → R (upd c)) →
  preserves (λ s, ∃ c, competitions s !! cid = Some c ∧ R c)
    (sql_update_competition id cond upd).
Proof.
  intros Hupd s (c & Hc & HR). unfold sql_update_competition.
  destruct (competitions s !! id) as [c0|] eqn:Hc0; [|exists c; auto].
  destruct (cond c0) eqn:Hcond; [|exists c; auto].
  simpl. destruct (decide (id = cid)) as [->|Hne].
  - rewrite lookup_insert_eq. exists (upd c0). split; [reflexivity|].
    assert (c0 = c) by congruence. subst c0. apply Hupd; auto.
  - rewrite lookup_insert_ne by exact Hne. exists c; auto.
Qed.

Ltac preserves_step HI :=
  first
    [ apply preserves_bind; [|intros ?]
    | apply preserves_ret
    | apply preserves_raise
    | apply preserves_assert_some
    | apply preserves_while_true
    | apply preserves_get_ticket
    | apply preserves_get_competition
    | apply preserves_add_to_choice
    | apply kept_sql_insert_ticket; exact HI
    | apply kept_sql_update_ticket; exact HI
    | apply kept_sql_delete_tickets_where; exact HI
    | apply kept_sql_update_tickets_where; exact HI
    | match goal with
      | |- preserves _ (if ?b then _ else _) => destruct b
      end ].

Lemma row_property_reads_competitions (R : Competition → Prop) cid s s' :
  competitions s' = competitions s →
  (∃ c, competitions s !! cid = Some c ∧ R c) →
  (∃ c, competitions s' !! cid = Some c ∧ R c).
Proof. intros ->. trivial. Qed.

(** The rows of competitions that have left INITIAL. *)
Section NotInitial.
Context (cid : string) (c : Competition) (Hstate : c_state c ≠ INITIAL).
Let I : Store → Prop :=
  λ s, ∃ c', competitions s !! cid = Some c' ∧ c' = c.
Let HI : ∀ s s', competitions s' = competitions s → I s → I s' :=
  row_property_reads_competitions (λ c', c' = c) cid.

Lemma gated_update_keeps id (cond : Competition → bool) upd :
  (∀ c', cond c' = true → c_state c' = INITIAL) →
  preserves I (sql_update_competition id cond upd).
Proof.
  intros Hgate. apply preserves_sql_update_competition.
  intros _ c' -> Hcond. apply Hgate in Hcond. contradiction.
Qed.

Lemma create_ticket_keeps fuel now ticket_id wallet competition amount
    reward_target choice :
  preserves I (create_ticket fuel now ticket_id wallet competition amount
                 reward_target choice).
Proof.
  unfold create_ticket. repeat preserves_step HI.
  apply gated_update_keeps. intros c' Hc'.
  apply andb_true_iff in Hc' as [_ Hc']. apply bool_decide_eq_true in Hc'.
  exact Hc'.
Qed.

Lemma set_ticket_funded_keeps fuel ticket_id :
  preserves I (set_ticket_funded fuel ticket_id).
Proof.
  unfold set_ticket_funded, cas_ticket_state. repeat preserves_step HI.
  apply gated_update_keeps. intros c' Hc'.
  apply andb_true_iff in Hc' as [_ Hc']. apply bool_decide_eq_true in Hc'.
  exact Hc'.
Qed.

Lemma update_competition_keeps competition_id data :
  preserves I (update_competition competition_id data).
Proof.
  unfold update_competition. repeat preserves_step HI.
  apply gated_update_keeps. intros c' Hc'.
  apply bool_decide_eq_true in Hc'. exact Hc'.
Qed.
End NotInitial.

(** A purge writes no column of a competition other than amount_tickets. *)
Lemma purge_expired_tickets_keeps cid c fuel now competition_id :
  preserves
    (λ s, ∃ c', competitions s !! cid = Some c'
                ∧ set_c_amount_tickets (c_amount_tickets c) c' = c)
    (purge_expired_tickets fuel now competition_id).
Proof.
  pose proof (row_property_reads_competitions
                (λ c', set_c_amount_tickets (c_amount_tickets c) c' = c) cid)
    as HI.
  unfold purge_expired_tickets. repeat preserves_step HI.
  apply (preserves_sql_update_competition
           (λ c', set_c_amount_tickets (c_amount_tickets c) c' = c)).
  intros _ c' Hc' _. rewrite <- Hc'. reflexivity.
Qed.

(** C5 (as stated, refuted): [set_winning_choice] on a competition that has
    left INITIAL changes its winning_choice. *)
Lemma set_winning_choice_not_gated :
  let c := mkCompetition "w" "r" "n" "i" "b" "d" 3 1 9 2
             [mkChoice "A" 10; mkChoice "B" 10] (-1) "CLOSED" 0 in
  let s := mkStore ∅ {["c1" := c]} in
  ¬ (competitions s !! "c1" = Some c → c_state c ≠ INITIAL →
     ∀ c', competitions (run_op (OpSetWinningChoice "c1" 1) s) !! "c1" = Some c' →
           c_winning_choice c' = c_winning_choice c).
Proof.
  intros c s H.
  specialize (H eq_refl ltac:(discriminate) (set_c_winning_choice 1 c) eq_refl).
  discriminate H.
Qed.

(** C5 (amended): for a competition whose state is not INITIAL, no
    operation changes state or sold; [create_ticket], [set_ticket_funded]
    and [update_competition] leave the whole row unchanged, whether they
    return or raise. [update_competition_winners] and [set_winning_choice]
    are not gated by the state: called for that competition they overwrite
    choices and winning_choice (respectively winning_choice) with their
    arguments and leave amount_tickets unchanged; called for another
    competition they leave the row unchanged. [purge_expired_tickets]
    leaves choices and winning_choice unchanged. *)
Theorem non_initial_competition_frame
    (o : Op) (s : Store) (cid : string) (c : Competition) :
  competitions s !! cid = Some c →
  c_state c ≠ INITIAL →
  ∃ c',
    competitions (run_op o s) !! cid = Some c'
    ∧ c_state c' = c_state c
    ∧ c_sold c' = c_sold c
    ∧ match o with
      | OpCreateTicket _ _ _ _ _ _ _ _
      | OpSetTicketFunded _ _
      | OpUpdateCompetition _ _ => c' = c
      | OpPurgeExpiredTickets _ _ _ =>
          c_choices c' = c_choices c
          ∧ c_winning_choice c' = c_winning_choice c
      | OpUpdateCompetitionWinners competition_id choices winning_choice =>
          c_amount_tickets c' = c_amount_tickets c
          ∧ (competition_id = cid →
             c_choices c' = choices ∧ c_winning_choice c' = winning_choice)
          ∧ (competition_id ≠ cid → c' = c)
      | OpSetWinningChoice competition_id winning_choice =>
          c_amount_tickets c' = c_amount_tickets c
          ∧ c_choices c' = c_choices c
          ∧ (competition_id = cid → c_winning_choice c' = winning_choice)
          ∧ (competition_id ≠ cid → c' = c)
      end.
Proof.
  intros Hc Hstate.
  assert (Hsame : ∃ c', competitions s !! cid = Some c' ∧ c' = c)
    by (exists c; auto).
  destruct o as [fuel now ticket_id wallet competition amount reward_target choice
                |fuel ticket_id|fuel now competition_id|competition_id data
                |competition_id choices winning_choice
                |competition_id winning_choice]; simpl.
  - destruct (create_ticket_keeps cid c Hstate fuel now ticket_id wallet
                competition amount reward_target choice s Hsame)
      as (c' & Hc' & ->).
    exists c. auto.
  - destruct (set_ticket_funded_keeps cid c Hstate fuel ticket_id s Hsame)
      as (c' & Hc' & ->).
    exists c. auto.
  - destruct (purge_expired_tickets_keeps cid c fuel now competition_id s)
      as (c' & Hc' & Hrest).
    { exists c. split; [exact Hc|]. apply set_c_amount_tickets_same. }
    exists c'. split; [exact Hc'|]. rewrite <- Hrest. auto.
  - destruct (update_competition_keeps cid c Hstate competition_id data s Hsame)
      as (c' & Hc' & ->).
    exists c. auto.
  - rewrite update_competition_winners_run. simpl.
    destruct (decide (competition_id = cid)) as [->|Hne].
    + rewrite lookup_alter_eq, Hc. simpl. eexists. split; [reflexivity|].
      simpl. repeat split; auto; intros; congruence.
    + rewrite lookup_alter_ne by exact Hne. exists c.
      repeat split; auto; intros; congruence.
  - unfold set_winning_choice.
    erewrite run_bind_ok by apply sql_update_competition_always. simpl.
    destruct (decide (competition_id = cid)) as [->|Hne].
    + rewrite lookup_alter_eq, Hc. simpl. eexists. split; [reflexivity|].
      simpl. repeat split; auto; intros; congruence.
    + rewrite lookup_alter_ne by exact Hne. exists c.
      repeat split; auto; intros; congruence.
Qed.

Lemma non_initial_competition_frame_witness :
  let c := mkCompetition "w" "r" "n" "i" "b" "d" 3 1 9 2
             [mkChoice "A" 10; mkChoice "B" 10] (-1) "CLOSED" 0 in
  let s := mkStore ∅ {["c1" := c]} in
  ∃ c', competitions
          (run_op (OpCreateTicket 1 7 "t1" "w" "c1" 10 "lnurl" 0) s) !! "c1"
        = Some c'
        ∧ c' = c.
Proof.
  intros c s.
  destruct (non_initial_competition_frame
              (OpCreateTicket 1 7 "t1" "w" "c1" 10 "lnurl" 0) s "c1" c eq_refl
              ltac:(discriminate))
    as (c' & Hc' & _ & _ & Hsame).
  exists c'. split; [exact Hc'|exact Hsame].
Defined.

(** ** create_ticket and the inventory *)

(** One call with a new ticket id on an INITIAL competition: the ticket is
    inserted and amount_tickets goes down by one, whatever its value. *)
Lemma create_ticket_for_run fuel now r s c :
  tickets s !! tr_ticket_id r = None →
  competitions s !! tr_competition r = Some c →
  c_state c = INITIAL →
  create_ticket_for (S fuel) now r s
  = (mkStore (<[tr_ticket_id r := new_ticket now r]> (tickets s))
       (<[tr_competition r :=
            set_c_amount_tickets (c_amount_tickets c - 1) c]> (competitions s)),
     inr (new_ticket now r)).
Proof.
  intros Ht Hc Hini. unfold create_ticket_for, create_ticket.
  erewrite run_bind_ok by (apply sql_insert_ticket_fresh; exact Ht).
  fold (new_ticket now r).
  set (s0 := set_tickets (<[tr_ticket_id r := new_ticket now r]> (tickets s)) s).
  erewrite run_bind_ok.
  2:{ apply while_true_break.
      unfold get_competition. rewrite run_bind. simpl. rewrite Hc.
      rewrite run_bind. simpl.
      rewrite (bool_decide_eq_false_2 (c_state c ≠ INITIAL)) by tauto.
      erewrite run_bind_ok.
      2:{ apply (sql_update_competition_hit _ _ _ _ c); [exact Hc|].
          rewrite (bool_decide_eq_true_2 _ Hini), andb_true_r.
          apply bool_decide_eq_true_2. reflexivity. }
      reflexivity. }
  unfold get_ticket. rewrite run_bind. simpl.
  rewrite lookup_insert_eq. reflexivity.
Qed.

Lemma set_c_amount_tickets_twice v w c :
  set_c_amount_tickets v (set_c_amount_tickets w c) = set_c_amount_tickets v c.
Proof. reflexivity. Qed.

(** Sequential calls with new, distinct ticket ids on an INITIAL
    competition all return, and each of them takes one from
    amount_tickets. *)
Lemma create_tickets_run fuel now cid requests : ∀ s c,
  competitions s !! cid = Some c →
  c_state c = INITIAL →
  Forall (λ r, tr_competition r = cid ∧ tickets s !! tr_ticket_id r = None)
    requests →
  NoDup (tr_ticket_id <$> requests) →
  ∃ s',
    create_tickets (S fuel) now requests s = (s', inr tt)
    ∧ competitions s'
      = <[cid := set_c_amount_tickets
                   (c_amount_tickets c - Z.of_nat (length requests)) c]>
          (competitions s)
    ∧ (∀ r, r ∈ requests →
            tickets s' !! tr_ticket_id r = Some (new_ticket now r))
    ∧ (∀ id, id ∉ tr_ticket_id <$> requests →
             tickets s' !! id = tickets s !! id).
Proof.
  induction requests as [|r requests IH]; intros s c Hc Hini Hall Hdup.
  - exists s. split; [reflexivity|]. split; [|split].
    + simpl. rewrite Z.sub_0_r, set_c_amount_tickets_same.
      symmetry. apply insert_id. exact Hc.
    + intros r Hr. apply elem_of_nil in Hr. destruct Hr.
    + reflexivity.
  - apply Forall_cons in Hall as [[Hcid Hfresh] Hall].
    rewrite fmap_cons in Hdup. apply NoDup_cons in Hdup as [Hnotin Hdup].
    subst cid.
    pose proof (create_ticket_for_run fuel now r s c Hfresh Hc Hini) as Hrun.
    set (s1 := mkStore (<[tr_ticket_id r := new_ticket now r]> (tickets s))
                 (<[tr_competition r :=
                      set_c_amount_tickets (c_amount_tickets c - 1) c]>
                    (competitions s))) in *.
    destruct (IH s1 (set_c_amount_tickets (c_amount_tickets c - 1) c))
      as (s' & Hrest & Hcomp & Hnew & Hold).
    + apply lookup_insert_eq.
    + exact Hini.
    + apply Forall_forall. intros r' Hr'.
      rewrite Forall_forall in Hall. destruct (Hall r' Hr') as [Hc' Hf'].
      split; [exact Hc'|]. simpl. rewrite lookup_insert_ne; [exact Hf'|].
      intros Heq. apply Hnotin. rewrite Heq.
      apply list_elem_of_fmap. exists r'. auto.
    + exact Hdup.
    + exists s'. split; [|split; [|split]].
      * simpl. erewrite run_bind_ok by exact Hrun. exact Hrest.
      * rewrite Hcomp. simpl. rewrite insert_insert_eq. f_equal.
        rewrite set_c_amount_tickets_twice. f_equal. lia.
      * intros r' Hr'. apply elem_of_cons in Hr' as [->|Hr'].
        -- rewrite (Hold _ Hnotin). apply lookup_insert_eq.
        -- apply Hnew. exact Hr'.
      * intros id Hid. rewrite fmap_cons in Hid.
        apply not_elem_of_cons in Hid as [Hne Hid].
        rewrite (Hold _ Hid). simpl. apply lookup_insert_ne. congruence.
Qed.

(** *** One call, statement by statement *)

Section StepCall.
Context (k : Call) (s : Store).
Let r := k_request k.

Lemma step_insert_fresh :
  k_point k = AtInsert → tickets s !! tr_ticket_id r = None →
  step_call k s
  = (set_tickets (<[tr_ticket_id r := new_ticket (k_now k) r]> (tickets s)) s,
     at_point AtRead k).
Proof.
  intros Hp Ht. unfold step_call. rewrite Hp. fold r.
  rewrite (sql_insert_ticket_fresh _ _ _ Ht). reflexivity.
Qed.

Lemma step_insert_taken t0 :
  k_point k = AtInsert → tickets s !! tr_ticket_id r = Some t0 →
  step_call k s = (s, at_point (Finished (inl IntegrityError)) k).
Proof.
  intros Hp Ht. unfold step_call. rewrite Hp. fold r.
  rewrite (sql_insert_ticket_taken _ _ _ _ Ht). reflexivity.
Qed.

Lemma step_read_missing :
  k_point k = AtRead → competitions s !! tr_competition r = None →
  step_call k s
  = (s, at_point
          (Finished (inl (AssertionError
             "Couldn't get competition from ticket being created"))) k).
Proof.
  intros Hp Hc. unfold step_call. rewrite Hp. fold r.
  unfold get_competition. rewrite run_bind. simpl. rewrite Hc. reflexivity.
Qed.

Lemma step_read_closed c :
  k_point k = AtRead → competitions s !! tr_competition r = Some c →
  c_state c ≠ INITIAL →
  step_call k s = (s, at_point AtFetch k).
Proof.
  intros Hp Hc Hst. unfold step_call. rewrite Hp. fold r.
  unfold get_competition. rewrite run_bind. simpl. rewrite Hc. simpl.
  rewrite (bool_decide_eq_true_2 _ Hst). reflexivity.
Qed.

Lemma step_read_open c :
  k_point k = AtRead → competitions s !! tr_competition r = Some c →
  c_state c = INITIAL →
  step_call k s = (s, at_point (AtUpdate c) k).
Proof.
  intros Hp Hc Hst. unfold step_call. rewrite Hp. fold r.
  unfold get_competition. rewrite run_bind. simpl. rewrite Hc. simpl.
  rewrite (bool_decide_eq_false_2 (c_state c ≠ INITIAL)) by tauto.
  reflexivity.
Qed.

Lemma step_update_hit competitiondata c :
  k_point k = AtUpdate competitiondata →
  competitions s !! tr_competition r = Some c →
  c_amount_tickets c = c_amount_tickets competitiondata →
  c_state c = INITIAL →
  step_call k s
  = (set_competitions
       (<[tr_competition r :=
            set_c_amount_tickets (c_amount_tickets c - 1) c]>
          (competitions s)) s,
     applied_once k).
Proof.
  intros Hp Hc Ha Hst. unfold step_call. rewrite Hp. fold r.
  erewrite sql_update_competition_hit; [|exact Hc|].
  - simpl. rewrite Ha. reflexivity.
  - rewrite (bool_decide_eq_true_2 _ Ha), (bool_decide_eq_true_2 _ Hst).
    reflexivity.
Qed.

Lemma step_update_miss competitiondata :
  k_point k = AtUpdate competitiondata →
  (∀ c, competitions s !! tr_competition r = Some c →
        ¬ (c_amount_tickets c = c_amount_tickets competitiondata
           ∧ c_state c = INITIAL)) →
  step_call k s = (s, at_point AtRead k).
Proof.
  intros Hp Hmiss. unfold step_call. rewrite Hp. fold r.
  unfold sql_update_competition.
  destruct (competitions s !! tr_competition r) as [c|] eqn:Hc;
    [|reflexivity].
  specialize (Hmiss c eq_refl).
  destruct (bool_decide (c_amount_tickets c = c_amount_tickets competitiondata)
            && bool_decide (c_state c = INITIAL)) eqn:Hb; [|reflexivity].
  apply andb_true_iff in Hb as [H1 H2].
  apply bool_decide_eq_true in H1, H2. tauto.
Qed.

Lemma step_fetch :
  k_point k = AtFetch →
  step_call k s
  = (s, at_point
          (Finished
             match tickets s !! tr_ticket_id r with
             | Some t => inr t
             | None => inl (AssertionError
                              "Newly created ticket couldn't be retrieved")
             end) k).
Proof.
  intros Hp. unfold step_call. rewrite Hp. fold r.
  unfold get_ticket. rewrite run_bind. simpl.
  destruct (tickets s !! tr_ticket_id r); reflexivity.
Qed.

Lemma step_finished result :
  k_point k = Finished result → step_call k s = (s, k).
Proof. intros Hp. unfold step_call. rewrite Hp. reflexivity. Qed.
End StepCall.

Lemma create_ticket_for_missing_competition fuel now r s :
  competitions s !! tr_competition r = None →
  tickets s !! tr_ticket_id r = None →
  fst (create_ticket_for (S fuel) now r s)
  = set_tickets (<[tr_ticket_id r := new_ticket now r]> (tickets s)) s
  ∧ snd (create_ticket_for (S fuel) now r s)
    = inl (AssertionError "Couldn't get competition from ticket being created").
Proof.
  intros Hc Ht. unfold create_ticket_for, create_ticket.
  erewrite run_bind_ok by (apply sql_insert_ticket_fresh; exact Ht).
  erewrite run_bind_raise; [split; reflexivity|].
  apply while_true_raise.
  unfold get_competition. rewrite run_bind. simpl. rewrite Hc. reflexivity.
Qed.

(** Alone on the store, the four statements of a call are the call. *)
Lemma steps_alone_create_ticket fuel now r s :
  let σ := steps_alone 4 (start_call now r) s in
  fst σ = fst (create_ticket_for (S fuel) now r s)
  ∧ k_point (snd σ) = Finished (snd (create_ticket_for (S fuel) now r s)).
Proof.
  unfold start_call. simpl.
  destruct (tickets s !! tr_ticket_id r) as [t0|] eqn:Ht.
  { (* the ticket id is in use *)
    erewrite step_insert_taken by (reflexivity || exact Ht). simpl.
    unfold create_ticket_for, create_ticket.
    erewrite run_bind_raise by (eapply sql_insert_ticket_taken; exact Ht).
    split; reflexivity. }
  erewrite step_insert_fresh by (reflexivity || exact Ht). simpl.
  set (s0 := set_tickets (<[tr_ticket_id r := new_ticket now r]> (tickets s)) s).
  assert (Hs0 : tickets s0 !! tr_ticket_id r = Some (new_ticket now r))
    by apply lookup_insert_eq.
  destruct (competitions s !! tr_competition r) as [c|] eqn:Hc.
  2:{ (* the competition does not exist *)
    erewrite step_read_missing by (reflexivity || exact Hc). simpl.
    destruct (create_ticket_for_missing_competition fuel now r s Hc Ht)
      as [-> ->]. split; reflexivity. }
  destruct (decide (c_state c = INITIAL)) as [Hst|Hst].
  - erewrite step_read_open by (reflexivity || eassumption). simpl.
    erewrite step_update_hit by (reflexivity || eassumption). simpl.
    erewrite step_fetch by reflexivity. simpl. rewrite lookup_insert_eq.
    rewrite (create_ticket_for_run fuel now r s c Ht Hc Hst). split; reflexivity.
  - erewrite step_read_closed by (reflexivity || eassumption). simpl.
    erewrite step_fetch by reflexivity. simpl. rewrite lookup_insert_eq.
    unfold create_ticket_for, create_ticket.
    erewrite run_bind_ok by (apply sql_insert_ticket_fresh; exact Ht).
    fold (new_ticket now r). fold s0.
    erewrite run_bind_ok.
    2:{ apply while_true_break.
        unfold get_competition. rewrite run_bind. simpl. rewrite Hc.
        rewrite run_bind. simpl.
        rewrite (bool_decide_eq_true_2 _ Hst). reflexivity. }
    unfold get_ticket. rewrite run_bind. simpl. rewrite lookup_insert_eq.
    split; reflexivity.
Qed.

(** *** Interleavings *)

Lemma decrements_applied_as_sum cid ks :
  decrements_applied cid ks = sum_list (decrement_of cid <$> ks).
Proof. reflexivity. Qed.

Lemma sum_list_insert (l : list nat) i x y :
  l !! i = Some x → (sum_list (<[i := y]> l) + x = sum_list l + y)%nat.
Proof.
  revert i. induction l as [|z l IH]; intros i Hi; [discriminate Hi|].
  destruct i as [|i]; simpl in *.
  - injection Hi as ->. lia.
  - specialize (IH i Hi). lia.
Qed.

Lemma decrements_applied_insert cid ks i k k' :
  ks !! i = Some k →
  (decrements_applied cid (<[i := k']> ks) + decrement_of cid k
   = decrements_applied cid ks + decrement_of cid k')%nat.
Proof.
  intros Hi. rewrite !decrements_applied_as_sum, list_fmap_insert.
  apply sum_list_insert. rewrite list_lookup_fmap, Hi. reflexivity.
Qed.

Lemma set_c_amount_tickets_sub_0 c :
  set_c_amount_tickets (c_amount_tickets c - Z.of_nat 0) c = c.
Proof. simpl. rewrite Z.sub_0_r. apply set_c_amount_tickets_same. Qed.

(** One statement of one call: it takes from amount_tickets exactly what it
    adds to the call's count of applied decrements (0 or 1). *)
Lemma step_call_decrement cid c0 k s :
  competitions s !! cid = Some c0 → c_state c0 = INITIAL →
  call_consistent cid k →
  ∃ δ : nat,
    competitions (step_call k s).1 !! cid
    = Some (set_c_amount_tickets (c_amount_tickets c0 - Z.of_nat δ) c0)
    ∧ decrement_of cid (step_call k s).2 = (decrement_of cid k + δ)%nat
    ∧ call_consistent cid (step_call k s).2.
Proof.
  intros Hc0 Hini Hk.
  assert (Hsame : competitions s !! cid
                  = Some (set_c_amount_tickets
                            (c_amount_tickets c0 - Z.of_nat 0) c0))
    by (rewrite set_c_amount_tickets_sub_0; exact Hc0).
  unfold call_consistent in Hk.
  destruct (k_point k) as [| |cd| |res] eqn:Hp.
  - (* the INSERT *)
    destruct (tickets s !! tr_ticket_id (k_request k)) as [t0|] eqn:Ht.
    + rewrite (step_insert_taken k s t0 Hp Ht). exists 0%nat. simpl.
      split; [exact Hsame|]. split; [unfold decrement_of; simpl; lia|].
      intros Hcid. simpl. rewrite (Hk Hcid). lia.
    + rewrite (step_insert_fresh k s Hp Ht). exists 0%nat. simpl.
      split; [exact Hsame|]. split; [unfold decrement_of; simpl; lia|].
      intros Hcid. simpl. exact (Hk Hcid).
  - (* the read of the competition *)
    destruct (competitions s !! tr_competition (k_request k)) as [c|] eqn:Hc.
    + destruct (decide (c_state c = INITIAL)) as [Hst|Hst].
      * rewrite (step_read_open k s c Hp Hc Hst). exists 0%nat. simpl.
        split; [exact Hsame|]. split; [unfold decrement_of; simpl; lia|].
        intros Hcid. simpl. exact (Hk Hcid).
      * rewrite (step_read_closed k s c Hp Hc Hst). exists 0%nat. simpl.
        split; [exact Hsame|]. split; [unfold decrement_of; simpl; lia|].
        intros Hcid. simpl in Hcid. rewrite Hcid in Hc. congruence.
    + rewrite (step_read_missing k s Hp Hc). exists 0%nat. simpl.
      split; [exact Hsame|]. split; [unfold decrement_of; simpl; lia|].
      intros Hcid. simpl. rewrite (Hk Hcid). lia.
  - (* the UPDATE *)
    destruct (competitions s !! tr_competition (k_request k)) as [c|] eqn:Hc.
    + destruct (decide (c_amount_tickets c = c_amount_tickets cd
                        ∧ c_state c = INITIAL)) as [[Ha Hst]|Hmiss].
      * rewrite (step_update_hit k s cd c Hp Hc Ha Hst).
        destruct (decide (tr_competition (k_request k) = cid)) as [Hcid|Hcid].
        -- exists 1%nat. simpl.
           assert (c = c0) by (rewrite Hcid in Hc; congruence). subst c.
           split; [rewrite Hcid; apply lookup_insert_eq|].
           split; [unfold decrement_of; simpl;
                   rewrite !bool_decide_eq_true_2 by exact Hcid; lia|].
           intros _. simpl. rewrite (Hk Hcid). reflexivity.
        -- exists 0%nat. simpl. rewrite lookup_insert_ne by exact Hcid.
           split; [exact Hsame|].
           split; [unfold decrement_of; simpl;
                   rewrite !bool_decide_eq_false_2 by exact Hcid; lia|].
           intros Hcid'. simpl in Hcid'. contradiction.
      * rewrite (step_update_miss k s cd Hp).
        2:{ intros c' Hc'. assert (c' = c) by congruence. subst c'. exact Hmiss. }
        exists 0%nat. simpl.
        split; [exact Hsame|]. split; [unfold decrement_of; simpl; lia|].
        intros Hcid. simpl. exact (Hk Hcid).
    + rewrite (step_update_miss k s cd Hp) by (intros c' Hc'; congruence).
      exists 0%nat. simpl.
      split; [exact Hsame|]. split; [unfold decrement_of; simpl; lia|].
      intros Hcid. simpl. exact (Hk Hcid).
  - (* the read of the ticket *)
    rewrite (step_fetch k s Hp). exists 0%nat. simpl.
    split; [exact Hsame|]. split; [unfold decrement_of; simpl; lia|].
    intros Hcid. simpl.
    destruct (tickets s !! tr_ticket_id (k_request k));
      rewrite (Hk Hcid); lia.
  - rewrite (step_finished k s res Hp). exists 0%nat. simpl.
    split; [exact Hsame|]. split; [lia|].
    unfold call_consistent. rewrite Hp. exact Hk.
Qed.

Lemma inventory_invariant_step cid c i σ :
  c_state c = INITIAL →
  inventory_invariant cid c σ → inventory_invariant cid c (step_at i σ).
Proof.
  intros Hini [Hrow Hks]. unfold step_at.
  destruct (σ.2 !! i) as [k|] eqn:Hi; [|split; assumption].
  assert (Hk : call_consistent cid k)
    by (rewrite Forall_forall in Hks; apply Hks;
        eapply list_elem_of_lookup_2; exact Hi).
  destruct (step_call_decrement cid _ k σ.1 Hrow Hini Hk)
    as (δ & Hrow' & Hdec & Hk').
  destruct (step_call k σ.1) as [s' k'] eqn:Hstep. simpl in *.
  split; simpl.
  - rewrite Hrow'. f_equal. rewrite set_c_amount_tickets_twice. f_equal.
    pose proof (decrements_applied_insert cid σ.2 i k k' Hi). lia.
  - apply Forall_insert; assumption.
Qed.

Lemma inventory_invariant_run cid c schedule : ∀ σ,
  c_state c = INITIAL →
  inventory_invariant cid c σ →
  inventory_invariant cid c (run_schedule schedule σ).
Proof.
  induction schedule as [|i schedule IH]; intros σ Hini Hinv; [exact Hinv|].
  simpl. apply IH; [exact Hini|].
  apply inventory_invariant_step; assumption.
Qed.

Lemma decrements_applied_none cid ks :
  Forall (λ k, k_applied k = 0%nat) ks → decrements_applied cid ks = 0%nat.
Proof.
  induction 1 as [|k ks Hk _ IH]; [reflexivity|].
  unfold decrements_applied. simpl. apply Nat.eq_add_0. split; [|exact IH].
  rewrite Hk. destruct (bool_decide _); reflexivity.
Qed.

Lemma inventory_invariant_start cid c s (requests : list (Z * TicketRequest)) :
  competitions s !! cid = Some c →
  inventory_invariant cid c (s, (λ nr, start_call nr.1 nr.2) <$> requests).
Proof.
  intros Hc. split; simpl.
  - rewrite decrements_applied_none.
    + rewrite set_c_amount_tickets_sub_0. exact Hc.
    + apply Forall_fmap, Forall_forall. intros nr _. reflexivity.
  - apply Forall_fmap, Forall_forall. intros nr _ _. reflexivity.
Qed.

(** C1 (as stated, refuted): on a competition of capacity 1 in state
    INITIAL, two sequential [create_ticket] calls both return and leave
    amount_tickets at -1. *)
Lemma create_ticket_oversells :
  let c := mkCompetition "w" "r" "n" "i" "b" "d" 1 1 9 0
             [mkChoice "A" 0] (-1) INITIAL 0 in
  let s := mkStore ∅ {["c1" := c]} in
  let r id := mkTicketRequest id "w" "c1" 10 "lnurl" 0 in
  let out := create_tickets 1 7 [r "t1"; r "t2"] s in
  ¬ (snd out = inr tt →
     ∀ c', competitions (fst out) !! "c1" = Some c' →
           c_state c' = INITIAL → 0 ≤ c_amount_tickets c').
Proof.
  intros c s r out H.
  specialize (H eq_refl (set_c_amount_tickets (-1) c) eq_refl eq_refl).
  simpl in H. lia.
Qed.

(** C1 (amended): while a competition stays INITIAL, [create_ticket] calls
    decrement its amount_tickets without a lower bound. In every
    interleaving of the statements of any number of calls, amount_tickets is
    the capacity minus the number of decrements applied so far, every call
    applies at most one decrement and a call that returned its ticket has
    applied exactly one. Run one after the other with new ticket ids, n
    calls all return and leave amount_tickets at the capacity minus n,
    which is negative as soon as n exceeds the capacity. *)
Theorem create_ticket_decrements_unbounded
    (competition_id : string) (c : Competition) (s : Store) :
  competitions s !! competition_id = Some c →
  c_state c = INITIAL →
  (∀ (requests : list (Z * TicketRequest)) (schedule : list nat),
     let σ := run_schedule schedule
                (s, (λ nr, start_call nr.1 nr.2) <$> requests) in
     ∃ c',
       competitions σ.1 !! competition_id = Some c'
       ∧ c_state c' = INITIAL
       ∧ c_amount_tickets c'
         = c_amount_tickets c
           - Z.of_nat (decrements_applied competition_id σ.2)
       ∧ Forall (λ k, tr_competition (k_request k) = competition_id →
                      (k_applied k ≤ 1)%nat
                      ∧ ∀ t, k_point k = Finished (inr t) →
                             k_applied k = 1%nat) σ.2)
  ∧ (∀ (fuel : nat) (now : Z) (requests : list TicketRequest),
       Forall (λ r, tr_competition r = competition_id
                    ∧ tickets s !! tr_ticket_id r = None) requests →
       NoDup (tr_ticket_id <$> requests) →
       ∃ s' c',
         create_tickets (S fuel) now requests s = (s', inr tt)
         ∧ competitions s' !! competition_id = Some c'
         ∧ c_state c' = INITIAL
         ∧ c_amount_tickets c'
           = c_amount_tickets c - Z.of_nat (length requests)).
Proof.
  intros Hc Hini. split.
  - intros requests schedule σ.
    destruct (inventory_invariant_run competition_id c schedule
                (s, (λ nr, start_call nr.1 nr.2) <$> requests) Hini
                (inventory_invariant_start competition_id c s requests Hc))
      as [Hrow Hks].
    fold σ in Hrow, Hks. eexists. split; [exact Hrow|].
    split; [exact Hini|]. split; [reflexivity|].
    eapply Forall_impl; [exact Hks|].
    intros k Hk Hcid. specialize (Hk Hcid).
    destruct (k_point k) as [| |cd| |[e|t]] eqn:Hp;
      (split; [lia|intros t' Ht'; congruence || (try discriminate Ht')]).
  - intros fuel now requests Hall Hdup.
    destruct (create_tickets_run fuel now competition_id requests s c Hc Hini
                Hall Hdup) as (s' & Hrun & Hcomp & _).
    eexists _, _. split; [exact Hrun|]. rewrite Hcomp, lookup_insert_eq.
    split; [reflexivity|]. split; [exact Hini|reflexivity].
Qed.

Lemma create_ticket_decrements_unbounded_witness :
  let c := mkCompetition "w" "r" "n" "i" "b" "d" 1 1 9 0
             [mkChoice "A" 0] (-1) INITIAL 0 in
  let s := mkStore ∅ {["c1" := c]} in
  let r id := mkTicketRequest id "w" "c1" 10 "lnurl" 0 in
  ∃ s' c',
    create_tickets 1 7 [r "t1"; r "t2"] s = (s', inr tt)
    ∧ competitions s' !! "c1" = Some c'
    ∧ c_state c' = INITIAL
    ∧ c_amount_tickets c' = -1.
Proof.
  intros c s r.
  destruct (create_ticket_decrements_unbounded "c1" c s eq_refl eq_refl)
    as [_ Hseq].
  apply (Hseq 0%nat 7 [r "t1"; r "t2"]).
  - repeat constructor.
  - apply (bool_decide_unpack _). vm_compute. exact I.
Defined.

(** An interleaving in which two calls read the same amount_tickets: the
    second UPDATE matches no row, the call reads again, and both
    decrements are applied. *)
Example interleaved_calls_retry :
  let c := mkCompetition "w" "r" "n" "i" "b" "d" 1 1 9 0
             [mkChoice "A" 0] (-1) INITIAL 0 in
  let s := mkStore ∅ {["c1" := c]} in
  let r id := mkTicketRequest id "w" "c1" 10 "lnurl" 0 in
  let σ := run_schedule [0; 1; 0; 1; 0; 1; 1; 1; 0; 1]%nat
             (s, [start_call 7 (r "t1"); start_call 8 (r "t2")]) in
  (c_amount_tickets <$> competitions σ.1 !! "c1") = Some (-1)
  ∧ decrements_applied "c1" σ.2 = 2%nat
  ∧ (k_point <$> σ.2)
    = [Finished (inr (new_ticket 7 (r "t1")));
       Finished (inr (new_ticket 8 (r "t2")))].
Proof. vm_compute. repeat split. Qed.

(** * Further properties *)

(** ** What each operation does to the ticket table *)

(** Statements on the competition table keep every property that only
    reads the ticket table. *)
Section TicketsKept.
Context (I : Store → Prop).
Context (HI : ∀ s s', tickets s' = tickets s → I s → I s').

Lemma kept_sql_update_competition id cond upd :
  preserves I (sql_update_competition id cond upd).
Proof.
  intros s Hs. unfold sql_update_competition.
  destruct (competitions s !! id) as [c|]; [destruct (cond c)|]; try exact Hs.
  eapply HI; [|exact Hs]. reflexivity.
Qed.

Lemma kept_sql_insert_competition id c :
  preserves I (sql_insert_competition id c).
Proof.
  intros s Hs. unfold sql_insert_competition.
  destruct (competitions s !! id); [exact Hs|]. eapply HI; [|exact Hs]. reflexivity.
Qed.

Lemma kept_sql_delete_competition id : preserves I (sql_delete_competition id).
Proof. intros s Hs. eapply HI; [|exact Hs]. reflexivity. Qed.
End TicketsKept.

Lemma tickets_fixed (m : gmap string Ticket) s s' :
  tickets s' = tickets s → tickets s = m → tickets s' = m.
Proof. congruence. Qed.

Ltac tickets_step HI :=
  first
    [ apply preserves_bind; [|intros ?]
    | apply preserves_ret
    | apply preserves_raise
    | apply preserves_assert_some
    | apply preserves_while_true
    | apply preserves_get_ticket
    | apply preserves_get_competition
    | apply preserves_add_to_choice
    | apply kept_sql_update_competition; exact HI
    | apply kept_sql_insert_competition; exact HI
    | apply kept_sql_delete_competition; exact HI
    | match goal with
      | |- preserves _ (if ?b then _ else _) => destruct b
      end ].

Lemma set_ticket_funded_missing_row fuel ticket_id s :
  tickets s !! ticket_id = None →
  cas_ticket_state ticket_id INITIAL FUNDED s = (s, inr false)
  ∧ set_ticket_funded fuel ticket_id s = (s, inr tt).
Proof.
  intros Hnone.
  assert (Hcas : cas_ticket_state ticket_id INITIAL FUNDED s = (s, inr false)).
  { unfold cas_ticket_state.
    erewrite run_bind_ok by (apply sql_update_ticket_missing; exact Hnone).
    reflexivity. }
  split; [exact Hcas|].
  unfold set_ticket_funded. erewrite run_bind_ok by exact Hcas. reflexivity.
Qed.

Lemma create_ticket_tickets fuel now ticket_id wallet competition amount
    reward_target choice s :
  tickets (fst (create_ticket fuel now ticket_id wallet competition amount
                  reward_target choice s))
  = match tickets s !! ticket_id with
    | Some _ => tickets s
    | None =>
        <[ticket_id := mkTicket wallet competition amount reward_target choice
                         INITIAL 0 "" "" now]> (tickets s)
    end.
Proof.
  unfold create_ticket. rewrite run_bind. unfold sql_insert_ticket.
  destruct (tickets s !! ticket_id) as [t0|]; [reflexivity|].
  match goal with
  | |- tickets (fst (?rest ?s0)) = ?m =>
      assert (Hrest : preserves (λ s', tickets s' = m) rest)
  end.
  { pose proof (tickets_fixed
                  (<[ticket_id := mkTicket wallet competition amount
                                    reward_target choice INITIAL 0 "" "" now]>
                     (tickets s))) as HI.
    repeat tickets_step HI. }
  apply Hrest. reflexivity.
Qed.

Lemma set_ticket_funded_tickets fuel ticket_id s :
  tickets (fst (set_ticket_funded fuel ticket_id s))
  = match tickets s !! ticket_id with
    | Some t =>
        if bool_decide (t_state t = INITIAL)
        then <[ticket_id := set_t_state FUNDED t]> (tickets s)
        else tickets s
    | None => tickets s
    end.
Proof.
  destruct (tickets s !! ticket_id) as [t|] eqn:Ht.
  2:{ destruct (set_ticket_funded_missing_row fuel ticket_id s Ht) as [_ ->].
      reflexivity. }
  case_bool_decide as Hst.
  2:{ rewrite (set_ticket_funded_again fuel ticket_id s t Ht Hst). reflexivity. }
  unfold set_ticket_funded.
  erewrite run_bind_ok by (apply cas_ticket_state_hit; eassumption).
  simpl.
  match goal with
  | |- tickets (fst (?rest ?s0)) = ?m =>
      assert (Hrest : preserves (λ s', tickets s' = m) rest)
  end.
  { pose proof (tickets_fixed
                  (<[ticket_id := set_t_state FUNDED t]> (tickets s))) as HI.
    repeat tickets_step HI. }
  apply Hrest. reflexivity.
Qed.

Lemma purge_expired_tickets_tickets fuel now competition_id s :
  tickets (fst (purge_expired_tickets fuel now competition_id s))
  = tickets_where
      (λ t, negb (expired competition_id (now - TICKET_PURGE_TIME) t))
      (tickets s).
Proof.
  unfold purge_expired_tickets. rewrite run_bind.
  unfold sql_delete_tickets_where.
  match goal with
  | |- tickets (fst (?rest ?s0)) = ?m =>
      assert (Hrest : preserves (λ s', tickets s' = m) rest)
  end.
  { pose proof (tickets_fixed
                  (tickets_where
                     (λ t, negb (expired competition_id
                                   (now - TICKET_PURGE_TIME) t))
                     (tickets s))) as HI.
    repeat tickets_step HI. }
  apply Hrest. reflexivity.
Qed.

Lemma update_competition_tickets competition_id data s :
  tickets (fst (update_competition competition_id data s)) = tickets s.
Proof.
  assert (Hall : preserves (λ s', tickets s' = tickets s)
                   (update_competition competition_id data)).
  { pose proof (tickets_fixed (tickets s)) as HI.
    unfold update_competition. repeat tickets_step HI. }
  apply Hall. reflexivity.
Qed.

Lemma set_winning_choice_tickets competition_id winning_choice s :
  tickets (fst (set_winning_choice competition_id winning_choice s)) = tickets s.
Proof.
  assert (Hall : preserves (λ s', tickets s' = tickets s)
                   (set_winning_choice competition_id winning_choice)).
  { pose proof (tickets_fixed (tickets s)) as HI.
    unfold set_winning_choice. repeat tickets_step HI. }
  apply Hall. reflexivity.
Qed.

Lemma set_t_state_same t : set_t_state (t_state t) t = t.
Proof. destruct t; reflexivity. Qed.

(** X1: whatever operation of the core runs, and whether it returns or
    raises, a ticket in the store either stays exactly as it was, or keeps
    every field but its state, which moves along INITIAL -> FUNDED or
    FUNDED -> WON_UNPAID / LOST / CANCELLED_UNPAID, or is deleted, and then
    it was INITIAL and the operation was a purge of its competition. A
    ticket that appears was inserted in state INITIAL by a [create_ticket]
    with that id. No state ever moves back. *)
Theorem tickets_only_move_forward (o : Op) (s : Store) (id : string) :
  match tickets s !! id, tickets (run_op o s) !! id with
  | Some t, Some t' =>
      t' = t
      ∨ (state_edge (t_state t) (t_state t') ∧ t' = set_t_state (t_state t') t)
  | Some t, None =>
      t_state t = INITIAL
      ∧ ∃ fuel now, o = OpPurgeExpiredTickets fuel now (t_competition t)
  | None, Some t' =>
      t_state t' = INITIAL
      ∧ ∃ fuel now wallet competition amount reward_target choice,
          o = OpCreateTicket fuel now id wallet competition amount
                reward_target choice
  | None, None => True
  end.
Proof.
  destruct o as [fuel now ticket_id wallet competition amount reward_target choice
                |fuel ticket_id|fuel now competition_id|competition_id data
                |competition_id choices winning_choice
                |competition_id winning_choice]; simpl.
  - rewrite create_ticket_tickets.
    destruct (tickets s !! ticket_id) as [t0|] eqn:Ht0.
    + destruct (tickets s !! id); auto.
    + destruct (decide (ticket_id = id)) as [->|Hne].
      * rewrite Ht0, lookup_insert_eq. split; [reflexivity|]. eauto 10.
      * rewrite lookup_insert_ne by exact Hne. destruct (tickets s !! id); auto.
  - rewrite set_ticket_funded_tickets.
    destruct (tickets s !! ticket_id) as [t0|] eqn:Ht0;
      [|destruct (tickets s !! id); auto].
    case_bool_decide as Hst; [|destruct (tickets s !! id); auto].
    destruct (decide (ticket_id = id)) as [->|Hne].
    + rewrite Ht0, lookup_insert_eq. right. split; [|reflexivity].
      left. auto.
    + rewrite lookup_insert_ne by exact Hne. destruct (tickets s !! id); auto.
  - rewrite purge_expired_tickets_tickets.
    destruct (tickets s !! id) as [t|] eqn:Ht.
    + destruct (expired competition_id (now - TICKET_PURGE_TIME) t) eqn:Hex.
      * assert (Hgone : tickets_where
                          (λ t, negb (expired competition_id
                                        (now - TICKET_PURGE_TIME) t))
                          (tickets s) !! id = None).
        { apply eq_None_not_Some. intros [t' Ht'].
          apply lookup_tickets_where in Ht' as [Ht' Hn].
          assert (t' = t) by congruence. subst t'.
          rewrite Hex in Hn. discriminate Hn. }
        rewrite Hgone. apply expired_true in Hex as (Hc & Hst & _).
        split; [exact Hst|]. exists fuel, now. rewrite Hc. reflexivity.
      * assert (Hkept : tickets_where
                          (λ t, negb (expired competition_id
                                        (now - TICKET_PURGE_TIME) t))
                          (tickets s) !! id = Some t).
        { apply lookup_tickets_where. rewrite Hex. auto. }
        rewrite Hkept. left. reflexivity.
    + assert (Hnone : tickets_where
                        (λ t, negb (expired competition_id
                                      (now - TICKET_PURGE_TIME) t))
                        (tickets s) !! id = None).
      { apply eq_None_not_Some. intros [t' Ht'].
        apply lookup_tickets_where in Ht' as [Ht' _]. congruence. }
      rewrite Hnone. exact I.
  - rewrite update_competition_tickets. destruct (tickets s !! id); auto.
  - rewrite update_competition_winners_run. simpl. rewrite lookup_fmap.
    destruct (tickets s !! id) as [t|]; simpl; [|exact I].
    destruct (settle_cases competition_id winning_choice t)
      as [[He _]|[(Hf & _ & He)|[(Hf & _ & _ & He)|(Hf & _ & _ & He)]]];
      rewrite He; [left; reflexivity|..];
      apply funded_in_true in Hf as [_ Hf];
      right; (split; [right; simpl; auto|reflexivity]).
  - rewrite set_winning_choice_tickets. destruct (tickets s !! id); auto.
Qed.

(** ** Inventory accounting *)

Lemma size_tickets_where_replace p (m : gmap string Ticket) id t t' :
  m !! id = Some t → p t' = p t →
  size (tickets_where p (<[id := t']> m)) = size (tickets_where p m).
Proof.
  intros Hid Hp.
  rewrite <- (insert_delete_eq m id t') .
  rewrite <- (insert_id m id t Hid) at 2.
  rewrite <- (insert_delete_eq m id t).
  rewrite !size_tickets_where_insert by apply lookup_delete_eq.
  rewrite Hp. reflexivity.
Qed.

Lemma count_tickets_insert_new cid (m : gmap string Ticket) id t :
  m !! id = None →
  count_tickets cid (<[id := t]> m)
  = ((if bool_decide (t_competition t = cid) then 1 else 0)
     + count_tickets cid m)%nat.
Proof. intros Hid. apply size_tickets_where_insert. exact Hid. Qed.

(** The tickets a purge of [cid'] keeps, counted for [cid]. *)
Lemma count_tickets_purged cid cid' purge_time (m : gmap string Ticket) :
  (count_tickets cid
     (tickets_where (λ t, negb (expired cid' purge_time t)) m)
   + (if bool_decide (cid' = cid)
      then size (tickets_where (expired cid' purge_time) m) else 0))%nat
  = count_tickets cid m.
Proof.
  unfold count_tickets. rewrite tickets_where_and.
  case_bool_decide as Hcid.
  - subst cid'. rewrite <- size_tickets_where_or.
    + f_equal. apply tickets_where_ext. intros id t _.
      unfold of_competition, expired.
      destruct (bool_decide (t_competition t = cid)); simpl; [|reflexivity].
      destruct (bool_decide (t_state t = INITIAL)),
               (bool_decide (t_time t < purge_time)); reflexivity.
    + intros t.
      destruct (of_competition cid t), (expired cid purge_time t); reflexivity.
  - rewrite Nat.add_0_r. f_equal. apply tickets_where_ext. intros id t _.
    unfold of_competition, expired.
    destruct (decide (t_competition t = cid)) as [Hc|Hc].
    + rewrite (bool_decide_eq_true_2 _ Hc).
      rewrite (bool_decide_eq_false_2 (t_competition t = cid')) by congruence.
      reflexivity.
    + rewrite (bool_decide_eq_false_2 _ Hc). reflexivity.
Qed.

(** [create_ticket] with a new ticket id for a competition that has left
    INITIAL: the ticket is inserted and returned, nothing is decremented. *)
Lemma create_ticket_for_closed fuel now r s c :
  tickets s !! tr_ticket_id r = None →
  competitions s !! tr_competition r = Some c →
  c_state c ≠ INITIAL →
  create_ticket_for (S fuel) now r s
  = (set_tickets (<[tr_ticket_id r := new_ticket now r]> (tickets s)) s,
     inr (new_ticket now r)).
Proof.
  intros Ht Hc Hst. unfold create_ticket_for, create_ticket.
  erewrite run_bind_ok by (apply sql_insert_ticket_fresh; exact Ht).
  fold (new_ticket now r).
  erewrite run_bind_ok.
  2:{ apply while_true_break.
      unfold get_competition. rewrite run_bind. simpl. rewrite Hc.
      rewrite run_bind. simpl.
      rewrite (bool_decide_eq_true_2 _ Hst). reflexivity. }
  unfold get_ticket. rewrite run_bind. simpl. rewrite lookup_insert_eq.
  reflexivity.
Qed.

(** What an operation that keeps the inventory does to the row of an INITIAL
    competition: the state stays, and amount_tickets changes only by a
    purchase (one less) or a purge (the deleted tickets more). *)
Lemma keeps_inventory_row o s cid c :
  competitions s !! cid = Some c → c_state c = INITIAL →
  keeps_inventory o →
  ∃ c', competitions (run_op o s) !! cid = Some c'
        ∧ c_state c' = INITIAL
        ∧ c_amount_tickets c' + Z.of_nat (count_tickets cid (tickets (run_op o s)))
          = c_amount_tickets c + Z.of_nat (count_tickets cid (tickets s)).
Proof.
  intros Hc Hini Hkeep.
  destruct o as [fuel now ticket_id wallet competition amount reward_target choice
                |fuel ticket_id|fuel now competition_id|competition_id data
                |competition_id choices winning_choice
                |competition_id winning_choice]; simpl in *.
  - (* create_ticket *)
    destruct fuel as [|fuel]; [lia|].
    set (r := mkTicketRequest ticket_id wallet competition amount reward_target
                choice).
    change (create_ticket (S fuel) now ticket_id wallet competition amount
              reward_target choice) with (create_ticket_for (S fuel) now r).
    destruct (tickets s !! ticket_id) as [t0|] eqn:Ht.
    { unfold create_ticket_for, create_ticket.
      erewrite run_bind_raise by (eapply sql_insert_ticket_taken; exact Ht).
      exists c. auto. }
    destruct (competitions s !! competition) as [c2|] eqn:Hc2.
    2:{ destruct (create_ticket_for_missing_competition fuel now r s Hc2 Ht)
          as [-> _].
        simpl. exists c. split; [exact Hc|]. split; [exact Hini|].
        rewrite count_tickets_insert_new by exact Ht. simpl.
        rewrite bool_decide_eq_false_2 by congruence. reflexivity. }
    destruct (decide (c_state c2 = INITIAL)) as [Hst|Hst].
    + rewrite (create_ticket_for_run fuel now r s c2 Ht Hc2 Hst). simpl.
      rewrite count_tickets_insert_new by exact Ht. simpl.
      destruct (decide (competition = cid)) as [->|Hne].
      * assert (c2 = c) by congruence. subst c2.
        rewrite lookup_insert_eq. eexists. split; [reflexivity|].
        split; [exact Hini|]. simpl.
        rewrite bool_decide_eq_true_2 by reflexivity. lia.
      * rewrite lookup_insert_ne by exact Hne. exists c.
        split; [exact Hc|]. split; [exact Hini|].
        rewrite bool_decide_eq_false_2 by exact Hne. reflexivity.
    + rewrite (create_ticket_for_closed fuel now r s c2 Ht Hc2 Hst). simpl.
      exists c. split; [exact Hc|]. split; [exact Hini|].
      rewrite count_tickets_insert_new by exact Ht. simpl.
      rewrite bool_decide_eq_false_2 by congruence. reflexivity.
  - (* set_ticket_funded *)
    assert (Hrow : ∃ c', competitions (fst (set_ticket_funded fuel ticket_id s))
                           !! cid = Some c'
                         ∧ (c_amount_tickets c' = c_amount_tickets c
                            ∧ c_state c' = INITIAL)).
    { pose proof (row_property_reads_competitions
                    (λ c', c_amount_tickets c' = c_amount_tickets c
                           ∧ c_state c' = INITIAL) cid) as HI.
      assert (Hall : preserves
                (λ s, ∃ c', competitions s !! cid = Some c'
                            ∧ (c_amount_tickets c' = c_amount_tickets c
                               ∧ c_state c' = INITIAL))
                (set_ticket_funded fuel ticket_id)).
      { unfold set_ticket_funded, cas_ticket_state. repeat preserves_step HI.
        apply (preserves_sql_update_competition
                 (λ c', c_amount_tickets c' = c_amount_tickets c
                        ∧ c_state c' = INITIAL)).
        intros _ c' Hc' _. exact Hc'. }
      apply Hall. exists c. auto. }
    destruct Hrow as (c' & Hc' & Ha & Hs).
    exists c'. split; [exact Hc'|]. split; [exact Hs|].
    rewrite Ha. f_equal. f_equal. rewrite set_ticket_funded_tickets.
    destruct (tickets s !! ticket_id) as [t|] eqn:Ht; [|reflexivity].
    case_bool_decide; [|reflexivity].
    apply (size_tickets_where_replace _ _ _ t); [exact Ht|reflexivity].
  - (* purge_expired_tickets *)
    destruct fuel as [|fuel]; [lia|].
    pose proof (count_tickets_purged cid competition_id
                  (now - TICKET_PURGE_TIME) (tickets s)) as Hcount.
    rewrite purge_expired_tickets_run. cbv zeta.
    match goal with |- context [decide ?P] => destruct (decide P) as [Hn|Hn] end.
    + simpl. exists c. split; [exact Hc|]. split; [exact Hini|].
      rewrite Hn in Hcount. destruct (bool_decide (competition_id = cid)); lia.
    + destruct (competitions s !! competition_id) as [c2|] eqn:Hc2; simpl.
      * destruct (decide (competition_id = cid)) as [->|Hne].
        -- assert (c2 = c) by congruence. subst c2.
           rewrite lookup_insert_eq. eexists. split; [reflexivity|].
           split; [exact Hini|]. simpl.
           rewrite bool_decide_eq_true_2 in Hcount by reflexivity. lia.
        -- rewrite lookup_insert_ne by exact Hne. exists c.
           split; [exact Hc|]. split; [exact Hini|].
           rewrite bool_decide_eq_false_2 in Hcount by exact Hne. lia.
      * exists c. split; [exact Hc|]. split; [exact Hini|].
        rewrite bool_decide_eq_false_2 in Hcount by congruence. lia.
  - (* update_competition *)
    assert (Hrow : ∃ c', competitions (fst (update_competition competition_id
                                              data s)) !! cid = Some c'
                         ∧ (c_amount_tickets c' = c_amount_tickets c
                            ∧ c_state c' = INITIAL)).
    { pose proof (row_property_reads_competitions
                    (λ c', c_amount_tickets c' = c_amount_tickets c
                           ∧ c_state c' = INITIAL) cid) as HI.
      assert (Hall : preserves
                (λ s, ∃ c', competitions s !! cid = Some c'
                            ∧ (c_amount_tickets c' = c_amount_tickets c
                               ∧ c_state c' = INITIAL))
                (update_competition competition_id data)).
      { unfold update_competition. repeat preserves_step HI.
        apply (preserves_sql_update_competition
                 (λ c', c_amount_tickets c' = c_amount_tickets c
                        ∧ c_state c' = INITIAL)).
        intros _ c' Hc' _. unfold update_setters. rewrite Hkeep.
        destruct (uc_closing_datetime data); exact Hc'. }
      apply Hall. exists c. auto. }
    destruct Hrow as (c' & Hc' & Ha & Hs).
    exists c'. rewrite update_competition_tickets, Ha. auto.
  - (* update_competition_winners *)
    rewrite update_competition_winners_run. simpl.
    assert (Hcount : count_tickets cid
                       (settle competition_id winning_choice <$> tickets s)
                     = count_tickets cid (tickets s)).
    { unfold count_tickets. rewrite size_tickets_where_fmap. f_equal.
      apply tickets_where_ext. intros id t _. unfold of_competition.
      rewrite settle_competition. reflexivity. }
    rewrite Hcount.
    destruct (decide (competition_id = cid)) as [->|Hne].
    + rewrite lookup_alter_eq, Hc. simpl. eexists. split; [reflexivity|]. auto.
    + rewrite lookup_alter_ne by exact Hne. exists c. auto.
  - (* set_winning_choice *)
    rewrite set_winning_choice_tickets. unfold set_winning_choice.
    erewrite run_bind_ok by apply sql_update_competition_always. simpl.
    destruct (decide (competition_id = cid)) as [->|Hne].
    + rewrite lookup_alter_eq, Hc. simpl. eexists. split; [reflexivity|]. auto.
    + rewrite lookup_alter_ne by exact Hne. exists c. auto.
Qed.

(** X2: for a competition in state INITIAL, amount_tickets plus the number
    of its tickets in the store is the same after any sequence of
    operations of the core as before, as long as no [update_competition]
    assigns amount_tickets (and the retry loops of purchases and purges may
    run once): a purchase takes one from amount_tickets and adds a ticket,
    a purge gives back exactly the tickets it deletes, and funding,
    settlement and [set_winning_choice] touch neither. Operations that
    raise are included. *)
Theorem inventory_accounting (ops : list Op) (s : Store) (cid : string) (K : Z) :
  inventory_balanced cid K s →
  Forall keeps_inventory ops →
  inventory_balanced cid K (run_ops ops s).
Proof.
  revert s. induction ops as [|o ops IH]; intros s Hinv Hops; [exact Hinv|].
  apply Forall_cons in Hops as [Ho Hops]. simpl. apply IH; [|exact Hops].
  destruct Hinv as (c & Hc & Hini & Hbal).
  destruct (keeps_inventory_row o s cid c Hc Hini Ho) as (c' & Hc' & Hini' & Hbal').
  exists c'. split; [exact Hc'|]. split; [exact Hini'|]. lia.
Qed.

Lemma inventory_accounting_witness :
  let c := mkCompetition "w" "r" "n" "i" "b" "d" 3 1 9 0
             [mkChoice "A" 0; mkChoice "B" 0] (-1) INITIAL 0 in
  let s := mkStore ∅ {["c1" := c]} in
  inventory_balanced "c1" 3
    (run_ops [OpCreateTicket 1 5 "t1" "w" "c1" 10 "lnurl" 0;
              OpCreateTicket 1 6 "t2" "w" "c1" 10 "lnurl" 1;
              OpSetTicketFunded 1 "t2";
              OpPurgeExpiredTickets 1 2000 "c1"] s).
Proof.
  intros c s.
  apply (inventory_accounting _ s "c1" 3).
  - exists c. split; [reflexivity|]. split; reflexivity.
  - repeat constructor.
Defined.

(** ** Sold and pool accounting *)

Lemma sum_amounts_perm (l l' : list Z) :
  l ≡ₚ l' → sum_amounts l = sum_amounts l'.
Proof.
  induction 1 as [|x l l' _ IH|x y l|l l' l'' _ IH1 _ IH2]; simpl;
    [reflexivity|rewrite IH; reflexivity|lia|congruence].
Qed.

Lemma sum_amounts_cons (x : Z) (l : list Z) :
  sum_amounts (x :: l) = x + sum_amounts l.
Proof. reflexivity. Qed.

Lemma sum_amounts_alter (l : list Choice) (k : nat) (a : Z) :
  (k < length l)%nat →
  sum_amounts (total <$> alter (add_total a) k l)
  = sum_amounts (total <$> l) + a.
Proof.
  revert k. induction l as [|ch l IH]; intros k Hk; simpl in Hk; [lia|].
  destruct k as [|k]; simpl.
  - lia.
  - specialize (IH k ltac:(lia)).
    change (list_alter (add_total a) k l) with (alter (add_total a) k l).
    change (list_fmap Choice Z total ?x) with (total <$> x) in *.
    rewrite IH. lia.
Qed.

Lemma py_index_is_Some {A} (l : list A) (i : Z) :
  is_Some (py_index l i) ↔ - Z.of_nat (length l) ≤ i < Z.of_nat (length l).
Proof.
  unfold py_index.
  case_bool_decide as H1; [split; [lia|eauto]|].
  case_bool_decide as H2; [split; [lia|eauto]|].
  split; [intros [x Hx]; discriminate Hx|lia].
Qed.


Lemma funded_once_fund cid (m : gmap string Ticket) id t :
  m !! id = Some t → t_state t = INITIAL →
  tickets_where (funded_once cid) m !! id = None
  ∧ tickets_where (funded_once cid) (<[id := set_t_state FUNDED t]> m)
    = if bool_decide (t_competition t = cid)
      then <[id := set_t_state FUNDED t]> (tickets_where (funded_once cid) m)
      else tickets_where (funded_once cid) m.
Proof.
  intros Hid Hst.
  assert (Hnot : funded_once cid t = false).
  { unfold funded_once.
    rewrite (bool_decide_eq_false_2 (t_state t ≠ INITIAL)) by tauto.
    apply andb_false_r. }
  split.
  - apply eq_None_not_Some. intros [t' Ht'].
    apply lookup_tickets_where in Ht' as [Ht' Hf].
    assert (t' = t) by congruence. subst t'. congruence.
  - unfold tickets_where. case_bool_decide as Hc.
    + apply map_filter_insert_True. simpl. unfold funded_once. simpl.
      rewrite (bool_decide_eq_true_2 _ Hc). exact I.
    + apply map_filter_insert_not'.
      * simpl. unfold funded_once. simpl.
        rewrite (bool_decide_eq_false_2 _ Hc). exact (λ x, x).
      * intros y Hy. assert (y = t) by congruence. subst y.
        simpl. rewrite Hnot. exact (λ x, x).
Qed.


Lemma settle_initial cid w t : t_state t = INITIAL → settle cid w t = t.
Proof.
  intros Hs. unfold settle, funded_in. rewrite Hs.
  rewrite (bool_decide_eq_false_2 (INITIAL = FUNDED)) by discriminate.
  rewrite andb_false_r. reflexivity.
Qed.



Lemma staked_fund cid (m : gmap string Ticket) id t :
  m !! id = Some t → t_state t = INITIAL →
  staked cid (<[id := set_t_state FUNDED t]> m)
  = staked cid m + (if bool_decide (t_competition t = cid) then t_amount t else 0)
  ∧ count_funded_once cid (<[id := set_t_state FUNDED t]> m)
    = (count_funded_once cid m
       + if bool_decide (t_competition t = cid) then 1 else 0)%nat.
Proof.
  intros Hid Hst. unfold staked, count_funded_once.
  destruct (funded_once_fund cid m id t Hid Hst) as [Hnone ->].
  case_bool_decide.
  - split.
    + rewrite (sum_amounts_perm _ _
                 (fmap_Permutation _ _ _ (map_to_list_insert _ _ _ Hnone))).
      rewrite fmap_cons, sum_amounts_cons. cbn [snd t_amount set_t_state]. lia.
    + rewrite map_size_insert_None by exact Hnone. lia.
  - split; [lia|lia].
Qed.

(** [set_ticket_funded] on an INITIAL ticket whose competition does not
    exist: the ticket is FUNDED when the assertion fails. *)
Lemma set_ticket_funded_orphan fuel id s t :
  tickets s !! id = Some t → t_state t = INITIAL →
  competitions s !! t_competition t = None →
  set_ticket_funded (S fuel) id s
  = (set_tickets (<[id := set_t_state FUNDED t]> (tickets s)) s,
     inl (AssertionError "Couldn't get competition from ticket being paid")).
Proof.
  intros Hid Hst Hc. unfold set_ticket_funded.
  erewrite run_bind_ok by (apply cas_ticket_state_hit; eassumption).
  simpl. unfold get_ticket at 1. rewrite run_bind. simpl.
  rewrite lookup_insert_eq. rewrite run_bind. simpl.
  apply while_true_raise.
  unfold get_competition. rewrite run_bind. simpl. rewrite Hc. reflexivity.
Qed.

(** Purchases, purges and [update_competition] write neither sold, nor
    choices, nor the state of a competition. *)
Section BooksKept.
Context (cid : string) (c : Competition).
Let R : Competition → Prop :=
  λ c', c_sold c' = c_sold c ∧ c_choices c' = c_choices c
        ∧ c_state c' = c_state c.
Let I : Store → Prop := λ s, ∃ c', competitions s !! cid = Some c' ∧ R c'.
Let HI : ∀ s s', competitions s' = competitions s → I s → I s' :=
  row_property_reads_competitions R cid.



End BooksKept.





(** ** From the creation of a competition on *)



(** ** Failures after a write *)



(** X6: a purge for a competition that does not exist deletes the expired
    INITIAL tickets that name it and then fails on its assertion, leaving
    them deleted; when no such ticket has expired it returns normally and
    changes nothing. *)
Theorem purge_expired_tickets_missing_competition
    (fuel : nat) (now : Z) (competition_id : string) (s : Store) :
  competitions s !! competition_id = None →
  let cond := expired competition_id (now - TICKET_PURGE_TIME) in
  let r := purge_expired_tickets (S fuel) now competition_id s in
  competitions (fst r) = competitions s
  ∧ tickets (fst r) = tickets_where (λ t, negb (cond t)) (tickets s)
  ∧ ((∃ id t, tickets s !! id = Some t ∧ cond t = true) →
     snd r = inl (AssertionError
                    "Couldn't get competition data for tickets being purged"))
  ∧ ((∀ id t, tickets s !! id = Some t → cond t = false) → r = (s, inr tt)).
Proof.
  intros Hc cond r. subst r. rewrite purge_expired_tickets_run. cbv zeta.
  fold cond. rewrite Hc.
  match goal with |- context [decide ?P] => destruct (decide P) as [Hn|Hn] end.
  - apply map_size_empty_iff in Hn.
    pose proof (proj1 (tickets_where_empty_iff _ _) Hn) as Hnone.
    split; [reflexivity|]. split; [reflexivity|]. split.
    + intros (id & t & Hid & Hex). rewrite (Hnone id t Hid) in Hex.
      discriminate Hex.
    + intros _. unfold set_tickets. f_equal.
      transitivity (mkStore (tickets s) (competitions s)); [|apply store_eta].
      f_equal. unfold tickets_where. apply map_filter_id. intros id t Hid.
      simpl. rewrite (Hnone id t Hid). exact I.
  - split; [reflexivity|]. split; [reflexivity|]. split; [reflexivity|].
    intros Hnone. exfalso. apply Hn. apply map_size_empty_iff.
    apply tickets_where_empty_iff. exact Hnone.
Qed.

Lemma purge_expired_tickets_missing_competition_witness :
  let t tm := mkTicket "w" "c1" 10 "lnurl" 0 INITIAL 0 "" "" tm in
  let s := mkStore {["t1" := t 5; "t2" := t 995]} ∅ in
  tickets (fst (purge_expired_tickets 1 1000 "c1" s)) = {["t2" := t 995]}.
Proof.
  intros t s.
  destruct (purge_expired_tickets_missing_competition 0 1000 "c1" s eq_refl)
    as (_ & Htickets & _).
  exact (eq_trans Htickets eq_refl).
Defined.

(** ** Ids are never reused *)

Lemma create_competition_tickets competition_id register_id now data s :
  tickets (fst (create_competition competition_id register_id now data s))
  = tickets s.
Proof.
  assert (Hall : preserves (λ s', tickets s' = tickets s)
                   (create_competition competition_id register_id now data)).
  { pose proof (tickets_fixed (tickets s)) as HI.
    unfold create_competition. repeat tickets_step HI. }
  apply Hall. reflexivity.
Qed.

(** X7: [create_ticket] and [create_competition] never overwrite a row:
    with an id that is in use each raises IntegrityError and leaves the
    whole store as it was; and a successful [create_competition] adds its
    row and changes no ticket and no other competition. *)
Theorem inserts_never_overwrite (s : Store) :
  (∀ fuel now ticket_id wallet competition amount reward_target choice,
     is_Some (tickets s !! ticket_id) →
     create_ticket fuel now ticket_id wallet competition amount reward_target
       choice s
     = (s, inl IntegrityError))
  ∧ (∀ competition_id register_id now data,
       is_Some (competitions s !! competition_id) →
       create_competition competition_id register_id now data s
       = (s, inl IntegrityError))
  ∧ (∀ competition_id register_id now data,
       competitions s !! competition_id = None →
       let s' := fst (create_competition competition_id register_id now data s) in
       tickets s' = tickets s
       ∧ ∀ id, id ≠ competition_id →
               competitions s' !! id = competitions s !! id).
Proof.
  split; [|split].
  - intros fuel now ticket_id wallet competition amount reward_target choice
      [t0 Ht].
    unfold create_ticket.
    erewrite run_bind_raise; [reflexivity|].
    eapply sql_insert_ticket_taken. exact Ht.
  - intros competition_id register_id now data [c0 Hc].
    unfold create_competition.
    erewrite run_bind_raise; [reflexivity|].
    unfold sql_insert_competition. rewrite Hc. reflexivity.
  - intros competition_id register_id now data Hfresh s'. subst s'.
    split; [apply create_competition_tickets|].
    intros id Hne. unfold create_competition.
    erewrite run_bind_ok by (apply sql_insert_competition_fresh; exact Hfresh).
    unfold get_competition. rewrite run_bind. simpl.
    rewrite lookup_insert_eq. simpl. apply lookup_insert_ne. congruence.
Qed.

(** ** Closing a competition *)

Lemma cas_competition_state_hit id old new s c :
  competitions s !! id = Some c → c_state c = old →
  cas_competition_state id old new s
  = (set_competitions (<[id := set_c_state new c]> (competitions s)) s,
     inr true).
Proof.
  intros Hc Hst. unfold cas_competition_state.
  erewrite run_bind_ok.
  2:{ apply (sql_update_competition_hit _ _ _ _ c); [exact Hc|].
      apply bool_decide_eq_true_2. exact Hst. }
  reflexivity.
Qed.

Lemma cas_competition_state_miss id old new s :
  (∀ c, competitions s !! id = Some c → c_state c ≠ old) →
  cas_competition_state id old new s = (s, inr false).
Proof.
  intros Hmiss. unfold cas_competition_state, sql_update_competition.
  rewrite run_bind.
  destruct (competitions s !! id) as [c|] eqn:Hc; [|reflexivity].
  rewrite (bool_decide_eq_false_2 _ (Hmiss c eq_refl)). reflexivity.
Qed.

(** X8: [cas_competition_state] moves a competition out of INITIAL exactly
    once: the first call answers True and changes only the state of that
    row, a second identical call answers False and changes nothing. On the
    closed competition a purchase is still accepted: [create_ticket]
    inserts and returns the ticket but takes nothing from amount_tickets;
    and [update_competition] with a field to set answers None. *)
Theorem closing_a_competition
    (competition_id new_state : string) (s : Store) (c : Competition) :
  competitions s !! competition_id = Some c →
  c_state c = INITIAL →
  new_state ≠ INITIAL →
  let s1 := set_competitions
              (<[competition_id := set_c_state new_state c]> (competitions s))
              s in
  cas_competition_state competition_id INITIAL new_state s = (s1, inr true)
  ∧ cas_competition_state competition_id INITIAL new_state s1 = (s1, inr false)
  ∧ (∀ fuel now r,
       tr_competition r = competition_id →
       tickets s !! tr_ticket_id r = None →
       create_ticket_for (S fuel) now r s1
       = (set_tickets (<[tr_ticket_id r := new_ticket now r]> (tickets s1)) s1,
          inr (new_ticket now r)))
  ∧ (∀ data,
       is_Some (uc_amount_tickets data) ∨ is_Some (uc_closing_datetime data) →
       update_competition competition_id data s1 = (s1, inr None)).
Proof.
  intros Hc Hini Hnew s1.
  assert (Hc1 : competitions s1 !! competition_id = Some (set_c_state new_state c))
    by apply lookup_insert_eq.
  split; [apply cas_competition_state_hit; assumption|].
  split; [|split].
  - apply cas_competition_state_miss. intros c' Hc'.
    assert (c' = set_c_state new_state c) by congruence. subst c'. exact Hnew.
  - intros fuel now r Hr Ht.
    apply (create_ticket_for_closed fuel now r s1 (set_c_state new_state c)).
    + exact Ht.
    + rewrite Hr. exact Hc1.
    + exact Hnew.
  - intros data Hsome. unfold update_competition.
    assert (Hset : update_setters data ≠ []).
    { unfold update_setters.
      destruct Hsome as [[v Hv]|[v Hv]]; rewrite Hv;
        [discriminate|destruct (uc_amount_tickets data); discriminate]. }
    rewrite (bool_decide_eq_false_2 _ Hset).
    unfold sql_update_competition. rewrite run_bind, Hc1. simpl.
    rewrite (bool_decide_eq_false_2 (new_state = INITIAL)) by exact Hnew.
    reflexivity.
Qed.

Lemma closing_a_competition_witness :
  let c := mkCompetition "w" "r" "n" "i" "b" "d" 3 1 9 0
             [mkChoice "A" 0] (-1) INITIAL 0 in
  let s := mkStore ∅ {["c1" := c]} in
  let s1 := mkStore ∅ {["c1" := set_c_state "CLOSED" c]} in
  cas_competition_state "c1" INITIAL "CLOSED" s = (s1, inr true)
  ∧ cas_competition_state "c1" INITIAL "CLOSED" s1 = (s1, inr false).
Proof.
  intros c s s1.
  destruct (closing_a_competition "c1" "CLOSED" s c eq_refl eq_refl
              ltac:(discriminate)) as (H1 & H2 & _).
  split; [exact H1|exact H2].
Defined.

(** ** update_competition *)

(** The row [update_competition] writes: the given fields replace the old
    ones, every other column stays. *)
Lemma apply_update_setters data c :
  apply_setters (update_setters data) c
  = mkCompetition (c_wallet c) (c_register_id c) (c_name c) (c_info c)
      (c_banner c)
      (default (c_closing_datetime c) (uc_closing_datetime data))
      (default (c_amount_tickets c) (uc_amount_tickets data))
      (c_min_bet c) (c_max_bet c) (c_sold c) (c_choices c)
      (c_winning_choice c) (c_state c) (c_time c).
Proof.
  unfold update_setters, apply_setters.
  destruct c, (uc_amount_tickets data), (uc_closing_datetime data); reflexivity.
Qed.

(** X9: [update_competition] never raises and never touches a ticket or
    another competition. With no field to set it only reads: it answers the
    row, whatever its state, or None when there is none. With a field to
    set it writes only while the competition is INITIAL: then the given
    fields replace the old ones, every other column stays, and the new row
    is answered; for a competition that is missing or has left INITIAL it
    answers None and changes nothing. *)
Theorem update_competition_result
    (competition_id : string) (data : UpdateCompetition) (s : Store) :
  let r := update_competition competition_id data s in
  let written c :=
    mkCompetition (c_wallet c) (c_register_id c) (c_name c) (c_info c)
      (c_banner c)
      (default (c_closing_datetime c) (uc_closing_datetime data))
      (default (c_amount_tickets c) (uc_amount_tickets data))
      (c_min_bet c) (c_max_bet c) (c_sold c) (c_choices c)
      (c_winning_choice c) (c_state c) (c_time c) in
  tickets (fst r) = tickets s
  ∧ (∀ id, id ≠ competition_id →
           competitions (fst r) !! id = competitions s !! id)
  ∧ (uc_amount_tickets data = None ∧ uc_closing_datetime data = None →
     r = (s, inr (competitions s !! competition_id)))
  ∧ (is_Some (uc_amount_tickets data) ∨ is_Some (uc_closing_datetime data) →
     match competitions s !! competition_id with
     | Some c =>
         if decide (c_state c = INITIAL)
         then r = (set_competitions
                     (<[competition_id := written c]> (competitions s)) s,
                   inr (Some (written c)))
         else r = (s, inr None)
     | None => r = (s, inr None)
     end).
Proof.
  intros r written.
  assert (Hread : uc_amount_tickets data = None
                  ∧ uc_closing_datetime data = None →
                  r = (s, inr (competitions s !! competition_id))).
  { intros [Ha Hd]. unfold r, update_competition, update_setters.
    rewrite Ha, Hd. reflexivity. }
  assert (Hwrite : is_Some (uc_amount_tickets data)
                   ∨ is_Some (uc_closing_datetime data) →
     match competitions s !! competition_id with
     | Some c =>
         if decide (c_state c = INITIAL)
         then r = (set_competitions
                     (<[competition_id := written c]> (competitions s)) s,
                   inr (Some (written c)))
         else r = (s, inr None)
     | None => r = (s, inr None)
     end).
  { intros Hsome. unfold r, update_competition.
    assert (Hset : update_setters data ≠ []).
    { unfold update_setters.
      destruct Hsome as [[v Hv]|[v Hv]]; rewrite Hv;
        [discriminate|destruct (uc_amount_tickets data); discriminate]. }
    rewrite (bool_decide_eq_false_2 _ Hset).
    unfold sql_update_competition. rewrite run_bind.
    destruct (competitions s !! competition_id) as [c|] eqn:Hc; [|reflexivity].
    destruct (decide (c_state c = INITIAL)) as [Hst|Hst].
    - rewrite (bool_decide_eq_true_2 _ Hst). simpl.
      unfold get_competition. simpl. rewrite lookup_insert_eq.
      rewrite apply_update_setters. reflexivity.
    - rewrite (bool_decide_eq_false_2 _ Hst). reflexivity. }
  split; [apply update_competition_tickets|].
  split; [|split; [exact Hread|exact Hwrite]].
  intros id Hne.
  destruct (uc_amount_tickets data) as [a|] eqn:Ha.
  - assert (Hsome : is_Some (Some a) ∨ is_Some (uc_closing_datetime data))
      by (left; eauto).
    specialize (Hwrite Hsome).
    destruct (competitions s !! competition_id) as [c|];
      [destruct (decide (c_state c = INITIAL))|]; rewrite Hwrite; simpl;
      try reflexivity.
    apply lookup_insert_ne. congruence.
  - destruct (uc_closing_datetime data) as [d|] eqn:Hd.
    + assert (Hsome : is_Some (@None Z) ∨ is_Some (Some d)) by (right; eauto).
      specialize (Hwrite Hsome).
      destruct (competitions s !! competition_id) as [c|];
        [destruct (decide (c_state c = INITIAL))|]; rewrite Hwrite; simpl;
        try reflexivity.
      apply lookup_insert_ne. congruence.
    + rewrite (Hread (conj eq_refl eq_refl)). reflexivity.
Qed.

(** ** Deleting *)

(** X10: [delete_competition] removes the competition row only: every
    ticket stays, also those of the deleted competition, and funding one of
    them afterwards fails on the missing competition with the ticket
    already FUNDED. [delete_competition_tickets] removes exactly the
    tickets that name the competition and no competition row. In either
    order the two leave the same store, in which the competition is gone,
    no ticket names it, its payments count as complete and a purge for it
    changes nothing. *)
Theorem deleting_a_competition (competition_id : string) (s : Store) :
  let s_c := mkStore (tickets s) (delete competition_id (competitions s)) in
  let s_t := mkStore
               (tickets_where (λ t, negb (of_competition competition_id t))
                  (tickets s))
               (competitions s) in
  let s_ct := mkStore (tickets s_t) (competitions s_c) in
  delete_competition competition_id s = (s_c, inr tt)
  ∧ delete_competition_tickets competition_id s = (s_t, inr tt)
  ∧ delete_competition_tickets competition_id s_c = (s_ct, inr tt)
  ∧ delete_competition competition_id s_t = (s_ct, inr tt)
  ∧ competitions s_ct !! competition_id = None
  ∧ (∀ id t, tickets s_ct !! id = Some t ↔
             tickets s !! id = Some t ∧ t_competition t ≠ competition_id)
  ∧ (∀ fuel id t,
       tickets s !! id = Some t → t_competition t = competition_id →
       t_state t = INITIAL →
       set_ticket_funded (S fuel) id s_c
       = (set_tickets (<[id := set_t_state FUNDED t]> (tickets s_c)) s_c,
          inl (AssertionError
                 "Couldn't get competition from ticket being paid")))
  ∧ is_competition_payment_complete competition_id s_ct = (s_ct, inr true)
  ∧ (∀ fuel now,
       purge_expired_tickets fuel now competition_id s_ct = (s_ct, inr tt)).
Proof.
  intros s_c s_t s_ct.
  assert (Hleft : ∀ id t, tickets s_ct !! id = Some t ↔
                          tickets s !! id = Some t
                          ∧ t_competition t ≠ competition_id).
  { intros id t. simpl. rewrite lookup_tickets_where.
    unfold of_competition. rewrite negb_true_iff, bool_decide_eq_false.
    reflexivity. }
  split; [reflexivity|]. split; [reflexivity|].
  split; [reflexivity|]. split; [reflexivity|].
  split; [apply lookup_delete_eq|]. split; [exact Hleft|].
  split; [|split].
  - intros fuel id t Hid Hc Hst.
    apply set_ticket_funded_orphan; [exact Hid|exact Hst|].
    rewrite Hc. apply lookup_delete_eq.
  - unfold is_competition_payment_complete, sql_fetchone_ticket_where.
    rewrite run_bind.
    assert (Hnone : head (map_to_list
                            (tickets_where (payment_pending competition_id)
                               (tickets s_ct))) = None).
    { apply fetchone_none_iff. intros id t Hid.
      apply Hleft in Hid as [_ Hn]. unfold payment_pending.
      rewrite (bool_decide_eq_false_2 _ Hn). reflexivity. }
    rewrite Hnone. reflexivity.
  - intros fuel now. apply purge_nothing_expired. intros id t Hid.
    apply Hleft in Hid as [_ Hn]. unfold expired.
    rewrite (bool_decide_eq_false_2 _ Hn). reflexivity.
Qed.

(** ** sum_choices_amounts *)

(** The sum of the amounts of the rows with a given choice. *)
Lemma group_amounts_lookup (rows : list (string * Ticket)) (ch : Z) :
  group_amounts rows !! ch
  = if bool_decide (Exists (λ kt, t_choice kt.2 = ch) rows)
    then Some (sum_amounts
                 ((λ kt : string * Ticket, t_amount kt.2)
                    <$> filter (λ kt, t_choice kt.2 = ch) rows))
    else None.
Proof.
  induction rows as [|kt rows IH].
  - change (group_amounts []) with (∅ : gmap Z Z). rewrite lookup_empty.
    case_bool_decide as H; [apply Exists_nil in H; destruct H|reflexivity].
  - change (group_amounts (kt :: rows))
      with (<[t_choice kt.2 :=
                t_amount kt.2 + default 0 (group_amounts rows !! t_choice kt.2)]>
              (group_amounts rows)).
    destruct (decide (t_choice kt.2 = ch)) as [Hc|Hc].
    + rewrite Hc, lookup_insert_eq, IH.
      rewrite (bool_decide_eq_true_2 (Exists _ (kt :: rows)))
        by (apply Exists_cons; left; exact Hc).
      rewrite filter_cons_True by exact Hc.
      rewrite fmap_cons, sum_amounts_cons. f_equal.
      case_bool_decide as Hex; [reflexivity|]. simpl.
      assert (Hnil : filter (λ kt0 : string * Ticket, t_choice kt0.2 = ch) rows = []).
      { destruct (filter (λ kt0 : string * Ticket, t_choice kt0.2 = ch) rows)
          as [|x l] eqn:Hf; [reflexivity|].
        exfalso. apply Hex. apply Exists_exists. exists x.
        assert (Hx : x ∈ filter (λ kt0 : string * Ticket, t_choice kt0.2 = ch)
                           rows) by (rewrite Hf; left).
        apply list_elem_of_filter in Hx as [Hp Hx]. auto. }
      rewrite Hnil. reflexivity.
    + rewrite lookup_insert_ne by exact Hc. rewrite IH.
      rewrite filter_cons_False by exact Hc.
      destruct (decide (Exists (λ kt0 : string * Ticket, t_choice kt0.2 = ch) rows))
        as [Hex|Hex].
      * assert (Hex' : Exists (λ kt0 : string * Ticket, t_choice kt0.2 = ch)
                         (kt :: rows))
          by (apply Exists_cons; right; exact Hex).
        rewrite (bool_decide_eq_true_2 _ Hex), (bool_decide_eq_true_2 _ Hex').
        reflexivity.
      * assert (Hex' : ¬ Exists (λ kt0 : string * Ticket, t_choice kt0.2 = ch)
                           (kt :: rows))
          by (intros H; apply Exists_cons in H as [H|H]; contradiction).
        rewrite (bool_decide_eq_false_2 _ Hex), (bool_decide_eq_false_2 _ Hex').
        reflexivity.
Qed.

Lemma map_to_list_tickets_where cond (m : gmap string Ticket) :
  map_to_list (tickets_where cond m)
  ≡ₚ filter (λ kt : string * Ticket, cond kt.2) (map_to_list m).
Proof.
  unfold tickets_where. rewrite map_filter_alt.
  apply map_to_list_to_map.
  apply (sublist_NoDup _ ((map_to_list m).*1));
    [apply NoDup_fst_map_to_list|apply fmap_sublist, sublist_filter].
Qed.

Lemma filter_choice_rows cid ch (m : gmap string Ticket) :
  filter (λ kt : string * Ticket, t_choice kt.2 = ch)
    (map_to_list (tickets_where (of_competition cid) m))
  ≡ₚ map_to_list (tickets_where (with_choice cid ch) m).
Proof.
  rewrite (map_to_list_tickets_where (with_choice cid ch) m).
  rewrite (map_to_list_tickets_where (of_competition cid) m).
  rewrite list_filter_filter.
  induction (map_to_list m) as [|kt l IH]; [reflexivity|].
  rewrite !filter_cons. unfold with_choice, of_competition in *.
  destruct (decide (t_competition kt.2 = cid)) as [H1|H1],
           (decide (t_choice kt.2 = ch)) as [H2|H2].
  - rewrite !decide_True; [rewrite IH; reflexivity| |].
    + rewrite !bool_decide_eq_true_2 by assumption. exact I.
    + split; [exact H2|]. rewrite bool_decide_eq_true_2 by assumption. exact I.
  - rewrite !decide_False; [exact IH| |].
    + rewrite (bool_decide_eq_false_2 _ H2), andb_false_r. exact (λ x, x).
    + intros [H _]. contradiction.
  - rewrite !decide_False; [exact IH| |].
    + rewrite (bool_decide_eq_false_2 _ H1). exact (λ x, x).
    + intros [_ H]. rewrite (bool_decide_eq_false_2 _ H1) in H. exact H.
  - rewrite !decide_False; [exact IH| |].
    + rewrite (bool_decide_eq_false_2 _ H1). exact (λ x, x).
    + intros [H _]. contradiction.
Qed.

(** X11: [sum_choices_amounts] reads without writing and answers one row
    per choice that some ticket of the competition names, no choice twice;
    the amount_sum of a row is the sum of the amounts of all the tickets of
    the competition on that choice, whatever their state (tickets not yet
    funded count), and a choice no ticket names has no row. *)
Theorem sum_choices_amounts_groups (competition_id : string) (s : Store) :
  ∃ sums,
    sum_choices_amounts competition_id s = (s, inr sums)
    ∧ NoDup (choice <$> sums)
    ∧ ∀ ch sm,
        mkChoiceAmountSum ch sm ∈ sums
        ↔ (∃ id t, tickets s !! id = Some t
                   ∧ t_competition t = competition_id ∧ t_choice t = ch)
          ∧ sm = stakes_on competition_id ch (tickets s).
Proof.
  set (rows := map_to_list
                 (tickets_where (of_competition competition_id) (tickets s))).
  exists ((λ g : Z * Z, mkChoiceAmountSum g.1 g.2)
            <$> map_to_list (group_amounts rows)).
  split; [reflexivity|]. split.
  - rewrite <- list_fmap_compose.
    change (choice ∘ (λ g : Z * Z, mkChoiceAmountSum g.1 g.2)) with (@fst Z Z).
    apply NoDup_fst_map_to_list.
  - intros ch sm. rewrite list_elem_of_fmap. split.
    + intros ([ch' sm'] & Heq & Hin). simpl in Heq. injection Heq as -> ->.
      apply elem_of_map_to_list in Hin. rewrite group_amounts_lookup in Hin.
      case_bool_decide as Hex; [|discriminate Hin]. injection Hin as <-.
      split.
      * apply Exists_exists in Hex as ([id t] & Hrow & Hch).
        unfold rows in Hrow. apply elem_of_map_to_list in Hrow.
        apply lookup_tickets_where in Hrow as [Hid Hc].
        apply bool_decide_eq_true in Hc. exists id, t. auto.
      * unfold stakes_on. apply sum_amounts_perm, fmap_Permutation.
        apply filter_choice_rows.
    + intros [(id & t & Hid & Hc & Hch) ->].
      exists (ch, stakes_on competition_id ch (tickets s)).
      split; [reflexivity|]. apply elem_of_map_to_list.
      rewrite group_amounts_lookup.
      rewrite bool_decide_eq_true_2.
      * f_equal. unfold stakes_on. apply sum_amounts_perm, fmap_Permutation.
        apply filter_choice_rows.
      * apply Exists_exists. exists (id, t). split; [|exact Hch].
        unfold rows. apply elem_of_map_to_list, lookup_tickets_where.
        split; [exact Hid|]. apply bool_decide_eq_true_2. exact Hc.
Qed.

(** ** get_state_competition_tickets *)

(** X12: [get_state_competition_tickets] refuses an empty list of states
    with an assertion error; otherwise, for states that hold no single
    quote, it reads without writing and answers each ticket of the
    competition whose state is in the list exactly once, and no other row.
    Right after [update_competition_winners] for the competition it answers
    no row for the state FUNDED. *)
Theorem get_state_competition_tickets_rows
    (competition_id : string) (states : list string) (s : Store) :
  (states = [] →
   get_state_competition_tickets competition_id states s
   = (s, inl (AssertionError
                "get_state_competition_tickets called with no states")))
  ∧ (states ≠ [] → Forall (λ st, has_quote st = false) states →
     ∃ rows,
       get_state_competition_tickets competition_id states s = (s, inr rows)
       ∧ NoDup (rows.*1)
       ∧ ∀ id t, (id, t) ∈ rows
                 ↔ tickets s !! id = Some t
                   ∧ t_competition t = competition_id ∧ t_state t ∈ states)
  ∧ (∀ choices winning_choice,
       let s' := fst (update_competition_winners competition_id choices
                        winning_choice s) in
       get_state_competition_tickets competition_id [FUNDED] s' = (s', inr [])).
Proof.
  split; [|split].
  - intros ->. reflexivity.
  - intros Hne _. unfold get_state_competition_tickets.
    rewrite (bool_decide_eq_false_2 _ Hne).
    eexists. split; [reflexivity|]. split; [apply NoDup_fst_map_to_list|].
    intros id t. split.
    + intros Hin.
      apply elem_of_map_to_list, lookup_tickets_where in Hin as [Hid Hc].
      apply andb_true_iff in Hc as [H1 H2].
      apply bool_decide_eq_true in H1. apply bool_decide_eq_true in H2. auto.
    + intros (Hid & H1 & H2). apply elem_of_map_to_list, lookup_tickets_where.
      split; [exact Hid|]. apply andb_true_iff.
      split; apply bool_decide_eq_true_2; assumption.
  - intros choices winning_choice s'. unfold get_state_competition_tickets.
    rewrite bool_decide_eq_false_2 by discriminate.
    unfold sql_fetchall_tickets_where. f_equal. f_equal.
    apply map_to_list_empty_iff, tickets_where_empty_iff.
    intros id t' Hid. subst s'.
    rewrite update_competition_winners_run in Hid. simpl in Hid.
    apply lookup_fmap_Some in Hid as (t & <- & _).
    pose proof (settle_not_funded competition_id winning_choice t) as Hnf.
    apply andb_false_iff.
    destruct (decide (t_competition (settle competition_id winning_choice t)
                      = competition_id)) as [Hc|Hc];
      [right|left; apply bool_decide_eq_false_2; exact Hc].
    apply bool_decide_eq_false_2. intros Hin.
    apply list_elem_of_singleton in Hin.
    rewrite (proj2 (funded_in_true _ _) (conj Hc Hin)) in Hnf.
    discriminate Hnf.
Qed.

(** ** Interleaved funding *)

Section StepFund.
Context (k : FundCall) (s : Store).
Let x := f_ticket_id k.

Lemma step_fund_cas_hit t :
  f_point k = AtCas → tickets s !! x = Some t → t_state t = INITIAL →
  step_fund k s
  = (set_tickets (<[x := set_t_state FUNDED t]> (tickets s)) s, fund_won k).
Proof.
  intros Hp Ht Hst. unfold step_fund. rewrite Hp. fold x.
  rewrite (cas_ticket_state_hit _ _ _ _ t Ht Hst). reflexivity.
Qed.

Lemma step_fund_cas_miss :
  f_point k = AtCas →
  (∀ t, tickets s !! x = Some t → t_state t ≠ INITIAL) →
  step_fund k s = (s, fund_at (Funded (inr tt)) k).
Proof.
  intros Hp Hmiss. unfold step_fund. rewrite Hp. fold x.
  destruct (tickets s !! x) as [t|] eqn:Ht.
  - rewrite (cas_ticket_state_miss _ _ _ _ t Ht (Hmiss t eq_refl)). reflexivity.
  - destruct (set_ticket_funded_missing_row 0 x s Ht) as [-> _]. reflexivity.
Qed.

Lemma step_fund_ticket :
  f_point k = AtTicket →
  step_fund k s
  = (s, fund_at
          match tickets s !! x with
          | Some t => AtCompetition t
          | None => Funded (inl (AssertionError "Ticket not found after funding"))
          end k).
Proof.
  intros Hp. unfold step_fund. rewrite Hp. fold x.
  unfold get_ticket. rewrite run_bind. simpl.
  destruct (tickets s !! x); reflexivity.
Qed.

Lemma step_fund_competition t :
  f_point k = AtCompetition t →
  step_fund k s
  = (s, fund_at
          match competitions s !! t_competition t with
          | Some c =>
              if decide (c_state c = INITIAL) then
                match py_index (c_choices c) (t_choice t) with
                | Some j =>
                    AtFold t c (alter (add_total (t_amount t)) j (c_choices c))
                | None => Funded (inl IndexError)
                end
              else Funded (inr tt)
          | None =>
              Funded (inl (AssertionError
                             "Couldn't get competition from ticket being paid"))
          end k).
Proof.
  intros Hp. unfold step_fund. rewrite Hp.
  unfold get_competition. rewrite run_bind. simpl.
  destruct (competitions s !! t_competition t) as [c|]; [|reflexivity].
  simpl. rewrite run_bind. simpl.
  destruct (decide (c_state c = INITIAL)) as [Hst|Hst].
  - rewrite (bool_decide_eq_false_2 (c_state c ≠ INITIAL)) by tauto.
    unfold add_to_choice.
    destruct (py_index (c_choices c) (t_choice t)); reflexivity.
  - rewrite (bool_decide_eq_true_2 _ Hst). reflexivity.
Qed.

Lemma step_fund_fold_hit t competitiondata choices c :
  f_point k = AtFold t competitiondata choices →
  competitions s !! t_competition t = Some c →
  c_sold c = c_sold competitiondata → c_state c = INITIAL →
  step_fund k s
  = (set_competitions
       (<[t_competition t :=
            set_c_choices choices (set_c_sold (c_sold c + 1) c)]>
          (competitions s)) s,
     fund_folded k).
Proof.
  intros Hp Hc Hs Hst. unfold step_fund. rewrite Hp.
  erewrite sql_update_competition_hit; [|exact Hc|].
  - simpl. rewrite Hs. reflexivity.
  - rewrite (bool_decide_eq_true_2 _ Hs), (bool_decide_eq_true_2 _ Hst).
    reflexivity.
Qed.

Lemma step_fund_fold_miss t competitiondata choices :
  f_point k = AtFold t competitiondata choices →
  (∀ c, competitions s !! t_competition t = Some c →
        ¬ (c_sold c = c_sold competitiondata ∧ c_state c = INITIAL)) →
  step_fund k s = (s, fund_at (AtCompetition t) k).
Proof.
  intros Hp Hmiss. unfold step_fund. rewrite Hp.
  unfold sql_update_competition.
  destruct (competitions s !! t_competition t) as [c|] eqn:Hc; [|reflexivity].
  specialize (Hmiss c eq_refl).
  destruct (bool_decide (c_sold c = c_sold competitiondata)
            && bool_decide (c_state c = INITIAL)) eqn:Hb; [|reflexivity].
  apply andb_true_iff in Hb as [H1 H2].
  apply bool_decide_eq_true in H1. apply bool_decide_eq_true in H2. tauto.
Qed.

Lemma step_fund_finished result :
  f_point k = Funded result → step_fund k s = (s, k).
Proof. intros Hp. unfold step_fund. rewrite Hp. reflexivity. Qed.
End StepFund.

(** Alone on the store, the four statements of a funding call are
    [set_ticket_funded]. *)
Lemma fund_steps_alone_set_ticket_funded fuel ticket_id s :
  let σ := fund_steps_alone 4 (start_fund ticket_id) s in
  fst σ = fst (set_ticket_funded (S fuel) ticket_id s)
  ∧ f_point (snd σ) = Funded (snd (set_ticket_funded (S fuel) ticket_id s)).
Proof.
  unfold start_fund. simpl.
  destruct (tickets s !! ticket_id) as [t|] eqn:Ht.
  2:{ erewrite step_fund_cas_miss by (reflexivity || simpl; congruence).
      simpl. destruct (set_ticket_funded_missing_row (S fuel) ticket_id s Ht)
        as [_ ->]. split; reflexivity. }
  destruct (decide (t_state t = INITIAL)) as [Hst|Hst].
  2:{ erewrite step_fund_cas_miss.
      2: reflexivity.
      2:{ simpl. intros t' Ht'. congruence. }
      simpl. rewrite (set_ticket_funded_again (S fuel) ticket_id s t Ht Hst).
      split; reflexivity. }
  erewrite step_fund_cas_hit by (reflexivity || eassumption). simpl.
  erewrite step_fund_ticket by reflexivity. simpl.
  rewrite lookup_insert_eq. simpl.
  erewrite step_fund_competition by reflexivity. simpl.
  destruct (competitions s !! t_competition t) as [c|] eqn:Hc.
  2:{ simpl. rewrite (set_ticket_funded_orphan fuel ticket_id s t Ht Hst Hc).
      split; reflexivity. }
  rewrite (set_ticket_funded_run fuel ticket_id s t c Ht Hst Hc). cbv zeta.
  destruct (decide (c_state c = INITIAL)) as [Hini|Hini];
    [|split; reflexivity].
  destruct (py_index (c_choices c) (t_choice t)) as [j|]; [|split; reflexivity].
  simpl.
  match goal with
  | |- context [step_fund ?k ?s1] =>
      rewrite (step_fund_fold_hit k s1 (set_t_state FUNDED t) c
                 (alter (add_total (t_amount t)) j (c_choices c)) c
                 eq_refl Hc eq_refl Hini)
  end.
  split; reflexivity.
Qed.
(** *** Sums over the calls *)

Lemma sum_amounts_insert (l : list Z) i x y :
  l !! i = Some x → sum_amounts (<[i := y]> l) = sum_amounts l - x + y.
Proof.
  revert i. induction l as [|z l IH]; intros i Hi; [discriminate Hi|].
  destruct i as [|i]; simpl in *.
  - injection Hi as ->. unfold sum_amounts. simpl. lia.
  - specialize (IH i Hi). unfold sum_amounts in *. simpl. lia.
Qed.

Lemma sum_list_fmap_insert {A} (w : A → nat) (ks : list A) i k k' :
  ks !! i = Some k →
  (sum_list (w <$> <[i := k']> ks) + w k = sum_list (w <$> ks) + w k')%nat.
Proof.
  intros Hi. rewrite list_fmap_insert. apply sum_list_insert.
  rewrite list_lookup_fmap, Hi. reflexivity.
Qed.

Lemma sum_amounts_fmap_insert {A} (w : A → Z) (ks : list A) i k k' :
  ks !! i = Some k →
  sum_amounts (w <$> <[i := k']> ks) = sum_amounts (w <$> ks) - w k + w k'.
Proof.
  intros Hi. rewrite list_fmap_insert. apply sum_amounts_insert.
  rewrite list_lookup_fmap, Hi. reflexivity.
Qed.




Lemma sum_list_fmap_lookup_le {A} (w : A → nat) (ks : list A) i k :
  ks !! i = Some k → (w k ≤ sum_list (w <$> ks))%nat.
Proof.
  revert i. induction ks as [|k0 ks IH]; intros i Hi; [discriminate Hi|].
  rewrite fmap_cons. destruct i as [|i]; simpl in *.
  - injection Hi as ->. lia.
  - specialize (IH i Hi). lia.
Qed.



(** A statement that leaves the call's ticket id and counters alone leaves
    every sum over the calls alone. *)
Section QuietStep.
Context (cid : string) (T0 : gmap string Ticket).
Context (ks : list FundCall) (i : nat) (k k' : FundCall).
Hypothesis Hi : ks !! i = Some k.
Hypothesis Hid : f_ticket_id k' = f_ticket_id k.

Lemma call_stake_same : call_stake cid T0 k' = call_stake cid T0 k.
Proof. unfold call_stake. rewrite Hid. reflexivity. Qed.

Lemma wins_on_insert x :
  (wins_on x (<[i := k']> ks)
   + (if bool_decide (f_ticket_id k = x) then f_won k else 0)
   = wins_on x ks
     + (if bool_decide (f_ticket_id k = x) then f_won k' else 0))%nat.
Proof.
  pose proof (sum_list_fmap_insert
                (λ k, if bool_decide (f_ticket_id k = x) then f_won k else 0%nat)
                ks i k k' Hi) as H.
  cbv beta in H. rewrite Hid in H. exact H.
Qed.

Lemma folds_on_insert x :
  (folds_on x (<[i := k']> ks)
   + (if bool_decide (f_ticket_id k = x) then f_folded k else 0)
   = folds_on x ks
     + (if bool_decide (f_ticket_id k = x) then f_folded k' else 0))%nat.
Proof.
  pose proof (sum_list_fmap_insert
                (λ k, if bool_decide (f_ticket_id k = x) then f_folded k
                      else 0%nat)
                ks i k k' Hi) as H.
  cbv beta in H. rewrite Hid in H. exact H.
Qed.

Lemma wins_for_insert :
  (wins_for cid T0 (<[i := k']> ks)
   + match call_stake cid T0 k with Some _ => f_won k | None => 0 end
   = wins_for cid T0 ks
     + match call_stake cid T0 k with Some _ => f_won k' | None => 0 end)%nat.
Proof.
  pose proof (sum_list_fmap_insert
                (λ k, match call_stake cid T0 k with
                      | Some _ => f_won k | None => 0%nat end)
                ks i k k' Hi) as H.
  cbv beta in H. rewrite call_stake_same in H. exact H.
Qed.

Lemma folds_for_insert :
  (folds_for cid T0 (<[i := k']> ks)
   + match call_stake cid T0 k with Some _ => f_folded k | None => 0 end
   = folds_for cid T0 ks
     + match call_stake cid T0 k with Some _ => f_folded k' | None => 0 end)%nat.
Proof.
  pose proof (sum_list_fmap_insert
                (λ k, match call_stake cid T0 k with
                      | Some _ => f_folded k | None => 0%nat end)
                ks i k k' Hi) as H.
  cbv beta in H. rewrite call_stake_same in H. exact H.
Qed.

Lemma won_stakes_insert :
  won_stakes cid T0 (<[i := k']> ks)
  = won_stakes cid T0 ks
    - match call_stake cid T0 k with
      | Some a => Z.of_nat (f_won k) * a | None => 0 end
    + match call_stake cid T0 k with
      | Some a => Z.of_nat (f_won k') * a | None => 0 end.
Proof.
  pose proof (sum_amounts_fmap_insert
                (λ k, match call_stake cid T0 k with
                      | Some a => Z.of_nat (f_won k) * a | None => 0 end)
                ks i k k' Hi) as H.
  cbv beta in H. rewrite call_stake_same in H. exact H.
Qed.

Lemma folded_stakes_insert :
  folded_stakes cid T0 (<[i := k']> ks)
  = folded_stakes cid T0 ks
    - match call_stake cid T0 k with
      | Some a => Z.of_nat (f_folded k) * a | None => 0 end
    + match call_stake cid T0 k with
      | Some a => Z.of_nat (f_folded k') * a | None => 0 end.
Proof.
  pose proof (sum_amounts_fmap_insert
                (λ k, match call_stake cid T0 k with
                      | Some a => Z.of_nat (f_folded k) * a | None => 0 end)
                ks i k k' Hi) as H.
  cbv beta in H. rewrite call_stake_same in H. exact H.
Qed.

Lemma ticket_after_insert x :
  (f_ticket_id k = x → f_won k' = f_won k) →
  ticket_after T0 (<[i := k']> ks) x = ticket_after T0 ks x.
Proof.
  intros Hw. unfold ticket_after.
  pose proof (wins_on_insert x) as Hx.
  assert (wins_on x (<[i := k']> ks) = wins_on x ks) as ->; [|reflexivity].
  case_bool_decide as Hkx; [rewrite (Hw Hkx) in Hx|]; lia.
Qed.
End QuietStep.
(** *** The invariant of interleaved funding *)

Lemma sums_quiet cid T0 (ks : list FundCall) i k k' :
  ks !! i = Some k →
  f_ticket_id k' = f_ticket_id k → f_won k' = f_won k →
  f_folded k' = f_folded k →
  (∀ x, wins_on x (<[i := k']> ks) = wins_on x ks)
  ∧ wins_for cid T0 (<[i := k']> ks) = wins_for cid T0 ks
  ∧ folds_for cid T0 (<[i := k']> ks) = folds_for cid T0 ks
  ∧ won_stakes cid T0 (<[i := k']> ks) = won_stakes cid T0 ks
  ∧ folded_stakes cid T0 (<[i := k']> ks) = folded_stakes cid T0 ks
  ∧ ∀ x, ticket_after T0 (<[i := k']> ks) x = ticket_after T0 ks x.
Proof.
  intros Hi Hid Hw Hf.
  split; [|split; [|split; [|split; [|split]]]].
  - intros x. pose proof (wins_on_insert ks i k k' Hi Hid x) as H.
    rewrite Hw in H. lia.
  - pose proof (wins_for_insert cid T0 ks i k k' Hi Hid) as H.
    rewrite Hw in H. lia.
  - pose proof (folds_for_insert cid T0 ks i k k' Hi Hid) as H.
    rewrite Hf in H. lia.
  - pose proof (won_stakes_insert cid T0 ks i k k' Hi Hid) as H.
    rewrite Hw in H. lia.
  - pose proof (folded_stakes_insert cid T0 ks i k k' Hi Hid) as H.
    rewrite Hf in H. lia.
  - intros x. apply (ticket_after_insert T0 ks i k k' Hi Hid). intros _. exact Hw.
Qed.

Lemma fund_invariant_quiet cid c0 T0 s ks i k p :
  fund_invariant cid c0 T0 (s, ks) →
  ks !! i = Some k →
  fund_consistent cid T0 (fund_at p k) →
  (∀ c, competitions s !! cid = Some c → fold_fresh cid c (fund_at p k)) →
  fund_invariant cid c0 T0 (s, <[i := fund_at p k]> ks).
Proof.
  intros ((c & Hc & Hst & Hlen & Hsold & Hpool & Hfresh)
          & Htk & Hwin & Hcount & Hstaked & Hks) Hi Hk' Hf'.
  simpl in *.
  destruct (sums_quiet cid T0 ks i k (fund_at p k) Hi eq_refl eq_refl eq_refl)
    as (Ew & Ewf & Eff & Ews & Efs & Eta).
  unfold fund_invariant. simpl. rewrite Ewf, Eff, Ews, Efs.
  split; [|split; [|split; [|split; [|split]]]].
  - exists c. split; [exact Hc|]. split; [exact Hst|]. split; [exact Hlen|].
    split; [exact Hsold|]. split; [exact Hpool|].
    apply Forall_insert; [exact Hfresh|]. apply Hf'. exact Hc.
  - intros x. rewrite Eta. apply Htk.
  - intros x. rewrite Ew. apply Hwin.
  - exact Hcount.
  - exact Hstaked.
  - apply Forall_insert; assumption.
Qed.

Lemma fund_invariant_idle cid c0 T0 s ks i k :
  fund_invariant cid c0 T0 (s, ks) → ks !! i = Some k →
  fund_invariant cid c0 T0 (s, <[i := k]> ks).
Proof. intros Hinv Hi. rewrite list_insert_id by exact Hi. exact Hinv. Qed.
Section FundInvariant.
Context (cid : string) (c0 : Competition) (T0 : gmap string Ticket).
Hypothesis Hrange :
  ∀ id t, T0 !! id = Some t → t_competition t = cid → t_state t = INITIAL →
          - Z.of_nat (length (c_choices c0)) ≤ t_choice t
          < Z.of_nat (length (c_choices c0)).

Lemma fund_invariant_cas s ks i k :
  fund_invariant cid c0 T0 (s, ks) → ks !! i = Some k → f_point k = AtCas →
  fund_invariant cid c0 T0 (let '(s', k') := step_fund k s in (s', <[i := k']> ks)).
Proof.
  intros Hinv Hi Hp.
  pose proof Hinv as ((c & Hc & Hst & Hlen & Hsold & Hpool & Hfresh)
                      & Htk & Hwin & Hcount & Hstaked & Hks).
  simpl in *.
  assert (Hk : fund_consistent cid T0 k)
    by (rewrite Forall_forall in Hks; apply Hks;
        eapply list_elem_of_lookup_2; exact Hi).
  unfold fund_consistent in Hk. rewrite Hp in Hk. destruct Hk as [Hw Hf].
  set (x := f_ticket_id k).
  assert (Hquiet : (∀ t, tickets s !! x = Some t → t_state t ≠ INITIAL) →
                   fund_invariant cid c0 T0
                     (let '(s', k') := step_fund k s in (s', <[i := k']> ks))).
  { intros Hmiss. rewrite (step_fund_cas_miss k s Hp Hmiss).
    apply fund_invariant_quiet; [exact Hinv|exact Hi| |].
    - unfold fund_consistent. simpl. rewrite Hw, Hf.
      split; [lia|]. split; [lia|]. reflexivity.
    - intros c' _. exact I. }
  destruct (T0 !! x) as [t0|] eqn:Ht0.
  2:{ apply Hquiet. intros t Ht. rewrite Htk in Ht. unfold ticket_after in Ht.
      rewrite Ht0 in Ht. discriminate Ht. }
  destruct (decide (t_state t0 = INITIAL)) as [Hini|Hini].
  2:{ apply Hquiet. intros t Ht. rewrite Htk in Ht. unfold ticket_after in Ht.
      rewrite Ht0 in Ht. simpl in Ht.
      rewrite (bool_decide_eq_false_2 _ Hini) in Ht. simpl in Ht.
      injection Ht as <-. exact Hini. }
  destruct (decide (wins_on x ks = 0%nat)) as [Hz|Hz].
  2:{ apply Hquiet. intros t Ht. rewrite Htk in Ht. unfold ticket_after in Ht.
      rewrite Ht0 in Ht. simpl in Ht.
      rewrite (bool_decide_eq_true_2 _ Hini), (bool_decide_eq_true_2 _ Hz) in Ht.
      simpl in Ht. injection Ht as <-. simpl. discriminate. }
  assert (Hx : tickets s !! x = Some t0).
  { rewrite Htk. unfold ticket_after. rewrite Ht0. simpl.
    rewrite (bool_decide_eq_true_2 _ Hini).
    rewrite (bool_decide_eq_false_2 (wins_on x ks ≠ 0%nat)) by tauto.
    reflexivity. }
  rewrite (step_fund_cas_hit k s t0 Hp Hx Hini). fold x.
  assert (Hstake : call_stake cid T0 k
                   = if bool_decide (t_competition t0 = cid)
                     then Some (t_amount t0) else None)
    by (unfold call_stake; fold x; rewrite Ht0; reflexivity).
  pose proof (wins_on_insert ks i k (fund_won k) Hi eq_refl) as Ew.
  pose proof (wins_for_insert cid T0 ks i k (fund_won k) Hi eq_refl) as Ewf.
  pose proof (folds_for_insert cid T0 ks i k (fund_won k) Hi eq_refl) as Eff.
  pose proof (won_stakes_insert cid T0 ks i k (fund_won k) Hi eq_refl) as Ews.
  pose proof (folded_stakes_insert cid T0 ks i k (fund_won k) Hi eq_refl) as Efs.
  destruct (staked_fund cid (tickets s) x t0 Hx Hini) as [Est Ecn].
  simpl in Ew, Ewf, Eff, Ews, Efs. fold x in Ew. rewrite Hw in Ew, Ewf, Ews.
  rewrite Hstake in Ewf, Eff, Ews, Efs.
  unfold fund_invariant. simpl.
  split; [|split; [|split; [|split; [|split]]]].
  - exists c. split; [exact Hc|]. split; [exact Hst|]. split; [exact Hlen|].
    split; [|split].
    + rewrite Hsold. f_equal. f_equal.
      destruct (bool_decide (t_competition t0 = cid)); lia.
    + rewrite Hpool. f_equal.
      destruct (bool_decide (t_competition t0 = cid)); lia.
    + apply Forall_insert; [exact Hfresh|exact I].
  - intros y. destruct (decide (y = x)) as [->|Hyx].
    + rewrite lookup_insert_eq. unfold ticket_after. rewrite Ht0. simpl.
      rewrite (bool_decide_eq_true_2 _ Hini).
      rewrite (bool_decide_eq_true_2 (wins_on x (<[i := fund_won k]> ks) ≠ 0%nat)).
      * reflexivity.
      * specialize (Ew x). rewrite bool_decide_eq_true_2 in Ew by reflexivity. lia.
    + rewrite lookup_insert_ne by congruence. rewrite Htk.
      symmetry. apply (ticket_after_insert T0 ks i k (fund_won k) Hi eq_refl).
      intros Hxy. exfalso. apply Hyx. symmetry. exact Hxy.
  - intros y. specialize (Ew y). destruct (Hwin y) as [Hle Hex].
    destruct (decide (y = x)) as [->|Hyx].
    + rewrite bool_decide_eq_true_2 in Ew by reflexivity.
      split; [lia|]. intros _. exists t0. split; [exact Ht0|exact Hini].
    + rewrite bool_decide_eq_false_2 in Ew by congruence.
      split; [lia|]. intros Hnz. apply Hex. lia.
  - rewrite Ecn, Hcount.
    destruct (bool_decide (t_competition t0 = cid)); lia.
  - rewrite Est, Hstaked.
    destruct (bool_decide (t_competition t0 = cid)); lia.
  - apply Forall_insert; [exact Hks|].
    unfold fund_consistent. simpl. rewrite Hw, Hf. split; reflexivity.
Qed.

Lemma fund_invariant_ticket s ks i k :
  fund_invariant cid c0 T0 (s, ks) → ks !! i = Some k → f_point k = AtTicket →
  fund_invariant cid c0 T0 (let '(s', k') := step_fund k s in (s', <[i := k']> ks)).
Proof.
  intros Hinv Hi Hp.
  pose proof Hinv as (_ & Htk & Hwin & _ & _ & Hks). simpl in *.
  assert (Hk : fund_consistent cid T0 k)
    by (rewrite Forall_forall in Hks; apply Hks;
        eapply list_elem_of_lookup_2; exact Hi).
  unfold fund_consistent in Hk. rewrite Hp in Hk. destruct Hk as [Hw Hf].
  set (x := f_ticket_id k).
  assert (Hnz : wins_on x ks ≠ 0%nat).
  { pose proof (sum_list_fmap_lookup_le
                  (λ k, if bool_decide (f_ticket_id k = x) then f_won k
                        else 0%nat) ks i k Hi) as Hle.
    cbv beta in Hle. rewrite bool_decide_eq_true_2 in Hle by reflexivity.
    unfold wins_on. lia. }
  destruct (Hwin x) as [_ Hex]. destruct (Hex Hnz) as (t0 & Ht0 & Hini).
  assert (Hx : tickets s !! x = Some (set_t_state FUNDED t0)).
  { rewrite Htk. unfold ticket_after. rewrite Ht0. simpl.
    rewrite (bool_decide_eq_true_2 _ Hini), (bool_decide_eq_true_2 _ Hnz).
    reflexivity. }
  rewrite (step_fund_ticket k s Hp). fold x. rewrite Hx.
  apply fund_invariant_quiet; [exact Hinv|exact Hi| |].
  - unfold fund_consistent. simpl. split; [exact Hw|]. split; [exact Hf|].
    exists t0. split; [exact Ht0|]. split; [exact Hini|reflexivity].
  - intros c' _. exact I.
Qed.

Lemma fund_invariant_competition s ks i k t :
  fund_invariant cid c0 T0 (s, ks) → ks !! i = Some k →
  f_point k = AtCompetition t →
  fund_invariant cid c0 T0 (let '(s', k') := step_fund k s in (s', <[i := k']> ks)).
Proof.
  intros Hinv Hi Hp.
  pose proof Hinv as ((c & Hc & Hst & Hlen & _) & _ & _ & _ & _ & Hks).
  simpl in *.
  assert (Hk : fund_consistent cid T0 k)
    by (rewrite Forall_forall in Hks; apply Hks;
        eapply list_elem_of_lookup_2; exact Hi).
  unfold fund_consistent in Hk. rewrite Hp in Hk.
  destruct Hk as (Hw & Hf & t0 & Ht0 & Hini & ->).
  rewrite (step_fund_competition k s _ Hp).
  assert (Hover : ∀ r, t_competition t0 ≠ cid →
                       fund_consistent cid T0 (fund_at (Funded r) k)).
  { intros r Hne. unfold fund_consistent, call_stake. simpl.
    rewrite Hw, Hf, Ht0, (bool_decide_eq_false_2 _ Hne).
    split; [lia|]. split; [lia|]. intros [a Ha]. discriminate Ha. }
  simpl t_competition. simpl t_choice. simpl t_amount.
  destruct (decide (t_competition t0 = cid)) as [Hcid|Hcid].
  - rewrite Hcid, Hc. rewrite decide_True by exact Hst.
    destruct (proj2 (py_index_is_Some (c_choices c) (t_choice t0))) as [j Hj].
    { rewrite Hlen. apply (Hrange _ _ Ht0 Hcid Hini). }
    rewrite Hj.
    apply fund_invariant_quiet; [exact Hinv|exact Hi| |].
    + unfold fund_consistent. simpl. split; [exact Hw|]. split; [exact Hf|].
      split.
      * exists t0. split; [exact Ht0|]. split; [exact Hini|reflexivity].
      * exists j. split; [exact Hj|reflexivity].
    + intros c' Hc'. rewrite Hc in Hc'. injection Hc' as <-.
      unfold fold_fresh. simpl. intros _. split; [lia|reflexivity].
  - destruct (competitions s !! t_competition t0) as [c2|] eqn:Hc2.
    2:{ apply fund_invariant_quiet; [exact Hinv|exact Hi| |].
        - apply Hover. exact Hcid.
        - intros c' _. exact I. }
    destruct (decide (c_state c2 = INITIAL)) as [Hst2|Hst2].
    2:{ apply fund_invariant_quiet; [exact Hinv|exact Hi| |].
        - apply Hover. exact Hcid.
        - intros c' _. exact I. }
    destruct (py_index (c_choices c2) (t_choice t0)) as [j|] eqn:Hj.
    2:{ apply fund_invariant_quiet; [exact Hinv|exact Hi| |].
        - apply Hover. exact Hcid.
        - intros c' _. exact I. }
    apply fund_invariant_quiet; [exact Hinv|exact Hi| |].
    + unfold fund_consistent. simpl. split; [exact Hw|]. split; [exact Hf|].
      split.
      * exists t0. split; [exact Ht0|]. split; [exact Hini|reflexivity].
      * exists j. split; [exact Hj|reflexivity].
    + intros c' _. unfold fold_fresh. simpl. intros Hcontra.
      exfalso. apply Hcid. exact Hcontra.
Qed.

Lemma fund_invariant_fold s ks i k t competitiondata choices :
  fund_invariant cid c0 T0 (s, ks) → ks !! i = Some k →
  f_point k = AtFold t competitiondata choices →
  fund_invariant cid c0 T0 (let '(s', k') := step_fund k s in (s', <[i := k']> ks)).
Proof.
  intros Hinv Hi Hp.
  pose proof Hinv as ((c & Hc & Hst & Hlen & Hsold & Hpool & Hfresh)
                      & Htk & Hwin & Hcount & Hstaked & Hks).
  simpl in *.
  assert (Hk : fund_consistent cid T0 k)
    by (rewrite Forall_forall in Hks; apply Hks;
        eapply list_elem_of_lookup_2; exact Hi).
  assert (Hkf : fold_fresh cid c k)
    by (rewrite Forall_forall in Hfresh; apply Hfresh;
        eapply list_elem_of_lookup_2; exact Hi).
  unfold fund_consistent in Hk. unfold fold_fresh in Hkf. rewrite Hp in Hk, Hkf.
  destruct Hk as (Hw & Hf & (t0 & Ht0 & Hini & ->) & j & Hj & ->).
  simpl in Hj, Hkf.
  assert (Hmiss : (∀ c', competitions s !! t_competition t0 = Some c' →
                         ¬ (c_sold c' = c_sold competitiondata
                            ∧ c_state c' = INITIAL)) →
                  fund_invariant cid c0 T0
                    (let '(s', k') := step_fund k s in (s', <[i := k']> ks))).
  { intros Hmiss. rewrite (step_fund_fold_miss k s _ _ _ Hp Hmiss).
    apply fund_invariant_quiet; [exact Hinv|exact Hi| |].
    - unfold fund_consistent. simpl. split; [exact Hw|]. split; [exact Hf|].
      exists t0. split; [exact Ht0|]. split; [exact Hini|reflexivity].
    - intros c' _. exact I. }
  destruct (competitions s !! t_competition t0) as [c2|] eqn:Hc2.
  2:{ apply Hmiss. intros c' Hc'. discriminate Hc'. }
  destruct (decide (c_sold c2 = c_sold competitiondata ∧ c_state c2 = INITIAL))
    as [[Hs2 Hst2]|Hn].
  2:{ apply Hmiss. intros c' Hc'. injection Hc' as <-. exact Hn. }
  rewrite (step_fund_fold_hit k s _ _ _ c2 Hp Hc2 Hs2 Hst2).
  simpl t_competition. simpl t_amount.
  assert (Hstake : call_stake cid T0 k
                   = if bool_decide (t_competition t0 = cid)
                     then Some (t_amount t0) else None)
    by (unfold call_stake; rewrite Ht0; reflexivity).
  pose proof (wins_on_insert ks i k (fund_folded k) Hi eq_refl) as Ew.
  pose proof (wins_for_insert cid T0 ks i k (fund_folded k) Hi eq_refl) as Ewf.
  pose proof (folds_for_insert cid T0 ks i k (fund_folded k) Hi eq_refl) as Eff.
  pose proof (won_stakes_insert cid T0 ks i k (fund_folded k) Hi eq_refl) as Ews.
  pose proof (folded_stakes_insert cid T0 ks i k (fund_folded k) Hi eq_refl)
    as Efs.
  simpl in Ew, Ewf, Eff, Ews, Efs. rewrite Hf in Eff, Efs.
  rewrite Hstake in Ewf, Eff, Ews, Efs.
  assert (Eta : ∀ y, ticket_after T0 (<[i := fund_folded k]> ks) y
                     = ticket_after T0 ks y).
  { intros y. apply (ticket_after_insert T0 ks i k (fund_folded k) Hi eq_refl).
    intros _. reflexivity. }
  unfold fund_invariant. simpl.
  split; [|split; [|split; [|split; [|split]]]].
  - destruct (decide (t_competition t0 = cid)) as [Hcid|Hcid].
    + rewrite (bool_decide_eq_true_2 _ Hcid) in Eff, Efs.
      rewrite Hcid in Hc2 |- *. rewrite Hc in Hc2. injection Hc2 as <-.
      destruct (Hkf Hcid) as [_ Hsame]. specialize (Hsame (eq_sym Hs2)).
      rewrite lookup_insert_eq. eexists. split; [reflexivity|]. simpl.
      split; [exact Hst|]. split; [|split; [|split]].
      * rewrite length_alter, Hsame. exact Hlen.
      * rewrite Hsold. lia.
      * unfold pool at 1. simpl. rewrite sum_amounts_alter.
        -- rewrite Hsame. fold (pool c). rewrite Hpool. lia.
        -- eapply py_index_lt. exact Hj.
      * apply Forall_insert; [|exact I].
        eapply Forall_impl; [exact Hfresh|]. intros k2 Hk2.
        unfold fold_fresh in *. destruct (f_point k2); try exact I.
        intros Ht2. destruct (Hk2 Ht2) as [Hle _]. simpl. split; lia.
    + rewrite (bool_decide_eq_false_2 _ Hcid) in Eff, Efs.
      rewrite lookup_insert_ne by exact Hcid.
      exists c. split; [exact Hc|]. split; [exact Hst|]. split; [exact Hlen|].
      split; [|split].
      * rewrite Hsold. lia.
      * rewrite Hpool. lia.
      * apply Forall_insert; [exact Hfresh|exact I].
  - intros y. rewrite Eta. apply Htk.
  - intros y. specialize (Ew y). destruct (Hwin y) as [Hle Hex].
    assert (wins_on y (<[i := fund_folded k]> ks) = wins_on y ks) as ->
      by (destruct (bool_decide (f_ticket_id k = y)); lia).
    split; assumption.
  - rewrite Hcount.
    destruct (bool_decide (t_competition t0 = cid)); lia.
  - rewrite Hstaked.
    destruct (bool_decide (t_competition t0 = cid)); lia.
  - apply Forall_insert; [exact Hks|].
    unfold fund_consistent. simpl. rewrite Hw, Hf.
    split; [lia|]. split; [lia|]. reflexivity.
Qed.

Lemma fund_invariant_step i σ :
  fund_invariant cid c0 T0 σ → fund_invariant cid c0 T0 (fund_step_at i σ).
Proof.
  intros Hinv. destruct σ as [s ks]. unfold fund_step_at. simpl.
  destruct (ks !! i) as [k|] eqn:Hi; [|exact Hinv].
  destruct (f_point k) as [| |t|t competitiondata choices|result] eqn:Hp.
  - apply fund_invariant_cas; assumption.
  - apply fund_invariant_ticket; assumption.
  - eapply fund_invariant_competition; eassumption.
  - eapply fund_invariant_fold; eassumption.
  - rewrite (step_fund_finished k s result Hp).
    apply fund_invariant_idle; assumption.
Qed.

Lemma fund_invariant_run schedule : ∀ σ,
  fund_invariant cid c0 T0 σ →
  fund_invariant cid c0 T0 (run_fund_schedule schedule σ).
Proof.
  induction schedule as [|i schedule IH]; intros σ Hinv; [exact Hinv|].
  simpl. apply IH, fund_invariant_step, Hinv.
Qed.
End FundInvariant.
(** *** Where the calls start, and what the invariant gives *)








(** *** Every call comes to its end *)









(** *** Schedules *)









(** *** Every call past its CAS has seen the ticket funded *)








